(** * Multi-proxy config fetcher: a shallow embedding of the fetch,
    extract, validate, select pipeline.

    Two source files are embedded.  [src/fetch_configs.py] is the retrying
    fetcher (module [FetchConfigs]); [src/config.py] is the optimized
    variant (module [Config]).  Python [str] values are modelled as
    [string], one [ascii] per code point, so the model covers texts whose
    code points are below 256; Python [int] is [Z]; the [Set[str]] of seen
    configs is a [gset string]. *)

From Stdlib Require Import ZArith Ascii String.
From stdpp Require Import base decidable list gmap strings sorting.

Local Open Scope string_scope.
Local Open Scope list_scope.
Local Open Scope nat_scope.
#[local] Set Warnings "-clear-no-such-hyp".

(** ** Python string primitives *)

Module Text.

(** [str.isspace] on one code point below 256: TAB..CR, FS..US, SPACE,
    NEL (0x85) and NBSP (0xA0).  The regular-expression class [\s] on a
    [str] pattern is the same set. *)
Definition isspace (c : ascii) : bool :=
  let n := nat_of_ascii c in
  (((9 <=? n) && (n <=? 13)) || ((28 <=? n) && (n <=? 32))
   || (n =? 133) || (n =? 160))%nat.

(** [str.lower] on one code point below 256: A..Z and the Latin-1 capitals
    0xC0..0xDE (without the multiplication sign 0xD7) move up by 32. *)
Definition lower_char (c : ascii) : ascii :=
  let n := nat_of_ascii c in
  if (((65 <=? n) && (n <=? 90))
      || ((192 <=? n) && (n <=? 222) && negb (n =? 215)))%nat
  then ascii_of_nat (n + 32) else c.

Fixpoint lower (s : string) : string :=
  match s with
  | EmptyString => EmptyString
  | String c r => String (lower_char c) (lower r)
  end.

(** [s.startswith(p)] *)
Fixpoint startswith (s p : string) {struct p} : bool :=
  match p with
  | EmptyString => true
  | String a p' =>
      match s with
      | String b s' => if decide (a = b) then startswith s' p' else false
      | EmptyString => false
      end
  end.

(** [s.lstrip()], [s.rstrip()], [s.strip()] *)
Fixpoint lstrip (s : string) : string :=
  match s with
  | EmptyString => EmptyString
  | String c r => if isspace c then lstrip r else s
  end.

Fixpoint rstrip (s : string) : string :=
  match s with
  | EmptyString => EmptyString
  | String c r =>
      match rstrip r with
      | EmptyString => if isspace c then EmptyString else String c EmptyString
      | r' => String c r'
      end
  end.

Definition strip (s : string) : string := rstrip (lstrip s).

(** [s.split(sep)[0]]: the text before the first occurrence of [sep], or
    all of [s] when [sep] does not occur ([sep] is not empty). *)
Fixpoint split_head (sep s : string) : string :=
  match s with
  | EmptyString => EmptyString
  | String c r => if startswith s sep then EmptyString else String c (split_head sep r)
  end.

(** Truthiness of a [str]: the empty string is falsy. *)
Definition truthy (s : string) : bool :=
  match s with EmptyString => false | _ => true end.

End Text.

(** ** The regular expression of the extractor *)

Module Regex.
Import Text.

(** The negated character class of the pattern: anything but white space,
    the two angle brackets, the double quote (code 34), the single quote
    (code 39) and the pipe. *)
Definition payload_char (c : ascii) : bool :=
  negb (isspace c) &&
  negb (bool_decide (c ∈ ["<"%char; ">"%char; ascii_of_nat 34; ascii_of_nat 39; "|"%char])).

(** A literal under [re.IGNORECASE]: every pattern letter is lower case
    ASCII, and a text character matches it when its lower case is the
    letter.  Returns the matched text and the remainder. *)
Fixpoint lit_ci (lit s : string) : option (string * string) :=
  match lit with
  | EmptyString => Some (EmptyString, s)
  | String a lit' =>
      match s with
      | String b s' =>
          if decide (lower_char b = a)
          then '(m, rest) ← lit_ci lit' s'; Some (String b m, rest)
          else None
      | EmptyString => None
      end
  end.

(** The greedy repetition of the class that ends the pattern: the longest run of payload characters; fails on an empty run. *)
Fixpoint payload_run (s : string) : string * string :=
  match s with
  | String c r =>
      if payload_char c
      then let '(m, rest) := payload_run r in (String c m, rest)
      else (EmptyString, s)
  | EmptyString => (EmptyString, EmptyString)
  end.

Record rmatch := RMatch { group1 : string; whole : string; rest : string }.

(** One alternative of the group, then [:\/\/], then the payload run. *)
Definition match_alt (s scheme : string) : option rmatch :=
  '(g, s1) ← lit_ci scheme s;
  '(sep, s2) ← lit_ci "://" s1;
  let '(p, s3) := payload_run s2 in
  if truthy p then Some (RMatch g (g +:+ sep +:+ p) s3) else None.

(** The alternatives are tried from left to right; the first one for which
    the rest of the pattern matches wins. *)
Fixpoint match_here (schemes : list string) (s : string) : option rmatch :=
  match schemes with
  | [] => None
  | a :: more =>
      match match_alt s a with
      | Some m => Some m
      | None => match_here more s
      end
  end.

(** [re.findall(pattern, text, re.IGNORECASE)] for a pattern with exactly
    one capturing group: the scan moves left to right over non-overlapping
    matches and the result lists, for every match, the text of group 1.
    [skip] counts the characters of the current match still to be passed
    over, which keeps the recursion structural. *)
Fixpoint findall_skip (schemes : list string) (skip : nat) (s : string) : list string :=
  match s with
  | EmptyString => []
  | String _ r =>
      match skip with
      | S k => findall_skip schemes k r
      | O =>
          match match_here schemes s with
          | Some m => group1 m :: findall_skip schemes (String.length (whole m) - 1) r
          | None => findall_skip schemes 0 r
          end
      end
  end.

Definition findall (schemes : list string) (s : string) : list string :=
  findall_skip schemes 0 s.

(** What the same scan yields when the whole match is collected, as
    [re.finditer] with [m.group(0)] would. *)
Fixpoint whole_matches_skip (schemes : list string) (skip : nat) (s : string) : list string :=
  match s with
  | EmptyString => []
  | String _ r =>
      match skip with
      | S k => whole_matches_skip schemes k r
      | O =>
          match match_here schemes s with
          | Some m => whole m :: whole_matches_skip schemes (String.length (whole m) - 1) r
          | None => whole_matches_skip schemes 0 r
          end
      end
  end.

End Regex.

(** ** Python control and container primitives *)

Module Py.

(** The result of a call that may raise. *)
Inductive exc (A : Type) : Type :=
  | Ok (a : A)
  | Raised.
Arguments Ok {A} a.
Arguments Raised {A}.

Definition bind {A B} (m : exc A) (k : A → exc B) : exc B :=
  match m with
  | Ok a => k a
  | Raised => Raised
  end.

(** [try: body  except: return d] *)
Definition try_except {A} (body : exc A) (d : A) : A :=
  match body with
  | Ok a => a
  | Raised => d
  end.

(** The slice [l[:k]] for an [int] bound: a negative bound counts from the
    end of the list. *)
Definition slice_to {A} (l : list A) (k : Z) : list A :=
  if (0 <=? k)%Z then take (Z.to_nat k) l
  else take (length l - Z.to_nat (- k)) l.

(** [list(set(l))]: one occurrence of every distinct element.  Python fixes
    no iteration order for a set of strings; the model lists each element
    at its last occurrence in [l]. *)
Definition list_of_set (l : list string) : list string := remove_dups l.

(** [d.get(k, default)] on a dictionary kept as an association list in
    insertion order. *)
Fixpoint dict_get {V} (d : list (string * V)) (k : string) (default : V) : V :=
  match d with
  | [] => default
  | (k', v) :: d' => if decide (k' = k) then v else dict_get d' k default
  end.

End Py.

#[global] Instance exc_mbind : MBind Py.exc := λ A B k m, Py.bind m k.

(** ** External collaborators *)

(** [config_validator.ConfigValidator]: its methods are taken as they are
    called.  The two used by the extractor run outside any [try] block and
    are total here; the others are called under a bare [except] and may
    raise. *)
Record ConfigValidator := {
  is_base64 : string → bool;
  decode_base64_text : string → option string;
  normalize_hysteria2_protocol : string → Py.exc string;
  clean_vmess_config : string → Py.exc string;
  clean_config : string → Py.exc string;
  validate_protocol_config : string → string → Py.exc bool;
}.

(** One entry of [SUPPORTED_PROTOCOLS]; both keys are read with
    [info.get(key, default)]. *)
Record protocol_info := {
  info_aliases : option (list string);
  info_priority : option Z;
}.

Definition get_aliases (i : protocol_info) : list string := default [] (info_aliases i).
Definition get_priority (i : protocol_info) : Z := default 0%Z (info_priority i).

Record ChannelConfig := {
  url : string;
  enabled : bool;
  is_telegram : bool;
}.

(** [config.ProxyConfig] as the fetchers read it.  [SUPPORTED_PROTOCOLS] is
    a dictionary, kept in insertion order. *)
Record ProxyConfig := {
  SUPPORTED_PROTOCOLS : list (string * protocol_info);
  is_protocol_enabled : string → Py.exc bool;
  get_enabled_channels : list ChannelConfig;
  MAX_RETRIES : Z;
  RETRY_DELAY : Z;
}.

(** A dictionary has one entry per key. *)
Definition wf_protocols (cfg : ProxyConfig) : Prop :=
  NoDup (SUPPORTED_PROTOCOLS cfg).*1.

(** One HTTP GET as [requests] reports it: a response with its status code
    and body, or a [RequestException] (time-out, connection error). *)
Inductive attempt :=
  | Response (status_code : Z) (text : string)
  | RequestException.

(** The remote side: the outcome of the [n]-th GET (from 0) within one
    fetch of a URL. *)
Definition network := string → nat → attempt.

(** [Response.raise_for_status()] of [requests] raises [HTTPError], a
    [RequestException], for client and server errors: 400 to 599. *)
Definition raises_for_status (status_code : Z) : bool :=
  ((400 <=? status_code) && (status_code <? 600))%Z.

(** ** [src/fetch_configs.py]: class [ConfigFetcher] *)

Module FetchConfigs.
Import Text Py.

(** The alternatives of the group in [self.protocol_pattern]. *)
Definition protocol_pattern : list string :=
  ["vless"; "vmess"; "ss"; "trojan"; "hy2"; "shadowsocks"].

(** What [fetch_with_retry] did: its result ([None] on exhaustion), the
    durations passed to [time.sleep], in order, and the number of GETs. *)
Record fetch_result := {
  returned : exc (option (Z * string));
  waits : list Z;
  issued : nat;
}.

(** The body of the [try]: GET, [raise_for_status], [return response]. *)
Definition try_get (a : attempt) : option (Z * string) :=
  match a with
  | Response status_code text =>
      if raises_for_status status_code then None else Some (status_code, text)
  | RequestException => None
  end.

Section Fetcher.
Context (config : ProxyConfig) (validator : ConfigValidator).
(** The text of the message elements of a Telegram page (BeautifulSoup). *)
Context (message_text : string → string).

(** The [for attempt in range(MAX_RETRIES)] loop.  [time.sleep] raises
    [ValueError] on a negative duration, which no handler catches. *)
Fixpoint retry_loop (get : nat → attempt) (remaining attempt : nat)
    (backoff : Z) (slept : list Z) : fetch_result :=
  match remaining with
  | O => {| returned := Ok None; waits := slept; issued := attempt |}
  | S remaining' =>
      match try_get (get attempt) with
      | Some response =>
          {| returned := Ok (Some response); waits := slept; issued := S attempt |}
      | None =>
          let wait_time := Z.min (RETRY_DELAY config * backoff) 30 in
          if (wait_time <? 0)%Z
          then {| returned := Raised; waits := slept; issued := S attempt |}
          else retry_loop get remaining' (S attempt) (backoff * 2) (slept ++ [wait_time])
      end
  end.

Definition fetch_with_retry (get : nat → attempt) : fetch_result :=
  retry_loop get (Z.to_nat (MAX_RETRIES config)) 0 1 [].

(** The text that is scanned: the decoded text when the stripped input is
    one base64 blob and decoding gives a non-empty text. *)
Definition scan_target (text : string) : string :=
  if is_base64 validator (strip text)
  then match decode_base64_text validator (strip text) with
       | Some decoded => if truthy decoded then decoded else text
       | None => text
       end
  else text.

Definition extract_configs_from_text (text : string) : list string :=
  list_of_set (Regex.findall protocol_pattern (scan_target text)).

(** The [for protocol, info in SUPPORTED_PROTOCOLS.items()] loop of
    [process_single_config].  [config_] is the loop's variable [config]: the
    vmess cleaning assigns to it, and the assignment is seen by the later
    iterations. *)
Fixpoint match_protocols (protocols : list (string * protocol_info))
    (seen_configs : gset string) (config_ : string) : exc (option string) :=
  match protocols with
  | [] => Ok None
  | (protocol, info) :: more =>
      if existsb (startswith config_) (protocol :: get_aliases info)
      then
        on ← is_protocol_enabled config protocol;
        if negb on then Ok None
        else
          config' ← (if decide (protocol = "vmess://")
                      then clean_vmess_config validator config_
                      else Ok config_);
          clean ← clean_config validator config';
          valid ← validate_protocol_config validator clean protocol;
          if valid && negb (bool_decide (clean ∈ seen_configs))
          then Ok (Some clean)
          else match_protocols more seen_configs config'
      else match_protocols more seen_configs config_
  end.

Definition process_single_config (seen_configs : gset string) (raw_config : string)
    : option string :=
  try_except
    (let config_ := strip raw_config in
     config_ ← (if startswith config_ "hy2://"
                 then normalize_hysteria2_protocol validator config_
                 else Ok config_);
     match_protocols (SUPPORTED_PROTOCOLS config) seen_configs config_)
    None.

(** One iteration of [for raw in raw_found] in [fetch_configs_from_source]:
    the state is the channel's list [configs] and the shared set
    [self.seen_configs]. *)
Definition accept_step (st : list string * gset string) (raw : string)
    : list string * gset string :=
  let '(configs, seen_configs) := st in
  match process_single_config seen_configs raw with
  | Some processed =>
      if truthy processed
      then (configs ++ [processed], {[processed]} ∪ seen_configs)
      else (configs, seen_configs)
  | None => (configs, seen_configs)
  end.

Definition accept_loop (raw_found : list string) (st : list string * gset string)
    : list string * gset string :=
  foldl accept_step st raw_found.

Definition fetch_configs_from_source (net : network) (channel : ChannelConfig)
    (seen_configs : gset string) : exc (list string * gset string) :=
  if negb (enabled channel) then Ok ([], seen_configs)
  else
    response ← returned (fetch_with_retry (net (url channel)));
    match response with
    | None => Ok ([], seen_configs)
    | Some (_, text) =>
        let content := if is_telegram channel then message_text text else text in
        let raw_found := extract_configs_from_text content in
        Ok (accept_loop raw_found ([], seen_configs))
    end.

(** [executor.map(self.fetch_configs_from_source, enabled_channels)] with
    the channels taken one after the other. *)
Fixpoint map_sources (net : network) (channels : list ChannelConfig)
    (seen_configs : gset string) : exc (list (list string) * gset string) :=
  match channels with
  | [] => Ok ([], seen_configs)
  | channel :: more =>
      '(configs, seen') ← fetch_configs_from_source net channel seen_configs;
      '(results, seen'') ← map_sources net more seen';
      Ok (configs :: results, seen'')
  end.

(** [proto_map[p].append(c)] for the first key [p] that prefixes [c]. *)
Fixpoint append_first (c : string) (proto_map : list (string * list string))
    : list (string * list string) :=
  match proto_map with
  | [] => []
  | (p, l) :: more =>
      if startswith c p then (p, l ++ [c]) :: more
      else (p, l) :: append_first c more
  end.

(** [sorted(items, key=priority, reverse=True)]: Python's sort is stable,
    and stays so with [reverse=True]. *)
Fixpoint insert_sorted (x : string * protocol_info) (l : list (string * protocol_info))
    : list (string * protocol_info) :=
  match l with
  | [] => [x]
  | y :: l' =>
      if (get_priority y.2 <=? get_priority x.2)%Z then x :: l
      else y :: insert_sorted x l'
  end.

Definition sorted_by_priority (items : list (string * protocol_info))
    : list (string * protocol_info) :=
  foldr insert_sorted [] items.

(** The collecting loop of [balance_protocols] with its [break]. *)
Fixpoint collect (sorted_protocols : list (string * protocol_info))
    (proto_map : list (string * list string)) (final_selection : list string)
    : list string :=
  match sorted_protocols with
  | [] => final_selection
  | (proto, _) :: more =>
      let final_selection' := final_selection ++ dict_get proto_map proto [] in
      if (150 <=? length final_selection')%nat then final_selection'
      else collect more proto_map final_selection'
  end.

Definition build_proto_map (configs : list string) : list (string * list string) :=
  foldl (λ m c, append_first c m)
        ((λ p, (p.1, [])) <$> SUPPORTED_PROTOCOLS config) configs.

Definition balance_protocols (configs : list string) : list string :=
  let proto_map := build_proto_map configs in
  let sorted_protocols := sorted_by_priority (SUPPORTED_PROTOCOLS config) in
  take 150 (collect sorted_protocols proto_map []).

(** In the source the [def] line of [balance_protocols] is not indented:
    the function is defined at module level, after the class, and takes the
    fetcher as its first argument.  The class has no attribute of that name,
    so [self.balance_protocols(all_configs)] raises [AttributeError] before
    anything is selected; an empty [all_configs] skips the call. *)
Definition fetch_all_configs (net : network) : exc (list string) :=
  '(results, _) ← map_sources net (get_enabled_channels config) ∅;
  let all_configs := concat results in
  match all_configs with
  | [] => Ok []
  | _ => Raised
  end.

End Fetcher.
End FetchConfigs.

(** ** [src/config.py]: the optimized [ConfigFetcher]

    The file ends in an [if] statement that has no body.  Its functions are
    embedded as they are written. *)

(** [user_settings]: the two constants the optimized fetcher imports. *)
Record UserSettings := {
  SPECIFIC_CONFIG_COUNT : Z;
  USE_MAXIMUM_POWER : bool;
}.

Module Config.
Import Text Py.

Definition protocol_pattern : list string :=
  ["vless"; "vmess"; "ss"; "trojan"; "hy2"; "hysteria2"; "tuic"; "wireguard"].

(** The list [priority] of [rank_and_filter]. *)
Definition priority : list string :=
  ["vless://"; "trojan://"; "hy2://"; "ss://"; "vmess://"].

(** The test of the inner loop, without its [c not in sorted_final]. *)
Definition ranked_as (p c : string) : bool :=
  startswith c p || (bool_decide (p = "hy2://") && startswith c "hysteria2://").

(** [for c in configs: if ... and c not in sorted_final: append] *)
Fixpoint append_matching (p : string) (configs sorted_final : list string)
    : list string :=
  match configs with
  | [] => sorted_final
  | c :: more =>
      if ranked_as p c && negb (bool_decide (c ∈ sorted_final))
      then append_matching p more (sorted_final ++ [c])
      else append_matching p more sorted_final
  end.

(** [for p in priority: ...; if len(sorted_final) >= limit: break] *)
Fixpoint rank_loop (ps configs : list string) (limit : Z) (sorted_final : list string)
    : list string :=
  match ps with
  | [] => sorted_final
  | p :: more =>
      let sorted_final' := append_matching p configs sorted_final in
      if (limit <=? Z.of_nat (length sorted_final'))%Z then sorted_final'
      else rank_loop more configs limit sorted_final'
  end.

Definition rank_and_filter (configs : list string) (limit : Z) : list string :=
  slice_to (rank_loop priority configs limit []) limit.

(** The protocol key that [fetch_from_channel] looks up for a cleaned
    config. *)
Definition proto_of (clean : string) : string :=
  let proto := lower (split_head "://" clean) +:+ "://" in
  if decide (proto = "hy2://") then "hysteria2://" else proto.

Section Fetcher.
Context (config : ProxyConfig) (validator : ConfigValidator) (settings : UserSettings).
(** The text of the fresh message elements of a page, each followed by a
    line feed (BeautifulSoup and [is_fresh]). *)
Context (fresh_text : string → string).

(** [for raw in found] under the [try]: an exception ends the loop and the
    configs accepted so far are returned. *)
Fixpoint found_loop (found configs : list string) (seen_configs : gset string)
    : list string * gset string :=
  match found with
  | [] => (configs, seen_configs)
  | raw :: more =>
      match clean_config validator (strip raw) with
      | Raised => (configs, seen_configs)
      | Ok clean =>
          match is_protocol_enabled config (proto_of clean) with
          | Raised => (configs, seen_configs)
          | Ok on =>
              if on && negb (bool_decide (clean ∈ seen_configs))
              then found_loop more (configs ++ [clean]) ({[clean]} ∪ seen_configs)
              else found_loop more configs seen_configs
          end
      end
  end.

(** The status test of [fetch_from_channel]. *)
Definition status_ok (status_code : Z) : bool := bool_decide (status_code = 200%Z).

Definition fetch_from_channel (net : network) (channel : ChannelConfig)
    (seen_configs : gset string) : list string * gset string :=
  if negb (enabled channel) then ([], seen_configs)
  else
    match net (url channel) 0 with
    | RequestException => ([], seen_configs)
    | Response status_code text =>
        if negb (status_ok status_code) then ([], seen_configs)
        else
          let content := fresh_text text in
          let found := Regex.findall protocol_pattern content in
          found_loop found [] seen_configs
    end.

Fixpoint map_channels (net : network) (channels : list ChannelConfig)
    (seen_configs : gset string) : list (list string) * gset string :=
  match channels with
  | [] => ([], seen_configs)
  | channel :: more =>
      let '(configs, seen') := fetch_from_channel net channel seen_configs in
      let '(results, seen'') := map_channels net more seen' in
      (configs :: results, seen'')
  end.

Definition get_all (net : network) : list string :=
  let '(results, _) := map_channels net (get_enabled_channels config) ∅ in
  let all_configs := concat results in
  let limit := if negb (USE_MAXIMUM_POWER settings)
               then SPECIFIC_CONFIG_COUNT settings else 150%Z in
  rank_and_filter all_configs limit.

End Fetcher.
End Config.

(** ** Channel tasks on a thread pool

    Both fetchers hand their per-channel method to a [ThreadPoolExecutor]
    and share [self.seen_configs] between the tasks.  A task tests
    [clean not in self.seen_configs] and, in later statements, appends to
    its list and adds to the set; no lock is held, so another task may run
    between the two.  A task is reduced here to the cleaned candidates it
    still has to test. *)

Module Threads.

Record task := {
  pending : list string;     (* cleaned candidates not yet tested *)
  passed : option string;    (* a candidate whose membership test has passed *)
  accepted : list string;    (* the task's list [configs] *)
}.

Record pool := {
  seen_configs : gset string;
  tasks : list task;
}.

(** One step of one task: the pending add, else the next membership test. *)
Definition step_task (seen : gset string) (t : task) : gset string * task :=
  match passed t with
  | Some c =>
      ({[c]} ∪ seen,
       {| pending := pending t; passed := None; accepted := accepted t ++ [c] |})
  | None =>
      match pending t with
      | [] => (seen, t)
      | c :: more =>
          if bool_decide (c ∈ seen)
          then (seen, {| pending := more; passed := None; accepted := accepted t |})
          else (seen, {| pending := more; passed := Some c; accepted := accepted t |})
      end
  end.

(** The scheduler lets task [i] take one step. *)
Definition step (p : pool) (i : nat) : pool :=
  match tasks p !! i with
  | None => p
  | Some t =>
      let '(seen', t') := step_task (seen_configs p) t in
      {| seen_configs := seen'; tasks := <[i := t']> (tasks p) |}
  end.

Definition run (schedule : list nat) (p : pool) : pool := foldl step p schedule.

(** The test and the add of one candidate with nothing in between: when
    the step of task [i] was a test that passed, its add follows at once. *)
Definition atomic_step (p : pool) (i : nat) : pool :=
  let p' := step p i in
  match tasks p' !! i with
  | Some {| passed := Some _ |} => step p' i
  | _ => p'
  end.

Definition run_atomic (schedule : list nat) (p : pool) : pool :=
  foldl atomic_step p schedule.

Definition start (candidates : list (list string)) : pool :=
  {| seen_configs := ∅;
     tasks := (λ l, {| pending := l; passed := None; accepted := [] |}) <$> candidates |}.

(** All configs accepted by all tasks, task after task. *)
Definition all_accepted (p : pool) : list string := concat (accepted <$> tasks p).

End Threads.

(** ** Vocabulary of the selection properties *)

(** The first key, in order, whose test a record passes. *)
Fixpoint first_key (test : string → string → bool) (keys : list string) (c : string)
    : option string :=
  match keys with
  | [] => None
  | p :: more => if test p c then Some p else first_key test more c
  end.

(** The protocol under which [balance_protocols] files a record: the first
    key of [SUPPORTED_PROTOCOLS] that prefixes it. *)
Definition owner (config : ProxyConfig) (c : string) : option string :=
  first_key (λ p c, Text.startswith c p) (SUPPORTED_PROTOCOLS config).*1 c.

(** The priority entry under which [rank_and_filter] ranks a record. *)
Definition rank_of (c : string) : option string :=
  first_key Config.ranked_as Config.priority c.

(** [p] comes before [q] in a list of keys. *)
Definition before {K} (ks : list K) (p q : K) : Prop :=
  ∃ i j, ks !! i = Some p ∧ ks !! j = Some q ∧ i < j.

(** Keyed buckets whose records all have the class of their key. *)
Definition filed {A K} (cls : A → option K) (bs : list (K * list A)) : Prop :=
  ∀ k l x, (k, l) ∈ bs → x ∈ l → cls x = Some k.

(** The invariant of a sequential run: the configs accepted so far, by the
    earlier channels ([prev]) and by the current one, are distinct and new
    to the initial set, and the set has grown by exactly these configs. *)
Definition run_inv (seen0 : gset string) (prev : list string)
    (st : list string * gset string) : Prop :=
  NoDup (prev ++ st.1) ∧ st.2 = list_to_set (prev ++ st.1) ∪ seen0
  ∧ (∀ x, x ∈ prev ++ st.1 → x ∉ seen0).

(** A config is in the list of at most one task of the pool. *)
Definition accepted_by_at_most_one (p : Threads.pool) (c : string) : Prop :=
  ∀ i j ti tj,
    Threads.tasks p !! i = Some ti → Threads.tasks p !! j = Some tj →
    c ∈ Threads.accepted ti → c ∈ Threads.accepted tj → i = j.

(** The invariant of a pool between atomic steps: no test is pending, the
    accepted configs are distinct, and all of them are in the set. *)
Definition pool_inv (p : Threads.pool) : Prop :=
  (∀ t, t ∈ Threads.tasks p → Threads.passed t = None)
  ∧ NoDup (Threads.all_accepted p)
  ∧ (∀ x, x ∈ Threads.all_accepted p → x ∈ Threads.seen_configs p).

(** ** The backoff policy of the specification *)

(** The specification's [nextDelay]: [min(cap, d * 2^i)] for the 0-based
    attempt index [i].  The fetcher has no such function; it keeps the
    factor in the local [backoff] and writes the cap, 30, in place. *)
Definition next_delay (d cap : Z) (i : nat) : Z := Z.min cap (d * 2 ^ Z.of_nat i).

Definition sum_Z (l : list Z) : Z := foldr Z.add 0%Z l.

(** The claim that waits only separate attempts: [n] attempts are
    separated by fewer than [n] waits. *)
Definition waits_only_between_attempts (r : FetchConfigs.fetch_result) : Prop :=
  length (FetchConfigs.waits r) < FetchConfigs.issued r.

(** The specification's success criterion on a status code: the 2xx range. *)
Definition is_2xx (status_code : Z) : Prop := (200 ≤ status_code ≤ 299)%Z.

(** ** A small configuration to run the model on *)

Module Sample.
Import Text Py.

(** Modelled from the spec: [normalize_hysteria2_protocol] belongs to
    [config_validator.py], which is not part of the sources; section 4.4,
    step 4a has it respell the alias [hy2://] as [hysteria2://]. *)
Definition normalize_alias (c : string) : string :=
  match c with
  | String "h" (String "y" (String "2" (String ":" (String "/" (String "/" payload))))) =>
      "hysteria2://" +:+ payload
  | _ => c
  end.

Definition validator : ConfigValidator := {|
  is_base64 := λ _, false;
  decode_base64_text := λ _, None;
  normalize_hysteria2_protocol := λ c, Ok (normalize_alias c);
  clean_vmess_config := Ok;
  clean_config := Ok;
  validate_protocol_config := λ _ _, Ok true;
|}.

Definition protocols : list (string * protocol_info) :=
  [ ("ss://", {| info_aliases := None; info_priority := Some 1%Z |});
    ("vless://", {| info_aliases := Some []; info_priority := Some 3%Z |});
    ("hysteria2://", {| info_aliases := Some ["hy2://"]; info_priority := Some 2%Z |});
    ("trojan://", {| info_aliases := None; info_priority := Some 2%Z |});
    ("vmess://", {| info_aliases := None; info_priority := None |}) ].

Definition channels : list ChannelConfig :=
  [ {| url := "https://t.me/s/one"; enabled := true; is_telegram := false |};
    {| url := "https://t.me/s/two"; enabled := true; is_telegram := false |};
    {| url := "https://t.me/s/off"; enabled := false; is_telegram := false |} ].

Definition config : ProxyConfig := {|
  SUPPORTED_PROTOCOLS := protocols;
  is_protocol_enabled := λ p, Ok (negb (bool_decide (p = "vmess://")));
  get_enabled_channels := channels;
  MAX_RETRIES := 3;
  RETRY_DELAY := 5;
|}.

(** A validator whose cleaning step raises. *)
Definition raising_validator : ConfigValidator := {|
  is_base64 := λ _, false;
  decode_base64_text := λ _, None;
  normalize_hysteria2_protocol := λ c, Ok (normalize_alias c);
  clean_vmess_config := Ok;
  clean_config := λ _, Raised;
  validate_protocol_config := λ _ _, Ok true;
|}.

(** A registry whose keys are bare scheme names. *)
Definition bare_config : ProxyConfig := {|
  SUPPORTED_PROTOCOLS :=
    [ ("ss", {| info_aliases := None; info_priority := Some 1%Z |});
      ("vless", {| info_aliases := None; info_priority := Some 3%Z |});
      ("trojan", {| info_aliases := None; info_priority := Some 2%Z |}) ];
  is_protocol_enabled := λ _, Ok true;
  get_enabled_channels := channels;
  MAX_RETRIES := 3;
  RETRY_DELAY := 5;
|}.

Definition settings : UserSettings :=
  {| SPECIFIC_CONFIG_COUNT := 2; USE_MAXIMUM_POWER := false |}.

(** A source that never answers. *)
Definition down : nat → attempt := λ _, RequestException.

(** A source that fails twice with a server error and then answers. *)
Definition flaky (body : string) : nat → attempt :=
  λ n, match n with
       | 0 => RequestException
       | 1 => Response 503 ""
       | _ => Response 200 body
       end.

(** Accepted records of several channels, merged. *)
Definition merged : list string :=
  ["ss://c@h:3"; "trojan://b@h:2"; "vless://a@h:1"; "hysteria2://e@h:5"; "vless://d@h:4"].

(** [n] distinct records of one scheme. *)
Definition supply (scheme : string) (n : nat) : list string :=
  (λ i, scheme +:+ String.concat "" (replicate i "x") +:+ "@h:1") <$> seq 0 n.

Definition net : network :=
  λ u, if decide (u = "https://t.me/s/one")
       then flaky "vless://a@h:1 trojan://b@h:2 vless://a@h:1"
       else λ _, Response 200 "vless://a@h:1 ss://c@h:3".

End Sample.

(** ** Further parts of the two files *)

(** The pages of a Telegram channel, as the two fetchers read them. *)
Module Pages.
Import Text.

(** [sep.join(l)] *)
Fixpoint join (sep : string) (l : list string) : string :=
  match l with
  | [] => EmptyString
  | [x] => x
  | x :: more => x +:+ sep +:+ join sep more
  end.

(** A line feed, as a one-character string. *)
Definition LF : string := String (ascii_of_nat 10) EmptyString.

(** [fetch_configs_from_source], the Telegram branch: the texts of the
    message elements that are not empty, joined by line feeds. *)
Definition join_messages (texts : list string) : string :=
  join LF (filter (λ t, truthy t = true) texts).

(** A message element of the optimized fetcher: its text and, when the
    enclosing message has a [time] tag whose [datetime] attribute parses to
    a time with a zone, the publish time (microseconds since the epoch). *)
Record message := {
  msg_text : string;
  msg_time : option Z;
}.

(** [is_fresh]: a message is stale only when it has a publish time and the
    time elapsed since then exceeds [MAX_CONFIG_AGE_DAYS]; whatever raises
    on the way ([timedelta] refuses more than 999999999 days) leaves the
    message fresh. *)
Definition is_fresh (now MAX_CONFIG_AGE_DAYS : Z) (m : message) : bool :=
  match msg_time m with
  | None => true
  | Some t =>
      if (999999999 <? Z.abs MAX_CONFIG_AGE_DAYS)%Z then true
      else negb (MAX_CONFIG_AGE_DAYS * 86400000000 <? now - t)%Z
  end.

(** [fetch_from_channel]: [content += msg.text + "\n"] for the fresh
    messages, in page order. *)
Fixpoint fresh_content (now MAX_CONFIG_AGE_DAYS : Z) (messages : list message) : string :=
  match messages with
  | [] => EmptyString
  | m :: more =>
      if is_fresh now MAX_CONFIG_AGE_DAYS m
      then msg_text m +:+ LF +:+ fresh_content now MAX_CONFIG_AGE_DAYS more
      else fresh_content now MAX_CONFIG_AGE_DAYS more
  end.

End Pages.

(** The per-channel counters that [fetch_configs_from_source] keeps. *)
Module Metrics.
Import Text Py.

(** The key under which an accepted config is counted:
    [processed.split('://')[0].lower() + '://']. *)
Definition p_type (processed : string) : string :=
  lower (split_head "://" processed) +:+ "://".

(** [protocol_counts[p_type] = protocol_counts.get(p_type, 0) + 1] *)
Definition count_config (protocol_counts : gmap string Z) (processed : string)
    : gmap string Z :=
  <[p_type processed := (default 0 (protocol_counts !! p_type processed) + 1)%Z]>
    protocol_counts.

Section Counting.
Context (config : ProxyConfig) (validator : ConfigValidator).

(** One iteration of [for raw in raw_found], with the counter update: the
    state is the list [configs], the set [self.seen_configs] and the
    dictionary [channel.metrics.protocol_counts]. *)
Definition source_step (st : list string * gset string * gmap string Z) (raw : string)
    : list string * gset string * gmap string Z :=
  let '(configs, seen_configs, protocol_counts) := st in
  match FetchConfigs.process_single_config config validator seen_configs raw with
  | Some processed =>
      if truthy processed
      then (configs ++ [processed], {[processed]} ∪ seen_configs,
            count_config protocol_counts processed)
      else st
  | None => st
  end.

Definition source_loop (raw_found : list string)
    (st : list string * gset string * gmap string Z)
    : list string * gset string * gmap string Z :=
  foldl source_step st raw_found.

(** [channel.metrics.total_configs = len(raw_found)] *)
Definition total_configs (raw_found : list string) : nat := length raw_found.

End Counting.
End Metrics.

(** [is_alive] of the optimized fetcher. *)
Module Alive.
Import Text Py.

(** [s.split(sep)] for a separator of one character. *)
Fixpoint split_char (sep : ascii) (s : string) : list string :=
  match s with
  | EmptyString => [EmptyString]
  | String c r =>
      if decide (c = sep) then EmptyString :: split_char sep r
      else match split_char sep r with
           | piece :: more => String c piece :: more
           | [] => [String c EmptyString]
           end
  end.

(** [s] without the prefix [p], when it has it (case matters). *)
Fixpoint after_prefix (p s : string) : option string :=
  match p with
  | EmptyString => Some s
  | String a p' =>
      match s with
      | String b s' => if decide (a = b) then after_prefix p' s' else None
      | EmptyString => None
      end
  end.

(** The longest run of closing brackets at the head of a text. *)
Fixpoint brackets (s : string) : string :=
  match s with
  | String c r => if decide (c = "]"%char) then String c (brackets r) else EmptyString
  | EmptyString => EmptyString
  end.

(** What the group of the port pattern must begin with.  The pattern is
    written with a backslash and a zero where a bracket was meant; the
    regular-expression parser reads them as the character of code 0, and
    the group is that character, a hyphen, a nine and one or more closing
    brackets. *)
Definition port_group_head : string :=
  String Ascii.zero (String "-" (String "9" EmptyString)).

(** One try of the port pattern at the head of a text: the text of the
    group and the length of the match. *)
Definition port_match (s : string) : option (string * nat) :=
  r ← after_prefix (String ":" port_group_head) s;
  let run := brackets r in
  if truthy run
  then Some (port_group_head +:+ run, 4 + String.length run)
  else None.

(** [re.findall] with the port pattern. *)
Fixpoint port_findall_skip (skip : nat) (s : string) : list string :=
  match s with
  | EmptyString => []
  | String _ r =>
      match skip with
      | S k => port_findall_skip k r
      | O =>
          match port_match s with
          | Some (group, len) => group :: port_findall_skip (len - 1) r
          | None => port_findall_skip 0 r
          end
      end
  end.

Definition port_findall (s : string) : list string := port_findall_skip 0 s.

Definition is_digit (c : ascii) : bool :=
  ((48 <=? nat_of_ascii c) && (nat_of_ascii c <=? 57))%nat.

(** Decimal digits with single underscores between them; [after_digit]
    tells whether the character before was a digit. *)
Fixpoint digits_value (acc : Z) (after_digit : bool) (s : string) : option Z :=
  match s with
  | EmptyString => if after_digit then Some acc else None
  | String c r =>
      if is_digit c
      then digits_value (acc * 10 + Z.of_nat (nat_of_ascii c - 48)) true r
      else if bool_decide (c = "_"%char) && after_digit
           then digits_value acc false r
           else None
  end.

(** [int(s)] for a string: white space around, an optional sign, decimal
    digits; anything else raises [ValueError]. *)
Definition py_int (s : string) : exc Z :=
  let parsed :=
    match strip s with
    | String "+" r => digits_value 0 false r
    | String "-" r => Z.opp <$> digits_value 0 false r
    | t => digits_value 0 false t
    end in
  match parsed with
  | Some n => Ok n
  | None => Raised
  end.

(** [is_alive].  [connect host port] tells whether
    [socket.create_connection] gets a connection; it raises otherwise.  The
    arguments of the call are evaluated first, [int] among them. *)
Definition is_alive (connect : string → Z → bool) (config_url : string) : bool :=
  try_except
    (let parts := split_char "@" config_url in
     if (1 <? length parts)%nat
     then
       let part1 := default EmptyString (parts !! 1) in
       let address_part := default EmptyString (head (split_char ":" part1)) in
       let port_part := port_findall part1 in
       match port_part with
       | first_port :: _ =>
           if truthy address_part
           then
             port ← py_int first_port;
             if connect address_part port then Ok true else Raised
           else Ok false
       | [] => Ok false
       end
     else Ok false)
    false.

End Alive.

(** One rewriting of the loop variable of [process_single_config]: the
    iteration of the entry [vmess://] assigns the cleaned [vmess] config to
    it, and the later iterations see the assignment. *)
Definition vmess_step (validator : ConfigValidator) (a b : string) : Prop :=
  clean_vmess_config validator a = Py.Ok b.

(** A scheme name with no white-space character. *)
Fixpoint no_space (s : string) : bool :=
  match s with
  | EmptyString => true
  | String c r => negb (Text.isspace c) && no_space r
  end.

(** Every distinct element of a list once, at the place of its first
    occurrence. *)
Fixpoint first_occurrences (l : list string) : list string :=
  match l with
  | [] => []
  | x :: l => x :: filter (λ y, y ≠ x) (first_occurrences l)
  end.

(** The records that [rank_and_filter] ranks under the entry [p] of its
    list [priority], each once, in the order of their first arrival. *)
Definition rank_bucket (configs : list string) (p : string) : list string :=
  first_occurrences (filter (λ c, Config.ranked_as p c = true) configs).

(** What holds of a task of the pool under every schedule.  [orig] is the
    list of candidates the task started with; [consumed] is the part of it
    the task has tested.  The configs the task has accepted, with the one
    whose test has passed, are distinct and appear in [consumed] in its
    order; the accepted ones are in the set; and every tested candidate is
    in the set or is the one waiting to be added. *)
Definition task_inv (seen : gset string) (orig : list string) (t : Threads.task) : Prop :=
  ∃ consumed, orig = consumed ++ Threads.pending t
    ∧ (Threads.accepted t ++ option_list (Threads.passed t)) `sublist_of` consumed
    ∧ NoDup (Threads.accepted t ++ option_list (Threads.passed t))
    ∧ (∀ c, c ∈ Threads.accepted t → c ∈ seen)
    ∧ (∀ c, c ∈ consumed → c ∈ seen ∨ Threads.passed t = Some c).

(** The invariant of a pool under every schedule: one task per list of
    candidates, each with [task_inv], and the set holds only configs that
    some task has accepted. *)
Definition schedule_inv (candidates : list (list string)) (p : Threads.pool) : Prop :=
  length (Threads.tasks p) = length candidates
  ∧ (∀ i orig t, candidates !! i = Some orig → Threads.tasks p !! i = Some t →
                 task_inv (Threads.seen_configs p) orig t)
  ∧ (∀ c, c ∈ Threads.seen_configs p →
          ∃ i t, Threads.tasks p !! i = Some t ∧ c ∈ Threads.accepted t).

(** * Properties *)

(** ** Extraction *)

Section Extraction.
Import Text Regex.

Example findall_demo :
  findall FetchConfigs.protocol_pattern
    "x VLESS://abc|ss://q<hy2://  shadowsocks://z'y" = ["VLESS"; "ss"; "shadowsocks"].
Proof. vm_compute. reflexivity. Qed.

Example whole_matches_demo :
  whole_matches_skip FetchConfigs.protocol_pattern 0
    "x VLESS://abc|ss://q<hy2://  shadowsocks://z'y"
  = ["VLESS://abc"; "ss://q"; "shadowsocks://z"].
Proof. vm_compute. reflexivity. Qed.

Lemma lit_ci_lower lit s m rest :
  lit_ci lit s = Some (m, rest) → lower m = lit.
Proof.
  revert s m rest. induction lit as [|a lit IH]; intros s m rest H; simpl in H.
  - by inversion H.
  - destruct s as [|b s]; [done|].
    destruct (decide (lower_char b = a)) as [Hb|]; [|done].
    destruct (lit_ci lit s) as [[m' rest']|] eqn:E; simpl in H; [|done].
    inversion H; subst. simpl. f_equal. eauto.
Qed.

Lemma match_alt_group s a m :
  match_alt s a = Some m → lower (group1 m) = a.
Proof.
  unfold match_alt. intros H.
  destruct (lit_ci a s) as [[g s1]|] eqn:E1; [|done].
  cbn [mbind option_bind] in H.
  destruct (lit_ci "://" s1) as [[sep s2]|] eqn:E2; [|done].
  cbn [mbind option_bind] in H.
  destruct (payload_run s2) as [p s3]. destruct (truthy p); [|done].
  inversion H; subst; simpl. by eapply lit_ci_lower.
Qed.

Lemma match_here_group schemes s m :
  match_here schemes s = Some m → lower (group1 m) ∈ schemes.
Proof.
  induction schemes as [|a schemes IH]; simpl; [done|].
  destruct (match_alt s a) as [m'|] eqn:E.
  - intros [= ->]. apply match_alt_group in E. rewrite E. by left.
  - intros H. right. by apply IH.
Qed.

Lemma findall_skip_groups schemes s skip :
  Forall (λ g, lower g ∈ schemes) (findall_skip schemes skip s).
Proof.
  revert skip. induction s as [|c s IH]; intros skip; simpl; [constructor|].
  destruct skip as [|k]; [|apply IH].
  destruct (match_here schemes (String c s)) as [m|] eqn:E; [|apply IH].
  constructor; [by eapply match_here_group | apply IH].
Qed.

End Extraction.

(** Whatever the validator and the text, every element of the extractor's
    result is, up to letter case, one of the alternatives of the group. *)
Lemma extract_yields_scheme_tokens validator text :
  Forall (λ x, Text.lower x ∈ FetchConfigs.protocol_pattern)
         (FetchConfigs.extract_configs_from_text validator text).
Proof.
  unfold FetchConfigs.extract_configs_from_text, Py.list_of_set, Regex.findall.
  apply Forall_forall. intros x Hx. rewrite elem_of_remove_dups in Hx.
  pose proof (findall_skip_groups FetchConfigs.protocol_pattern
                (FetchConfigs.scan_target validator text) 0) as H.
  rewrite Forall_forall in H. by apply H.
Qed.

(** C1.  The pattern given to [re.findall] has one capturing group, so the
    call returns what the group matched and not the matches.  On the text
    [vless://abc] the extractor returns the scheme token [vless], where the
    same scan collects the substring [vless://abc] when it keeps whole
    matches; the optimized fetcher calls [re.findall] in the same way.  For
    every validator and every text, the elements of the extractor's result
    are bare scheme tokens, up to letter case. *)
Theorem extract_configs_from_text_loses_payload :
  FetchConfigs.extract_configs_from_text Sample.validator "vless://abc" = ["vless"]
  ∧ Regex.whole_matches_skip FetchConfigs.protocol_pattern 0 "vless://abc" = ["vless://abc"]
  ∧ Regex.findall Config.protocol_pattern "vless://abc" = ["vless"]
  ∧ ∀ validator text,
      Forall (λ x, Text.lower x ∈ FetchConfigs.protocol_pattern)
             (FetchConfigs.extract_configs_from_text validator text).
Proof.
  split; [vm_compute; reflexivity|]. split; [vm_compute; reflexivity|].
  split; [vm_compute; reflexivity|]. apply extract_yields_scheme_tokens.
Qed.

(** ** Retries and backoff *)

Section Retry.
Import FetchConfigs.
Context (config : ProxyConfig) (get : nat → attempt).
Hypothesis delay_nonneg : (0 ≤ RETRY_DELAY config)%Z.

Lemma wait_time_nonneg (attempt : nat) :
  (Z.min (RETRY_DELAY config * 2 ^ Z.of_nat attempt) 30 <? 0)%Z = false.
Proof.
  apply Z.ltb_ge. apply Z.min_glb; [|lia].
  apply Z.mul_nonneg_nonneg; [done|]. apply Z.pow_nonneg. lia.
Qed.

(** [k] failed attempts in a row leave the loop [k] iterations further, with
    one wait recorded per failure. *)
Lemma retry_loop_fails k : ∀ remaining attempt slept,
  k ≤ remaining →
  (∀ j, attempt ≤ j < attempt + k → try_get (get j) = None) →
  retry_loop config get remaining attempt (2 ^ Z.of_nat attempt) slept
  = retry_loop config get (remaining - k) (attempt + k) (2 ^ Z.of_nat (attempt + k))
      (slept ++ (next_delay (RETRY_DELAY config) 30 <$> seq attempt k)).
Proof.
  induction k as [|k IH]; intros remaining attempt slept Hk Hfail.
  - rewrite Nat.sub_0_r, Nat.add_0_r. simpl. by rewrite app_nil_r.
  - destruct remaining as [|remaining]; [lia|].
    cbn [retry_loop]. rewrite (Hfail attempt) by lia.
    rewrite wait_time_nonneg.
    replace (2 ^ Z.of_nat attempt * 2)%Z with (2 ^ Z.of_nat (S attempt))%Z
      by (rewrite Nat2Z.inj_succ, Z.pow_succ_r; lia).
    rewrite IH; [|lia|intros j Hj; apply Hfail; lia].
    replace (S attempt + k) with (attempt + S k) by lia.
    replace (S remaining - S k) with (remaining - k) by lia.
    f_equal. rewrite <- app_assoc. f_equal. simpl. f_equal.
    unfold next_delay. apply Z.min_comm.
Qed.

(** The waits already recorded stay at the head of the final record. *)
Lemma retry_loop_waits_prefix remaining : ∀ attempt backoff slept,
  slept `prefix_of` waits (retry_loop config get remaining attempt backoff slept).
Proof.
  induction remaining as [|remaining IH]; intros attempt backoff slept; simpl; [done|].
  destruct (try_get (get attempt)); simpl; [done|].
  destruct (_ <? 0)%Z; simpl; [done|].
  etrans; [|apply IH]. by apply prefix_app_r.
Qed.

Lemma fetch_with_retry_success (k : nat) response :
  (Z.of_nat k < MAX_RETRIES config)%Z →
  (∀ j, j < k → try_get (get j) = None) →
  try_get (get k) = Some response →
  fetch_with_retry config get
  = {| returned := Py.Ok (Some response);
       waits := next_delay (RETRY_DELAY config) 30 <$> seq 0 k;
       issued := S k |}.
Proof.
  intros Hk Hfail Hok. unfold fetch_with_retry.
  change 1%Z with (2 ^ Z.of_nat 0)%Z.
  rewrite (retry_loop_fails k); [|lia|intros j Hj; apply Hfail; lia].
  destruct (Z.to_nat (MAX_RETRIES config) - k) as [|r] eqn:E; [lia|].
  simpl. by rewrite Hok.
Qed.

Lemma fetch_with_retry_exhausted :
  (∀ j, (Z.of_nat j < MAX_RETRIES config)%Z → try_get (get j) = None) →
  fetch_with_retry config get
  = {| returned := Py.Ok None;
       waits := next_delay (RETRY_DELAY config) 30 <$> seq 0 (Z.to_nat (MAX_RETRIES config));
       issued := Z.to_nat (MAX_RETRIES config) |}.
Proof.
  intros Hfail. unfold fetch_with_retry.
  change 1%Z with (2 ^ Z.of_nat 0)%Z.
  rewrite (retry_loop_fails (Z.to_nat (MAX_RETRIES config)));
    [|lia|intros j Hj; apply Hfail; lia].
  by rewrite Nat.sub_diag.
Qed.

Lemma fetch_with_retry_wait (i : nat) :
  (Z.of_nat i < MAX_RETRIES config)%Z →
  (∀ j, j ≤ i → try_get (get j) = None) →
  waits (fetch_with_retry config get) !! i = Some (next_delay (RETRY_DELAY config) 30 i).
Proof.
  intros Hi Hfail. unfold fetch_with_retry.
  change 1%Z with (2 ^ Z.of_nat 0)%Z.
  rewrite (retry_loop_fails (S i)); [|lia|intros j Hj; apply Hfail; lia].
  eapply prefix_lookup_Some; [|apply retry_loop_waits_prefix].
  rewrite app_nil_l, list_lookup_fmap, lookup_seq_lt by lia. done.
Qed.

End Retry.

(** What follows a failed attempt. *)
Section AfterFailure.
Import FetchConfigs.
Context (config : ProxyConfig) (get : nat → attempt).
Hypothesis delay_nonneg : (0 ≤ RETRY_DELAY config)%Z.

(** The loop never counts fewer GETs than it was entered with, and with an
    iteration left it issues one more. *)
Lemma retry_loop_issues remaining : ∀ attempt backoff slept,
  attempt ≤ issued (retry_loop config get remaining attempt backoff slept)
  ∧ (0 < remaining →
     attempt < issued (retry_loop config get remaining attempt backoff slept)).
Proof.
  induction remaining as [|remaining IH]; intros attempt backoff slept.
  - simpl. split; [done|lia].
  - cbn [retry_loop]. destruct (try_get (get attempt)); [simpl; lia|].
    destruct (_ <? 0)%Z; [simpl; lia|].
    destruct (IH (S attempt) (backoff * 2)%Z
                (slept ++ [Z.min (RETRY_DELAY config * backoff) 30])) as [H _].
    lia.
Qed.

Lemma fetch_with_retry_after_failure (i : nat) :
  (Z.of_nat i < MAX_RETRIES config)%Z →
  (∀ j, j ≤ i → try_get (get j) = None) →
  waits (fetch_with_retry config get) !! i = Some (next_delay (RETRY_DELAY config) 30 i)
  ∧ ((Z.of_nat i + 1 < MAX_RETRIES config)%Z →
     i + 2 ≤ issued (fetch_with_retry config get))
  ∧ ((Z.of_nat i + 1 = MAX_RETRIES config)%Z →
     returned (fetch_with_retry config get) = Py.Ok None
     ∧ issued (fetch_with_retry config get) = i + 1
     ∧ length (waits (fetch_with_retry config get)) = i + 1).
Proof.
  intros Hi Hfail. split; [by apply fetch_with_retry_wait|].
  unfold fetch_with_retry. change 1%Z with (2 ^ Z.of_nat 0)%Z.
  rewrite (retry_loop_fails config get delay_nonneg (S i));
    [|lia|intros j Hj; apply Hfail; lia].
  split.
  - intros Hmore.
    destruct (retry_loop_issues (Z.to_nat (MAX_RETRIES config) - S i) (0 + S i)
                (2 ^ Z.of_nat (0 + S i))%Z
                ([] ++ (next_delay (RETRY_DELAY config) 30 <$> seq 0 (S i)))) as [_ H].
    specialize (H ltac:(lia)). lia.
  - intros Hlast.
    replace (Z.to_nat (MAX_RETRIES config) - S i) with 0 by lia.
    cbn [retry_loop returned issued waits].
    split; [done|]. split; [lia|].
    rewrite app_nil_l, length_fmap, length_seq. lia.
Qed.

End AfterFailure.

(** C5, as stated, fails.  The claim puts no condition on the base delay.
    With [RETRY_DELAY = -1] and three permitted attempts, a source whose
    first two attempts fail and whose third succeeds meets the conditions
    of the claim with [k = 2]; yet [time.sleep] raises [ValueError] on the
    negative duration computed after the first failure, nothing catches it,
    and the fetch ends after one GET with no response. *)
Lemma retry_negative_delay_counterexample :
  let config := {| SUPPORTED_PROTOCOLS := []; is_protocol_enabled := λ _, Py.Ok true;
                   get_enabled_channels := []; MAX_RETRIES := 3; RETRY_DELAY := -1 |} in
  let get := Sample.flaky "ss://x" in
  (Z.of_nat 2 < MAX_RETRIES config)%Z
  ∧ (∀ j, j < 2 → FetchConfigs.try_get (get j) = None)
  ∧ FetchConfigs.try_get (get 2) = Some (200%Z, "ss://x")
  ∧ FetchConfigs.returned (FetchConfigs.fetch_with_retry config get) = Py.Raised
  ∧ FetchConfigs.issued (FetchConfigs.fetch_with_retry config get) = 1
  ∧ FetchConfigs.issued (FetchConfigs.fetch_with_retry config get) ≠ 2 + 1.
Proof.
  cbv zeta. split; [simpl; lia|]. split.
  - intros [|[|j]] Hj; [reflexivity|reflexivity|lia].
  - split; [reflexivity|]. split; [reflexivity|]. split; [reflexivity|].
    vm_compute. discriminate.
Qed.

(** C5, amended.  With a base delay that is not negative: when the first
    [k < MAX_RETRIES] attempts fail and attempt [k+1] succeeds,
    [fetch_with_retry] returns that response after exactly [k+1] GETs, and
    it has slept [nextDelay(0)], ..., [nextDelay(k-1)], where [nextDelay(i)]
    is [min(30, RETRY_DELAY * 2^i)], so the cumulative wait is their sum. *)
Theorem fetch_with_retry_succeeds_after_k_failures
    (config : ProxyConfig) (get : nat → attempt) (k : nat) response :
  (0 ≤ RETRY_DELAY config)%Z →
  (Z.of_nat k < MAX_RETRIES config)%Z →
  (∀ j, j < k → FetchConfigs.try_get (get j) = None) →
  FetchConfigs.try_get (get k) = Some response →
  let r := FetchConfigs.fetch_with_retry config get in
  FetchConfigs.returned r = Py.Ok (Some response)
  ∧ FetchConfigs.issued r = k + 1
  ∧ FetchConfigs.waits r = next_delay (RETRY_DELAY config) 30 <$> seq 0 k
  ∧ sum_Z (FetchConfigs.waits r)
    = sum_Z (next_delay (RETRY_DELAY config) 30 <$> seq 0 k).
Proof.
  intros Hd Hk Hfail Hok r. subst r.
  rewrite (fetch_with_retry_success config get Hd k response Hk Hfail Hok).
  simpl. repeat split; [f_equal; lia].
Qed.

Lemma fetch_with_retry_succeeds_after_k_failures_witness :
  (0 ≤ RETRY_DELAY Sample.config)%Z
  ∧ (Z.of_nat 2 < MAX_RETRIES Sample.config)%Z
  ∧ (∀ j, j < 2 → FetchConfigs.try_get (Sample.flaky "ss://x" j) = None)
  ∧ FetchConfigs.try_get (Sample.flaky "ss://x" 2) = Some (200%Z, "ss://x")
  ∧ (let r := FetchConfigs.fetch_with_retry Sample.config (Sample.flaky "ss://x") in
     FetchConfigs.returned r = Py.Ok (Some (200%Z, "ss://x"))
     ∧ FetchConfigs.issued r = 2 + 1
     ∧ FetchConfigs.waits r = next_delay (RETRY_DELAY Sample.config) 30 <$> seq 0 2
     ∧ sum_Z (FetchConfigs.waits r)
       = sum_Z (next_delay (RETRY_DELAY Sample.config) 30 <$> seq 0 2)).
Proof.
  assert (Hfail : ∀ j, j < 2 → FetchConfigs.try_get (Sample.flaky "ss://x" j) = None).
  { intros [|[|j]] Hj; [reflexivity|reflexivity|lia]. }
  split; [simpl; lia|]. split; [simpl; lia|]. split; [exact Hfail|].
  split; [reflexivity|].
  apply (fetch_with_retry_succeeds_after_k_failures Sample.config
           (Sample.flaky "ss://x") 2 (200%Z, "ss://x"));
    [simpl; lia | simpl; lia | exact Hfail | reflexivity].
Defined.

(** C4, as stated, fails: with three permitted attempts that all fail, the
    fetcher sleeps three times, the last time after the final attempt and
    just before it returns [None]. *)
Lemma backoff_trailing_wait_counterexample :
  let r := FetchConfigs.fetch_with_retry Sample.config Sample.down in
  FetchConfigs.returned r = Py.Ok None
  ∧ FetchConfigs.issued r = 3
  ∧ FetchConfigs.waits r = [5; 10; 20]%Z
  ∧ ¬ waits_only_between_attempts r.
Proof.
  vm_compute. repeat split. intros H. by repeat apply le_S_n in H; inversion H.
Qed.

(** [time.sleep] refuses a negative duration: with a negative base delay
    the first failed attempt ends the fetch with [ValueError].  A delay is a
    duration, and the properties here take it not negative. *)
Example fetch_with_retry_negative_delay :
  FetchConfigs.returned
    (FetchConfigs.fetch_with_retry
       {| SUPPORTED_PROTOCOLS := []; is_protocol_enabled := λ _, Py.Ok true;
          get_enabled_channels := []; MAX_RETRIES := 3; RETRY_DELAY := -1 |}
       Sample.down) = Py.Raised.
Proof. reflexivity. Qed.

(** C4, amended.  With a base delay [d] that is not negative and the cap
    fixed at 30, the wait after the failed attempt [i] is
    [min(30, d * 2^i)]; a wait follows every failed attempt, the final
    permitted one included: on exhaustion the fetcher has slept once per
    attempt before it returns [None]. *)
Theorem backoff_wait_after_each_failure (config : ProxyConfig) (get : nat → attempt) :
  (0 ≤ RETRY_DELAY config)%Z →
  (∀ i : nat,
     (Z.of_nat i < MAX_RETRIES config)%Z →
     (∀ j, j ≤ i → FetchConfigs.try_get (get j) = None) →
     FetchConfigs.waits (FetchConfigs.fetch_with_retry config get) !! i
     = Some (Z.min 30 (RETRY_DELAY config * 2 ^ Z.of_nat i)))
  ∧ ((∀ j : nat, (Z.of_nat j < MAX_RETRIES config)%Z → FetchConfigs.try_get (get j) = None) →
     let r := FetchConfigs.fetch_with_retry config get in
     FetchConfigs.returned r = Py.Ok None
     ∧ FetchConfigs.issued r = Z.to_nat (MAX_RETRIES config)
     ∧ length (FetchConfigs.waits r) = FetchConfigs.issued r).
Proof.
  intros Hd. split.
  - intros i Hi Hfail. by apply fetch_with_retry_wait.
  - intros Hfail r. subst r. rewrite fetch_with_retry_exhausted by done.
    simpl. by rewrite length_fmap, length_seq.
Qed.

Lemma backoff_wait_after_each_failure_witness :
  (0 ≤ RETRY_DELAY Sample.config)%Z
  ∧ (Z.of_nat 2 < MAX_RETRIES Sample.config)%Z
  ∧ (∀ j, j ≤ 2 → FetchConfigs.try_get (Sample.down j) = None)
  ∧ FetchConfigs.waits (FetchConfigs.fetch_with_retry Sample.config Sample.down) !! 2
    = Some (Z.min 30 (RETRY_DELAY Sample.config * 2 ^ Z.of_nat 2))
  ∧ (let r := FetchConfigs.fetch_with_retry Sample.config Sample.down in
     FetchConfigs.returned r = Py.Ok None
     ∧ FetchConfigs.issued r = Z.to_nat (MAX_RETRIES Sample.config)
     ∧ length (FetchConfigs.waits r) = FetchConfigs.issued r).
Proof.
  assert (Hd : (0 ≤ RETRY_DELAY Sample.config)%Z) by (simpl; lia).
  pose proof (backoff_wait_after_each_failure Sample.config Sample.down Hd) as [H1 H2].
  split; [exact Hd|]. split; [simpl; lia|]. split; [reflexivity|].
  split.
  - apply (H1 2); [simpl; lia | reflexivity].
  - apply H2. reflexivity.
Defined.

(** C9, as stated, fails on both fetchers: [fetch_with_retry] takes the
    status 304 for a success, and [fetch_from_channel] takes the status 204
    for a failure. *)
Lemma status_2xx_counterexample :
  (FetchConfigs.try_get (Response 304 "") = Some (304%Z, "") ∧ ¬ is_2xx 304)
  ∧ (Config.status_ok 204 = false ∧ is_2xx 204).
Proof. unfold is_2xx. repeat split; try done; lia. Qed.

(** C9, amended.  In [fetch_with_retry] an answered attempt fails exactly
    when its status is a client or server error, 400 to 599
    ([raise_for_status]); every 2xx status is a success, and so is every
    other status outside 400 to 599.  With a base delay that is not
    negative, a failed attempt [i] (the earlier attempts having failed, and
    [i < MAX_RETRIES]) is followed by the backoff wait
    [min(30, RETRY_DELAY * 2^i)]; another GET follows the wait only when
    fewer than [MAX_RETRIES] attempts have been made, and after the last
    permitted attempt the fetch returns failure with no retry.  In
    [fetch_from_channel] the one status that counts as success is 200; any
    other status ends the channel with no configs and no retry. *)
Theorem status_success_criterion (status_code : Z) (text : string) :
  (FetchConfigs.try_get (Response status_code text) = None
   ↔ (400 ≤ status_code < 600)%Z)
  ∧ (is_2xx status_code →
     FetchConfigs.try_get (Response status_code text) = Some (status_code, text))
  ∧ (∀ config get (i : nat),
       (0 ≤ RETRY_DELAY config)%Z → (Z.of_nat i < MAX_RETRIES config)%Z →
       (∀ j, j < i → FetchConfigs.try_get (get j) = None) →
       get i = Response status_code text → (400 ≤ status_code < 600)%Z →
       FetchConfigs.waits (FetchConfigs.fetch_with_retry config get) !! i
       = Some (next_delay (RETRY_DELAY config) 30 i)
       ∧ ((Z.of_nat i + 1 < MAX_RETRIES config)%Z →
          i + 2 ≤ FetchConfigs.issued (FetchConfigs.fetch_with_retry config get))
       ∧ ((Z.of_nat i + 1 = MAX_RETRIES config)%Z →
          FetchConfigs.returned (FetchConfigs.fetch_with_retry config get) = Py.Ok None
          ∧ FetchConfigs.issued (FetchConfigs.fetch_with_retry config get) = i + 1
          ∧ length (FetchConfigs.waits (FetchConfigs.fetch_with_retry config get))
            = i + 1))
  ∧ (Config.status_ok status_code = true ↔ status_code = 200%Z)
  ∧ (∀ config validator fresh_text net channel seen,
       net (url channel) 0 = Response status_code text →
       status_code ≠ 200%Z →
       Config.fetch_from_channel config validator fresh_text net channel seen = ([], seen)).
Proof.
  assert (Hget : FetchConfigs.try_get (Response status_code text) = None
                 ↔ (400 ≤ status_code < 600)%Z).
  { unfold FetchConfigs.try_get, raises_for_status.
    destruct (400 <=? status_code)%Z eqn:E1, (status_code <? 600)%Z eqn:E2; simpl;
      split; try done; lia. }
  split; [exact Hget|]. split; [|split; [|split]].
  - unfold is_2xx. intros H2xx. unfold FetchConfigs.try_get, raises_for_status.
    by rewrite (proj2 (Z.leb_gt 400 status_code)) by lia.
  - intros config get i Hd Hmax Hearlier Hgeti Herr.
    apply fetch_with_retry_after_failure; [done..|].
    intros j Hj. destruct (decide (j = i)) as [->|Hne].
    + rewrite Hgeti. by apply Hget.
    + apply Hearlier. lia.
  - unfold Config.status_ok. apply bool_decide_eq_true.
  - intros config validator fresh_text net channel seen Hnet Hne.
    unfold Config.fetch_from_channel. destruct (enabled channel); simpl; [|done].
    rewrite Hnet. unfold Config.status_ok. by rewrite bool_decide_eq_false_2.
Qed.

Lemma status_success_criterion_witness :
  (is_2xx 204
   ∧ FetchConfigs.try_get (Response 204 "ok") = Some (204%Z, "ok")
   ∧ Config.fetch_from_channel Sample.config Sample.validator id
       (λ _ _, Response 204 "ok")
       {| url := "u"; enabled := true; is_telegram := true |} ∅ = ([], ∅))
  ∧ ((400 ≤ 503 < 600)%Z
     ∧ FetchConfigs.waits
         (FetchConfigs.fetch_with_retry Sample.config (λ _, Response 503 "")) !! 0
       = Some (next_delay (RETRY_DELAY Sample.config) 30 0)
     ∧ 0 + 2 ≤ FetchConfigs.issued
                 (FetchConfigs.fetch_with_retry Sample.config (λ _, Response 503 "")))
  ∧ (FetchConfigs.waits
       (FetchConfigs.fetch_with_retry Sample.config (λ _, Response 503 "")) !! 2
     = Some (next_delay (RETRY_DELAY Sample.config) 30 2)
     ∧ FetchConfigs.returned
         (FetchConfigs.fetch_with_retry Sample.config (λ _, Response 503 "")) = Py.Ok None
     ∧ FetchConfigs.issued
         (FetchConfigs.fetch_with_retry Sample.config (λ _, Response 503 "")) = 2 + 1).
Proof.
  pose proof (status_success_criterion 204 "ok") as (_ & H2 & _ & _ & H5).
  pose proof (status_success_criterion 503 "") as (_ & _ & H3 & _).
  assert (H : is_2xx 204) by (unfold is_2xx; lia).
  assert (Hd : (0 ≤ RETRY_DELAY Sample.config)%Z) by (simpl; lia).
  split; [split; [exact H|split; [exact (H2 H)|]]|split; [split; [lia|]|]].
  - apply H5; [reflexivity | lia].
  - destruct (H3 Sample.config (λ _, Response 503 "") 0 Hd) as (Hw & Hretry & _);
      [simpl; lia | intros j Hj; lia | reflexivity | lia |].
    split; [exact Hw|]. apply Hretry. simpl. lia.
  - destruct (H3 Sample.config (λ _, Response 503 "") 2 Hd) as (Hw & _ & Hlast);
      [simpl; lia | intros j Hj; reflexivity | reflexivity | lia |].
    split; [exact Hw|]. destruct Hlast as (Hr & Hi & _); [simpl; lia|].
    split; [exact Hr|exact Hi].
Defined.

(** ** Lists *)

Section ListFacts.
Context {A : Type}.
Implicit Types (l : list A) (ls : list (list A)).

Lemma elem_of_concat x ls : x ∈ concat ls ↔ ∃ l, x ∈ l ∧ l ∈ ls.
Proof.
  induction ls as [|l' ls IH]; simpl.
  - split; [by intros ?%elem_of_nil|]. by intros (l & _ & ?%elem_of_nil).
  - rewrite elem_of_app, IH. split.
    + intros [H|(l & Hx & Hl)]; [exists l'; split; [done|by left]|].
      exists l. split; [done|by right].
    + intros (l & Hx & [->|Hl]%elem_of_cons); [by left|]. right. by exists l.
Qed.

Lemma filter_none (P : A → Prop) `{∀ x, Decision (P x)} l :
  (∀ x, x ∈ l → ¬ P x) → filter P l = [].
Proof.
  induction l as [|x l IH]; intros Hl; [done|].
  rewrite filter_cons_False; [|apply Hl; by left].
  apply IH. intros y Hy. apply Hl. by right.
Qed.

Lemma filter_all (P : A → Prop) `{∀ x, Decision (P x)} l :
  (∀ x, x ∈ l → P x) → filter P l = l.
Proof.
  induction l as [|x l IH]; intros Hl; [done|].
  rewrite filter_cons_True; [|apply Hl; by left].
  f_equal. apply IH. intros y Hy. apply Hl. by right.
Qed.

End ListFacts.

(** ** Prefixes of a sequence of buckets *)

Section Buckets.
Context {A K : Type} (cls : A → option K).
Implicit Types (bs : list (K * list A)) (out : list A).

Lemma filed_app bs1 bs2 : filed cls (bs1 ++ bs2) ↔ filed cls bs1 ∧ filed cls bs2.
Proof.
  unfold filed. split.
  - intros H. split; intros k l x Hk Hx; apply (H k l x); set_solver.
  - intros [H1 H2] k l x [Hk|Hk]%elem_of_app Hx; eauto.
Qed.

Lemma filed_concat bs x :
  filed cls bs → x ∈ concat bs.*2 → ∃ k, k ∈ bs.*1 ∧ cls x = Some k.
Proof.
  intros Hf (l & Hx & Hl)%elem_of_concat.
  apply list_elem_of_fmap in Hl as ([k l'] & -> & Hkl). simpl in Hx.
  exists k. split; [|by eapply Hf].
  apply list_elem_of_fmap. by exists (k, l').
Qed.

Lemma filed_not_class bs k x :
  filed cls bs → k ∉ bs.*1 → x ∈ concat bs.*2 → cls x ≠ Some k.
Proof.
  intros Hf Hk Hx Hc. destruct (filed_concat bs x Hf Hx) as (k' & Hk' & Hc').
  congruence.
Qed.

(** A prefix that holds a record of a later bucket holds every earlier
    bucket in full. *)
Lemma prefix_reaches_later_bucket bs1 ka la bs2 kb out b :
  filed cls (bs1 ++ (ka, la) :: bs2) →
  ka ≠ kb → kb ∉ bs1.*1 →
  out `prefix_of` concat (bs1 ++ (ka, la) :: bs2).*2 →
  b ∈ out → cls b = Some kb →
  ∃ rest, out = concat bs1.*2 ++ la ++ rest ∧ rest `prefix_of` concat bs2.*2.
Proof.
  intros [Hf1 Hf2]%filed_app Hne Hkb Hpre Hb Hcb.
  rewrite fmap_app, concat_app in Hpre. simpl in Hpre.
  assert (Hla : ∀ x, x ∈ la → cls x = Some ka).
  { intros x Hx. apply (Hf2 ka la x); [by left|done]. }
  destruct (prefix_weak_total out (concat bs1.*2 ++ la) _ Hpre) as [Hshort|Hlong].
  { rewrite app_assoc. by apply prefix_app_r. }
  - exfalso. destruct Hshort as [k Hk].
    assert (b ∈ concat bs1.*2 ++ la) as [HbX|Hbl]%elem_of_app
      by (rewrite Hk; apply elem_of_app; by left).
    + by apply (filed_not_class bs1 kb b Hf1 Hkb).
    + apply Hla in Hbl. congruence.
  - destruct Hlong as [rest ->]. exists rest. split; [by rewrite app_assoc|].
    destruct Hpre as [s Hs]. exists s.
    rewrite <- !app_assoc in Hs. by do 2 apply app_inv_head in Hs.
Qed.

(** The shape of such a prefix: the earlier buckets, free of both classes,
    then the bucket of [ka], then records of other classes than [ka]. *)
Lemma prefix_shape bs1 ka la bs2 kb out b :
  filed cls (bs1 ++ (ka, la) :: bs2) →
  ka ≠ kb → ka ∉ bs1.*1 → kb ∉ bs1.*1 → ka ∉ bs2.*1 →
  out `prefix_of` concat (bs1 ++ (ka, la) :: bs2).*2 →
  b ∈ out → cls b = Some kb →
  ∃ early rest, out = early ++ la ++ rest
    ∧ (∀ x, x ∈ early → cls x ≠ Some ka ∧ cls x ≠ Some kb)
    ∧ (∀ x, x ∈ la → cls x = Some ka)
    ∧ (∀ x, x ∈ rest → cls x ≠ Some ka).
Proof.
  intros Hf Hne Hka Hkb Hka2 Hpre Hb Hcb.
  destruct (prefix_reaches_later_bucket bs1 ka la bs2 kb out b Hf Hne Hkb Hpre)
    as (rest & -> & Hrest); [done..|].
  apply filed_app in Hf as [Hf1 Hf2].
  assert (Hf2' : filed cls bs2).
  { intros k l x Hk. apply Hf2. by right. }
  exists (concat bs1.*2), rest. split; [done|]. split; [|split].
  - intros x Hx. split; by apply (filed_not_class bs1).
  - intros x Hx. apply (Hf2 ka la x); [by left|done].
  - intros x Hx. apply (filed_not_class bs2 ka x); [done..|].
    destruct Hrest as [s ->]. apply elem_of_app. by left.
Qed.

Lemma prefix_order bs1 ka la bs2 kb out i j a b :
  filed cls (bs1 ++ (ka, la) :: bs2) →
  ka ≠ kb → ka ∉ bs1.*1 → kb ∉ bs1.*1 → ka ∉ bs2.*1 →
  out `prefix_of` concat (bs1 ++ (ka, la) :: bs2).*2 →
  out !! i = Some a → out !! j = Some b →
  cls a = Some ka → cls b = Some kb → i < j.
Proof.
  intros Hf Hne Hka Hkb Hka2 Hpre Hi Hj Hca Hcb.
  destruct (prefix_shape bs1 ka la bs2 kb out b)
    as (early & rest & -> & HX & HA & HR); [done..|by eapply list_elem_of_lookup_2|done|].
  apply lookup_app_Some in Hi as [Hi|[Hi1 Hi]].
  { exfalso. by destruct (HX a) as [? ?]; [by eapply list_elem_of_lookup_2|]. }
  apply lookup_app_Some in Hi as [Hi|[Hi2 Hi]]; last first.
  { exfalso. by eapply (HR a); [by eapply list_elem_of_lookup_2|]. }
  apply lookup_lt_Some in Hi.
  apply lookup_app_Some in Hj as [Hj|[Hj1 Hj]].
  { exfalso. by destruct (HX b) as [? ?]; [by eapply list_elem_of_lookup_2|]. }
  apply lookup_app_Some in Hj as [Hj|[Hj2 Hj]]; [|lia].
  exfalso. apply list_elem_of_lookup_2, HA in Hj. congruence.
Qed.

Lemma prefix_supply `{Hdec : ∀ x k, Decision (cls x = Some k)} bs1 ka la bs2 kb out b :
  filed cls (bs1 ++ (ka, la) :: bs2) →
  ka ≠ kb → ka ∉ bs1.*1 → kb ∉ bs1.*1 → ka ∉ bs2.*1 →
  out `prefix_of` concat (bs1 ++ (ka, la) :: bs2).*2 →
  b ∈ out → cls b = Some kb →
  filter (λ x, cls x = Some ka) out = la.
Proof.
  intros Hf Hne Hka Hkb Hka2 Hpre Hb Hcb.
  destruct (prefix_shape bs1 ka la bs2 kb out b)
    as (early & rest & -> & HX & HA & HR); [done..|].
  rewrite !filter_app.
  rewrite (filter_none _ early), (filter_none _ rest), (filter_all _ la);
    [by rewrite app_nil_r|done..|].
  intros x Hx. by apply HX.
Qed.

End Buckets.

(** ** [balance_protocols]: buckets, order and limit *)

Section Balance.
Import FetchConfigs.
Context (config : ProxyConfig).
Local Abbreviation prefixes := (λ p c : string, Text.startswith c p).
Local Abbreviation bucket configs := (λ p : string, filter (λ c, owner config c = Some p) configs).

Lemma first_key_Some test keys c p :
  first_key test keys c = Some p → p ∈ keys ∧ test p c = true.
Proof.
  induction keys as [|q keys IH]; simpl; [done|].
  destruct (test q c) eqn:E.
  - intros [= ->]. split; [by left|done].
  - intros [? ?]%IH. split; [by right|done].
Qed.

Lemma append_first_keys c m : (append_first c m).*1 = m.*1.
Proof.
  induction m as [|[q l] m IH]; simpl; [done|].
  destruct (Text.startswith c q); simpl; [done|]. f_equal. exact IH.
Qed.

Lemma append_first_get c m p :
  Py.dict_get (append_first c m) p []
  = Py.dict_get m p [] ++ (if decide (first_key prefixes m.*1 c = Some p) then [c] else []).
Proof.
  induction m as [|[q l] m IH]; simpl; [done|].
  destruct (Text.startswith c q) eqn:E; simpl.
  - destruct (decide (q = p)) as [->|Hne].
    + by rewrite decide_True.
    + rewrite decide_False by congruence. by rewrite app_nil_r.
  - destruct (decide (q = p)) as [->|Hne]; [|done].
    rewrite decide_False; [by rewrite app_nil_r|].
    intros [_ H]%first_key_Some. congruence.
Qed.

Lemma proto_map_get configs : ∀ m p,
  Py.dict_get (foldl (λ m c, append_first c m) m configs) p []
  = Py.dict_get m p [] ++ filter (λ c, first_key prefixes m.*1 c = Some p) configs.
Proof.
  induction configs as [|c configs IH]; intros m p; simpl.
  - by rewrite app_nil_r.
  - rewrite IH, append_first_get, append_first_keys, <- app_assoc. f_equal.
    rewrite filter_cons. by destruct (decide _).
Qed.

Lemma build_proto_map_get configs p :
  Py.dict_get (build_proto_map config configs) p [] = bucket configs p.
Proof.
  unfold build_proto_map. rewrite proto_map_get.
  assert (∀ items : list (string * protocol_info),
            Py.dict_get ((λ p, (p.1, [])) <$> items) p ([] : list string) = []) as ->.
  { induction items as [|[q i] items IH]; simpl; [done|]. by destruct (decide _). }
  simpl. unfold owner. by rewrite <- list_fmap_compose.
Qed.

(** Up to the limit, the [break] changes nothing: the first 150 records are
    those of all the buckets laid end to end. *)
Lemma collect_take sorted pm : ∀ final,
  take 150 (collect sorted pm final)
  = take 150 (final ++ concat ((λ x, Py.dict_get pm x.1 []) <$> sorted)).
Proof.
  induction sorted as [|[proto info] sorted IH]; intros final.
  - simpl. by rewrite app_nil_r.
  - cbn [collect]. rewrite fmap_cons. cbn [concat fst]. rewrite app_assoc.
    destruct (150 <=? length (final ++ Py.dict_get pm proto [])) eqn:E.
    + apply Nat.leb_le in E. symmetry. by apply take_app_le.
    + by rewrite IH.
Qed.

Lemma balance_protocols_buckets configs :
  balance_protocols config configs
  = take 150 (concat (bucket configs <$>
                        (sorted_by_priority (SUPPORTED_PROTOCOLS config)).*1)).
Proof.
  unfold balance_protocols. rewrite collect_take. simpl. f_equal. f_equal.
  rewrite <- list_fmap_compose. apply list_fmap_ext. intros i x _. simpl.
  apply build_proto_map_get.
Qed.

Lemma insert_sorted_perm x l : insert_sorted x l ≡ₚ x :: l.
Proof.
  induction l as [|y l IH]; simpl; [done|].
  destruct (_ <=? _)%Z; [done|]. rewrite IH. apply Permutation_swap.
Qed.

Lemma sorted_by_priority_perm items : sorted_by_priority items ≡ₚ items.
Proof.
  induction items as [|x items IH]; simpl; [done|].
  by rewrite insert_sorted_perm, IH.
Qed.

Local Abbreviation higher := (λ x y : string * protocol_info,
                      (get_priority y.2 ≤ get_priority x.2)%Z).

Lemma insert_sorted_sorted x l :
  StronglySorted higher l → StronglySorted higher (insert_sorted x l).
Proof.
  induction 1 as [|y l Hl IH Hy]; simpl.
  - repeat constructor.
  - destruct (_ <=? _)%Z eqn:E.
    + apply Z.leb_le in E. constructor; [by constructor|].
      constructor; [done|]. eapply Forall_impl; [exact Hy|]. simpl. intros; lia.
    + apply Z.leb_gt in E. constructor; [done|].
      rewrite insert_sorted_perm. constructor; [simpl; lia|done].
Qed.

Lemma sorted_by_priority_sorted items :
  StronglySorted higher (sorted_by_priority items).
Proof.
  induction items as [|x items IH]; simpl; [constructor|].
  by apply insert_sorted_sorted.
Qed.

(** A protocol of strictly higher priority comes first in the sorted
    items. *)
Lemma sorted_by_priority_split items a b :
  a ∈ items → b ∈ items → (get_priority b.2 < get_priority a.2)%Z →
  ∃ l1 l2, sorted_by_priority items = l1 ++ a :: l2 ∧ b ∈ l2.
Proof.
  intros Ha Hb Hlt.
  rewrite <- (sorted_by_priority_perm items) in Ha, Hb.
  pose proof (sorted_by_priority_sorted items) as Hs.
  apply list_elem_of_split in Ha as (l1 & l2 & E). rewrite E in *.
  exists l1, l2. split; [done|].
  apply elem_of_app in Hb as [Hb|Hb].
  - exfalso. apply (StronglySorted_app_1_elem_of _ _ _ b a) in Hs;
      [simpl in Hs; lia|done|by left].
  - apply elem_of_cons in Hb as [->|Hb]; [lia|done].
Qed.

Implicit Types (configs keys : list string).
Local Abbreviation keyed configs := (λ p : string, (p, bucket configs p)).

Lemma keyed_fst configs (keys : list string) : (keyed configs <$> keys).*1 = keys.
Proof. rewrite <- list_fmap_compose. apply list_fmap_id. Qed.

Lemma keyed_snd configs (keys : list string) :
  (keyed configs <$> keys).*2 = bucket configs <$> keys.
Proof. by rewrite <- list_fmap_compose. Qed.

Lemma keyed_filed configs keys : filed (owner config) (keyed configs <$> keys).
Proof.
  intros k l x (p & [= -> ->] & _)%list_elem_of_fmap Hx.
  by apply list_elem_of_filter in Hx as [? _].
Qed.

Lemma balance_protocols_prefix configs :
  balance_protocols config configs
  `prefix_of` concat (keyed configs <$>
                        (sorted_by_priority (SUPPORTED_PROTOCOLS config)).*1).*2.
Proof. rewrite balance_protocols_buckets, keyed_snd. apply prefix_take. Qed.

(** The sorted keys around a protocol of higher priority than another. *)
Lemma sorted_keys_split A iA B iB :
  wf_protocols config →
  (A, iA) ∈ SUPPORTED_PROTOCOLS config → (B, iB) ∈ SUPPORTED_PROTOCOLS config →
  (get_priority iB < get_priority iA)%Z →
  ∃ ks1 ks2, (sorted_by_priority (SUPPORTED_PROTOCOLS config)).*1 = ks1 ++ A :: ks2
    ∧ A ≠ B ∧ (A ∉ ks1) ∧ (B ∉ ks1) ∧ (A ∉ ks2).
Proof.
  intros Hwf HA HB Hlt.
  destruct (sorted_by_priority_split _ (A, iA) (B, iB) HA HB Hlt) as (l1 & l2 & E & HB2).
  exists (l1.*1), (l2.*1).
  assert (Hnd : NoDup (l1.*1 ++ A :: l2.*1)).
  { unfold wf_protocols in Hwf. rewrite <- (sorted_by_priority_perm _), E in Hwf.
    by rewrite fmap_app in Hwf. }
  split; [by rewrite E, fmap_app|].
  apply NoDup_app in Hnd as (_ & Hdisj & [HA2 _]%NoDup_cons).
  assert (HBk : B ∈ l2.*1) by (apply list_elem_of_fmap; by exists (B, iB)).
  split; [intros ->; done|]. split; [|split; [|done]].
  - intros H1. apply (Hdisj A H1). by left.
  - intros H1. apply (Hdisj B H1). by right.
Qed.

Lemma balance_protocols_order configs A iA B iB i j a b :
  wf_protocols config →
  (A, iA) ∈ SUPPORTED_PROTOCOLS config → (B, iB) ∈ SUPPORTED_PROTOCOLS config →
  (get_priority iB < get_priority iA)%Z →
  balance_protocols config configs !! i = Some a →
  balance_protocols config configs !! j = Some b →
  owner config a = Some A → owner config b = Some B → i < j.
Proof.
  intros Hwf HA HB Hlt Hi Hj Ha Hb.
  destruct (sorted_keys_split A iA B iB) as (ks1 & ks2 & E & Hne & HA1 & HB1 & HA2);
    [done..|].
  pose proof (balance_protocols_prefix configs) as Hpre.
  pose proof (keyed_filed configs (ks1 ++ A :: ks2)) as Hf.
  rewrite E in Hpre. rewrite fmap_app, fmap_cons in Hpre, Hf.
  eapply (prefix_order (owner config)); [exact Hf|..|exact Hpre|exact Hi|exact Hj|done|done];
    rewrite ?keyed_fst; done.
Qed.

Lemma balance_protocols_supply configs A iA B iB b :
  wf_protocols config →
  (A, iA) ∈ SUPPORTED_PROTOCOLS config → (B, iB) ∈ SUPPORTED_PROTOCOLS config →
  (get_priority iB < get_priority iA)%Z →
  b ∈ balance_protocols config configs → owner config b = Some B →
  filter (λ c, owner config c = Some A) (balance_protocols config configs)
  = filter (λ c, owner config c = Some A) configs.
Proof.
  intros Hwf HA HB Hlt Hin Hb.
  destruct (sorted_keys_split A iA B iB) as (ks1 & ks2 & E & Hne & HA1 & HB1 & HA2);
    [done..|].
  pose proof (balance_protocols_prefix configs) as Hpre.
  pose proof (keyed_filed configs (ks1 ++ A :: ks2)) as Hf.
  rewrite E in Hpre. rewrite fmap_app, fmap_cons in Hpre, Hf.
  apply (prefix_supply (owner config) (Hdec := λ x k, decide (owner config x = Some k))
           (keyed configs <$> ks1) A _ (keyed configs <$> ks2) B _ b);
    [exact Hf|..|exact Hpre|exact Hin|exact Hb]; rewrite ?keyed_fst; done.
Qed.

End Balance.

(** ** [rank_and_filter]: buckets, order and limit *)

Section Rank.
Import Config.
Implicit Types (configs sf : list string) (bs : list (string * list string)).

Lemma slice_to_prefix {A} (l : list A) k : Py.slice_to l k `prefix_of` l.
Proof. unfold Py.slice_to. destruct (0 <=? k)%Z; apply prefix_take. Qed.

(** What one pass of the inner loop appends: records ranked under [p], taken
    from [configs], new to the list, each once; and afterwards every record
    of [configs] ranked under [p] is in the list. *)
Lemma append_matching_spec p configs : ∀ sf,
  ∃ ext, append_matching p configs sf = sf ++ ext
    ∧ (∀ x, x ∈ ext → ranked_as p x = true ∧ x ∈ configs ∧ x ∉ sf)
    ∧ NoDup ext
    ∧ (∀ c, c ∈ configs → ranked_as p c = true → c ∈ sf ++ ext).
Proof.
  induction configs as [|c configs IH]; intros sf; simpl.
  - exists []. rewrite app_nil_r. split; [done|]. split; [by intros x ?%elem_of_nil|].
    split; [constructor|]. by intros c ?%elem_of_nil.
  - destruct (ranked_as p c && negb (bool_decide (c ∈ sf))) eqn:E.
    + apply andb_true_iff in E as [Hr Hn].
      apply negb_true_iff, bool_decide_eq_false in Hn.
      destruct (IH (sf ++ [c])) as (ext & -> & Hext & Hnd & Hcov).
      exists (c :: ext). rewrite <- app_assoc. split; [done|].
      split; [|split].
      * intros x [->|Hx]%elem_of_cons.
        { split; [done|]. split; [by left|done]. }
        destruct (Hext x Hx) as (? & ? & Hnot).
        split; [done|]. split; [by right|].
        intros ?. apply Hnot, elem_of_app. by left.
      * constructor; [|done]. intros Hc. destruct (Hext c Hc) as (_ & _ & Hnot).
        apply Hnot, elem_of_app. right. by left.
      * intros c' [->|Hc']%elem_of_cons Hr'.
        { apply elem_of_app. right. by left. }
        specialize (Hcov c' Hc' Hr'). by rewrite <- app_assoc in Hcov.
    + destruct (IH sf) as (ext & -> & Hext & Hnd & Hcov).
      exists ext. split; [done|]. split; [|split; [done|]].
      * intros x Hx. destruct (Hext x Hx) as (? & ? & ?).
        split; [done|]. split; [by right|done].
      * intros c' [->|Hc']%elem_of_cons Hr'; [|by apply Hcov].
        rewrite Hr' in E. simpl in E.
        apply negb_false_iff, bool_decide_eq_true in E.
        apply elem_of_app. by left.
Qed.

(** The loop over [priority]: its result is a prefix of the buckets of all
    the priorities laid end to end, and it is all of them when the loop ends
    below the limit. *)
Lemma rank_loop_spec configs limit ps : ∀ sf,
  ∃ bs, bs.*1 = ps
    ∧ rank_loop ps configs limit sf `prefix_of` sf ++ concat bs.*2
    ∧ sf `prefix_of` rank_loop ps configs limit sf
    ∧ ((Z.of_nat (length (rank_loop ps configs limit sf)) < limit)%Z →
       rank_loop ps configs limit sf = sf ++ concat bs.*2)
    ∧ (∀ p l x, (p, l) ∈ bs → x ∈ l → ranked_as p x = true ∧ x ∈ configs ∧ x ∉ sf)
    ∧ NoDup (concat bs.*2)
    ∧ (∀ p c, p ∈ ps → c ∈ configs → ranked_as p c = true → c ∈ sf ++ concat bs.*2).
Proof.
  induction ps as [|p ps IH]; intros sf.
  - exists []. simpl. rewrite app_nil_r.
    split; [done|]. split; [done|]. split; [done|]. split; [done|].
    split; [by intros q l x ?%elem_of_nil|]. split; [constructor|].
    by intros q c ?%elem_of_nil.
  - cbn [rank_loop].
    destruct (append_matching_spec p configs sf) as (ext & E & Hext & Hnd & Hcov).
    rewrite E.
    destruct (IH (sf ++ ext)) as (bs & Hkeys & Hpre & Hsf & Hfull & Hbs & Hnd' & Hcov').
    exists ((p, ext) :: bs). cbn [fmap list_fmap fst snd concat].
    assert (Hdisj : ∀ x, x ∈ ext → x ∉ concat bs.*2).
    { intros x Hx (l & Hl & Hin)%elem_of_concat.
      apply list_elem_of_fmap in Hin as ([q l'] & -> & Hq).
      destruct (Hbs q l' x Hq Hl) as (_ & _ & Hnot).
      apply Hnot, elem_of_app. by right. }
    split; [by rewrite <- Hkeys|].
    destruct (limit <=? Z.of_nat (length (sf ++ ext)))%Z eqn:El.
    + apply Z.leb_le in El. split; [|split; [|split; [|split; [|split]]]].
      * rewrite app_assoc. by apply prefix_app_r.
      * by apply prefix_app_r.
      * intros ?. lia.
      * intros q l x [[= -> ->]|Hq]%elem_of_cons Hx; [by apply Hext|].
        destruct (Hbs q l x Hq Hx) as (? & ? & Hnot).
        split; [done|]. split; [done|]. intros ?. apply Hnot, elem_of_app. by left.
      * apply NoDup_app. by split; [|split].
      * intros q c [->|Hq]%elem_of_cons Hc Hr.
        { rewrite app_assoc. apply elem_of_app. left. by apply Hcov. }
        rewrite app_assoc. by apply (Hcov' q).
    + split; [|split; [|split; [|split; [|split]]]].
      * by rewrite app_assoc.
      * etrans; [|exact Hsf]. by apply prefix_app_r.
      * intros Hlt. rewrite app_assoc. by apply Hfull.
      * intros q l x [[= -> ->]|Hq]%elem_of_cons Hx; [by apply Hext|].
        destruct (Hbs q l x Hq Hx) as (? & ? & Hnot).
        split; [done|]. split; [done|]. intros ?. apply Hnot, elem_of_app. by left.
      * apply NoDup_app. by split; [|split].
      * intros q c [->|Hq]%elem_of_cons Hc Hr.
        { rewrite app_assoc. apply elem_of_app. left. by apply Hcov. }
        rewrite app_assoc. by apply (Hcov' q).
Qed.

(** No record is ranked under two entries of [priority]. *)
Lemma ranked_as_exclusive p q c :
  p ∈ priority → q ∈ priority →
  ranked_as p c = true → ranked_as q c = true → p = q.
Proof.
  unfold priority. intros Hp Hq.
  repeat (apply elem_of_cons in Hp as [->|Hp]); [..|by apply elem_of_nil in Hp];
    repeat (apply elem_of_cons in Hq as [->|Hq]); try done;
    try (by apply elem_of_nil in Hq);
    unfold ranked_as; destruct c as [|a [|b c]]; simpl; try done;
    repeat (case_decide; simpl; try done); congruence.
Qed.

Lemma first_key_unique test keys c p :
  p ∈ keys → test p c = true →
  (∀ q, q ∈ keys → test q c = true → q = p) →
  first_key test keys c = Some p.
Proof.
  induction keys as [|k keys IH]; intros Hp Ht Hu; [by apply elem_of_nil in Hp|].
  simpl. destruct (test k c) eqn:E.
  - f_equal. apply Hu; [by left|done].
  - apply elem_of_cons in Hp as [->|Hp]; [congruence|].
    apply IH; [done..|]. intros q Hq. apply Hu. by right.
Qed.

Lemma rank_of_ranked_as p c :
  p ∈ priority → ranked_as p c = true → rank_of c = Some p.
Proof.
  intros Hp Hr. apply first_key_unique; [done..|].
  intros q Hq Hr'. by apply (ranked_as_exclusive q p c).
Qed.

Lemma before_split {K} (ks : list K) (A B : K) :
  NoDup ks → before ks A B →
  ∃ ks1 ks2, ks = ks1 ++ A :: ks2 ∧ A ≠ B ∧ (A ∉ ks1) ∧ (B ∉ ks1) ∧ (A ∉ ks2).
Proof.
  intros Hnd (i & j & Hi & Hj & Hlt).
  exists (take i ks), (drop (S i) ks).
  pose proof (take_drop_middle ks i A Hi) as E.
  rewrite <- E in Hnd.
  apply NoDup_app in Hnd as (_ & Hdisj & [HA2 _]%NoDup_cons).
  assert (HB : B ∈ drop (S i) ks).
  { apply (list_elem_of_lookup_2 _ (j - S i)). rewrite lookup_drop.
    by replace (S i + (j - S i)) with j by lia. }
  split; [done|]. split; [by intros ->|]. split; [|split; [|done]].
  - intros H1. apply (Hdisj A H1). by left.
  - intros H1. apply (Hdisj B H1). by right.
Qed.

(** The buckets of [rank_and_filter], with the class of every record. *)
Lemma rank_and_filter_buckets configs limit :
  ∃ bs, bs.*1 = priority
    ∧ filed rank_of bs
    ∧ rank_and_filter configs limit `prefix_of` concat bs.*2
    ∧ ((Z.of_nat (length (concat bs.*2)) < limit)%Z →
       rank_and_filter configs limit = concat bs.*2)
    ∧ NoDup (concat bs.*2)
    ∧ (∀ x, x ∈ concat bs.*2 ↔ x ∈ configs ∧ is_Some (rank_of x)).
Proof.
  destruct (rank_loop_spec configs limit priority [])
    as (bs & Hkeys & Hpre & _ & Hfull & Hbs & Hnd & Hcov).
  simpl in Hpre, Hfull, Hcov.
  assert (Hfiled : filed rank_of bs).
  { intros p l x Hp Hx. destruct (Hbs p l x Hp Hx) as (Hr & _ & _).
    apply rank_of_ranked_as; [|done]. rewrite <- Hkeys.
    apply list_elem_of_fmap. by exists (p, l). }
  exists bs. split; [done|]. split; [done|]. split; [|split; [|split; [done|]]].
  - unfold rank_and_filter. etrans; [apply slice_to_prefix|done].
  - intros Hlt. unfold rank_and_filter.
    assert (E : rank_loop priority configs limit [] = concat bs.*2).
    { apply Hfull. apply prefix_length in Hpre. lia. }
    rewrite E. unfold Py.slice_to.
    destruct (0 <=? limit)%Z eqn:E0; [|apply Z.leb_gt in E0; lia].
    apply take_ge. lia.
  - intros x. split.
    + intros Hx. destruct (filed_concat rank_of bs x Hfiled Hx) as (k & _ & Hk).
      apply elem_of_concat in Hx as (l & Hl & Hin).
      apply list_elem_of_fmap in Hin as ([q l'] & -> & Hq).
      destruct (Hbs q l' x Hq Hl) as (_ & ? & _). split; [done|]. by exists k.
    + intros [Hx [k Hk]]. apply first_key_Some in Hk as [Hk Hr]. by apply (Hcov k).
Qed.

Lemma buckets_split bs ks1 A ks2 :
  bs.*1 = ks1 ++ A :: ks2 →
  ∃ bs1 la bs2, bs = bs1 ++ (A, la) :: bs2 ∧ bs1.*1 = ks1 ∧ bs2.*1 = ks2.
Proof.
  intros (bs1 & bs' & -> & E & ->)%fmap_app_inv. symmetry in E.
  apply fmap_cons_inv in E as ([A' la] & bs2 & -> & -> & ->).
  by exists bs1, la, bs2.
Qed.

Lemma priority_NoDup : NoDup priority.
Proof. apply (bool_decide_unpack _). vm_compute. exact I. Qed.

Lemma rank_and_filter_order configs limit A B i j a b :
  before priority A B →
  rank_and_filter configs limit !! i = Some a →
  rank_and_filter configs limit !! j = Some b →
  rank_of a = Some A → rank_of b = Some B → i < j.
Proof.
  intros Hbefore Hi Hj Ha Hb.
  destruct (before_split priority A B priority_NoDup Hbefore)
    as (ks1 & ks2 & E & Hne & HA1 & HB1 & HA2).
  destruct (rank_and_filter_buckets configs limit) as (bs & Hkeys & Hf & Hpre & _).
  rewrite E in Hkeys.
  destruct (buckets_split bs ks1 A ks2 Hkeys) as (bs1 & la & bs2 & -> & <- & <-).
  by eapply (prefix_order rank_of bs1 A la bs2 B).
Qed.

Lemma rank_and_filter_supply configs limit A B a b :
  before priority A B →
  b ∈ rank_and_filter configs limit → rank_of b = Some B →
  a ∈ configs → rank_of a = Some A →
  a ∈ rank_and_filter configs limit.
Proof.
  intros Hbefore Hin Hb Ha HcA.
  destruct (before_split priority A B priority_NoDup Hbefore)
    as (ks1 & ks2 & E & Hne & HA1 & HB1 & HA2).
  destruct (rank_and_filter_buckets configs limit)
    as (bs & Hkeys & Hf & Hpre & _ & _ & Hmem).
  rewrite E in Hkeys.
  destruct (buckets_split bs ks1 A ks2 Hkeys) as (bs1 & la & bs2 & -> & <- & <-).
  destruct (prefix_shape rank_of bs1 A la bs2 B _ b Hf Hne HA1 HB1 HA2 Hpre Hin Hb)
    as (early & rest & -> & _ & _ & _).
  assert (Hall : a ∈ concat (bs1 ++ (A, la) :: bs2).*2) by (apply Hmem; eauto).
  rewrite fmap_app, concat_app in Hall. simpl in Hall.
  apply filed_app in Hf as [Hf1 Hf2].
  apply elem_of_app in Hall as [H1|H2].
  { by destruct (filed_not_class rank_of bs1 A a Hf1 HA1 H1). }
  apply elem_of_app in H2 as [H2|H2].
  { apply elem_of_app. right. apply elem_of_app. by left. }
  exfalso. apply (filed_not_class rank_of bs2 A a); [|done..].
  intros k l x Hk. apply Hf2. by right.
Qed.

Lemma rank_and_filter_NoDup configs limit : NoDup (rank_and_filter configs limit).
Proof.
  destruct (rank_and_filter_buckets configs limit) as (bs & _ & _ & Hpre & _ & Hnd & _).
  destruct Hpre as [k Hk]. rewrite Hk in Hnd. by apply NoDup_app in Hnd as [? _].
Qed.

End Rank.

(** ** The buckets of a list are the list, reordered *)

Section Partition.
Context {A K : Type} `{EqDecision K} (cls : A → option K).
Implicit Types (l : list A) (ks : list K).

Local Abbreviation part l := (λ k : K, filter (λ c, cls c = Some k) l).

Lemma concat_empty_parts ks : concat (part [] <$> ks) = [].
Proof. induction ks as [|k ks IH]; [done|]. by rewrite fmap_cons. Qed.

Lemma part_cons_other l ks c :
  (∀ k, k ∈ ks → cls c ≠ Some k) → part (c :: l) <$> ks = part l <$> ks.
Proof.
  intros Hc. apply list_fmap_ext. intros i k Hk. simpl.
  apply filter_cons_False, Hc. by eapply list_elem_of_lookup_2.
Qed.

Lemma buckets_permutation ks l :
  NoDup ks → (∀ c k, c ∈ l → cls c = Some k → k ∈ ks) →
  concat (part l <$> ks) ≡ₚ filter (λ c, is_Some (cls c)) l.
Proof.
  intros Hnd. induction l as [|c l IH]; intros Hks.
  - by rewrite concat_empty_parts.
  - assert (IH' : concat (part l <$> ks) ≡ₚ filter (λ c, is_Some (cls c)) l).
    { apply IH. intros c' k Hc'. apply Hks. by right. }
    destruct (cls c) as [k0|] eqn:E.
    + assert (Hk0 : k0 ∈ ks) by (apply (Hks c); [by left|done]).
      apply list_elem_of_split in Hk0 as (ks1 & ks2 & ->).
      apply NoDup_app in Hnd as (_ & Hdisj & [H2 _]%NoDup_cons).
      rewrite filter_cons_True by (by rewrite E).
      rewrite <- IH'. rewrite !fmap_app, !fmap_cons, !concat_app. cbn [concat].
      rewrite !part_cons_other.
      * rewrite (filter_cons_True _ c l) by done.
        simpl. by rewrite <- Permutation_middle.
      * intros k Hk. rewrite E. intros [= ->]. done.
      * intros k Hk. rewrite E. intros [= ->]. apply (Hdisj k Hk). by left.
    + rewrite filter_cons_False by (rewrite E; by intros [? ?]).
      rewrite part_cons_other; [done|]. intros k _. by rewrite E.
Qed.

End Partition.

Section BalanceLimit.
Import FetchConfigs.
Context (config : ProxyConfig).
Implicit Types (configs : list string).

Lemma sorted_keys_NoDup :
  wf_protocols config → NoDup (sorted_by_priority (SUPPORTED_PROTOCOLS config)).*1.
Proof. unfold wf_protocols. by rewrite sorted_by_priority_perm. Qed.

Lemma owner_in_sorted_keys c k :
  owner config c = Some k → k ∈ (sorted_by_priority (SUPPORTED_PROTOCOLS config)).*1.
Proof.
  intros [Hk _]%first_key_Some. by rewrite sorted_by_priority_perm.
Qed.

(** All the buckets, in priority order, are the filed records reordered. *)
Lemma balance_buckets_permutation configs :
  wf_protocols config →
  concat ((λ p, filter (λ c, owner config c = Some p) configs)
            <$> (sorted_by_priority (SUPPORTED_PROTOCOLS config)).*1)
  ≡ₚ filter (λ c, is_Some (owner config c)) configs.
Proof.
  intros Hwf. apply (buckets_permutation (owner config)).
  - by apply sorted_keys_NoDup.
  - intros c k _. apply owner_in_sorted_keys.
Qed.

Lemma balance_protocols_length configs :
  length (balance_protocols config configs) ≤ 150.
Proof. rewrite balance_protocols_buckets, length_take. lia. Qed.

Lemma balance_protocols_all configs :
  wf_protocols config →
  length (filter (λ c, is_Some (owner config c)) configs) < 150 →
  balance_protocols config configs ≡ₚ filter (λ c, is_Some (owner config c)) configs.
Proof.
  intros Hwf Hlt. rewrite balance_protocols_buckets.
  rewrite take_ge; [by apply balance_buckets_permutation|].
  rewrite (balance_buckets_permutation configs Hwf). lia.
Qed.

Lemma balance_protocols_NoDup configs :
  wf_protocols config → NoDup configs → NoDup (balance_protocols config configs).
Proof.
  intros Hwf Hnd. rewrite balance_protocols_buckets.
  eapply sublist_NoDup; [|apply sublist_take].
  rewrite (balance_buckets_permutation configs Hwf). by apply NoDup_filter.
Qed.

End BalanceLimit.

Section RankLimit.
Import Config.
Implicit Types (configs : list string).

Lemma rank_and_filter_length configs limit :
  (0 ≤ limit)%Z → (Z.of_nat (length (rank_and_filter configs limit)) ≤ limit)%Z.
Proof.
  intros Hl. unfold rank_and_filter, Py.slice_to.
  rewrite (proj2 (Z.leb_le 0 limit)) by done. rewrite length_take. lia.
Qed.

Lemma rank_and_filter_all configs limit :
  (Z.of_nat (length (filter (λ c, is_Some (rank_of c)) configs)) < limit)%Z →
  rank_and_filter configs limit
  ≡ₚ remove_dups (filter (λ c, is_Some (rank_of c)) configs).
Proof.
  intros Hlt.
  destruct (rank_and_filter_buckets configs limit)
    as (bs & _ & _ & _ & Hfull & Hnd & Hmem).
  assert (Hsub : ∀ x, x ∈ concat bs.*2 → x ∈ filter (λ c, is_Some (rank_of c)) configs).
  { intros x [? ?]%Hmem. by apply list_elem_of_filter. }
  rewrite Hfull.
  - apply NoDup_Permutation; [done|apply NoDup_remove_dups|].
    intros x. rewrite elem_of_remove_dups, list_elem_of_filter, Hmem. tauto.
  - pose proof (submseteq_length _ _ (NoDup_submseteq _ _ Hnd Hsub)). lia.
Qed.

End RankLimit.

(** ** The selector *)

(** Example A of the specification: with 80 vless, 100 trojan and 50 ss
    records and the limit 150, both selectors return the 80 vless records
    and then the first 70 trojan records. *)
Example selection_example_A :
  let merged_A := Sample.supply "ss://" 50 ++ Sample.supply "trojan://" 100
                  ++ Sample.supply "vless://" 80 in
  FetchConfigs.balance_protocols Sample.config merged_A
  = Sample.supply "vless://" 80 ++ Sample.supply "trojan://" 70
  ∧ Config.rank_and_filter merged_A 150
    = Sample.supply "vless://" 80 ++ Sample.supply "trojan://" 70.
Proof. vm_compute. split; reflexivity. Qed.

(** C2.  In the output of either selector, every record of a protocol of
    strictly higher priority stands before every record of a protocol of
    lower priority, and a record of the lower protocol is in the output only
    if all the records of the higher protocol are.  For [balance_protocols]
    the priority is the one the registry gives and a record belongs to the
    first registry key that prefixes it; for [rank_and_filter] the priority
    is the position in its list [priority]. *)
Theorem selector_priority_order :
  (∀ config configs A iA B iB,
     wf_protocols config →
     (A, iA) ∈ SUPPORTED_PROTOCOLS config → (B, iB) ∈ SUPPORTED_PROTOCOLS config →
     (get_priority iB < get_priority iA)%Z →
     let out := FetchConfigs.balance_protocols config configs in
     (∀ i j a b, out !! i = Some a → out !! j = Some b →
        owner config a = Some A → owner config b = Some B → i < j)
     ∧ (∀ b, b ∈ out → owner config b = Some B →
        filter (λ c, owner config c = Some A) out
        = filter (λ c, owner config c = Some A) configs))
  ∧ (∀ configs limit A B,
     before Config.priority A B →
     let out := Config.rank_and_filter configs limit in
     (∀ i j a b, out !! i = Some a → out !! j = Some b →
        rank_of a = Some A → rank_of b = Some B → i < j)
     ∧ (∀ a b, b ∈ out → rank_of b = Some B →
        a ∈ configs → rank_of a = Some A → a ∈ out)).
Proof.
  split.
  - intros config configs A iA B iB Hwf HA HB Hlt out. subst out. split.
    + intros i j a b. by apply (balance_protocols_order config configs A iA B iB).
    + intros b. by apply (balance_protocols_supply config configs A iA B iB).
  - intros configs limit A B Hbefore out. subst out. split.
    + intros i j a b. by apply (rank_and_filter_order configs limit A B).
    + intros a b. by apply (rank_and_filter_supply configs limit A B).
Qed.

Lemma sample_wf : wf_protocols Sample.config.
Proof. apply (bool_decide_unpack _). vm_compute. exact I. Defined.

Lemma selector_priority_order_witness :
  (let out := FetchConfigs.balance_protocols Sample.config Sample.merged in
   out = ["vless://a@h:1"; "vless://d@h:4"; "hysteria2://e@h:5"; "trojan://b@h:2";
          "ss://c@h:3"]
   ∧ 1 < 4
   ∧ filter (λ c, owner Sample.config c = Some "vless://") out
     = filter (λ c, owner Sample.config c = Some "vless://") Sample.merged)
  ∧ (let out := Config.rank_and_filter Sample.merged 3 in
     out = ["vless://a@h:1"; "vless://d@h:4"; "trojan://b@h:2"]
     ∧ 1 < 2
     ∧ "vless://a@h:1" ∈ out).
Proof.
  pose proof selector_priority_order as [Hb Hr].
  split.
  - specialize (Hb Sample.config Sample.merged
      "vless://" {| info_aliases := Some []; info_priority := Some 3%Z |}
      "ss://" {| info_aliases := None; info_priority := Some 1%Z |}
      sample_wf).
    destruct Hb as [Ho Hs].
    + vm_compute. right. left.
    + vm_compute. left.
    + vm_compute. reflexivity.
    + split; [reflexivity|]. split.
      * apply (Ho 1 4 "vless://d@h:4" "ss://c@h:3"); reflexivity.
      * apply (Hs "ss://c@h:3"); [|reflexivity].
        vm_compute. do 4 right. left.
  - specialize (Hr Sample.merged 3%Z "vless://" "trojan://").
    destruct Hr as [Ho Hs].
    + exists 0, 1. split; [reflexivity|]. split; [reflexivity|lia].
    + split; [reflexivity|]. split.
      * apply (Ho 1 2 "vless://d@h:4" "trojan://b@h:2"); reflexivity.
      * apply (Hs "vless://a@h:1" "trojan://b@h:2"); try reflexivity.
        -- vm_compute. do 2 right. left.
        -- vm_compute. do 2 right. left.
Defined.

(** Python's slice with a negative bound drops records from the end; a
    limit is a count, and the properties below take it not negative. *)
Example rank_and_filter_negative_limit :
  Config.rank_and_filter ["vless://a"; "vless://b"] (-1) = ["vless://a"].
Proof. vm_compute. reflexivity. Qed.

(** C7, as stated, fails.  A merged record with a scheme outside the
    selector's protocols is dropped although the limit is far away: the
    optimized fetcher extracts and accepts [tuic://] configs but ranks none,
    and [balance_protocols] files only under the registry keys. *)
Lemma selection_limit_counterexample :
  length ["tuic://x@h:1"] < 150
  ∧ Config.rank_and_filter ["tuic://x@h:1"] 150 = []
  ∧ FetchConfigs.balance_protocols Sample.config ["tuic://x@h:1"] = []
  ∧ ¬ ("tuic://x@h:1" ∈ Config.rank_and_filter ["tuic://x@h:1"] 150).
Proof.
  vm_compute. split; [lia|]. split; [done|]. split; [done|]. by intros ?%elem_of_nil.
Qed.

(** C7, amended.  The output of [balance_protocols] has at most 150
    records; the output of [rank_and_filter], and so of [get_all], has at
    most [limit] records, the limit being a count and so not negative.  When fewer records than the limit are
    filed under one of the selector's protocols, the output holds exactly
    those records: all of them, reordered, for [balance_protocols], and each
    distinct one once for [rank_and_filter]. *)
Theorem selection_within_limit :
  (∀ config configs,
     length (FetchConfigs.balance_protocols config configs) ≤ 150
     ∧ (wf_protocols config →
        length (filter (λ c, is_Some (owner config c)) configs) < 150 →
        FetchConfigs.balance_protocols config configs
        ≡ₚ filter (λ c, is_Some (owner config c)) configs))
  ∧ (∀ configs limit,
       (0 ≤ limit)%Z →
       (Z.of_nat (length (Config.rank_and_filter configs limit)) ≤ limit)%Z
       ∧ ((Z.of_nat (length (filter (λ c, is_Some (rank_of c)) configs)) < limit)%Z →
          Config.rank_and_filter configs limit
          ≡ₚ remove_dups (filter (λ c, is_Some (rank_of c)) configs)))
  ∧ (∀ config validator settings fresh_text net,
       (0 ≤ SPECIFIC_CONFIG_COUNT settings)%Z →
       (Z.of_nat (length (Config.get_all config validator settings fresh_text net))
        ≤ if USE_MAXIMUM_POWER settings then 150 else SPECIFIC_CONFIG_COUNT settings)%Z).
Proof.
  split; [|split].
  - intros config configs. split; [apply balance_protocols_length|].
    apply balance_protocols_all.
  - intros configs limit Hl. split; [by apply rank_and_filter_length|].
    apply rank_and_filter_all.
  - intros config validator settings fresh_text net Hl. unfold Config.get_all.
    destruct (Config.map_channels _ _ _ _ _ _) as [results seen].
    destruct (USE_MAXIMUM_POWER settings); simpl; by apply rank_and_filter_length.
Qed.

Lemma selection_within_limit_witness :
  (length (filter (λ c, is_Some (owner Sample.config c)) Sample.merged) < 150
   ∧ FetchConfigs.balance_protocols Sample.config Sample.merged
     ≡ₚ filter (λ c, is_Some (owner Sample.config c)) Sample.merged)
  ∧ ((0 ≤ 3)%Z
     ∧ (Z.of_nat (length (Config.rank_and_filter Sample.merged 3)) ≤ 3)%Z)
  ∧ ((Z.of_nat (length (filter (λ c, is_Some (rank_of c)) Sample.merged)) < 9)%Z
     ∧ Config.rank_and_filter Sample.merged 9
       ≡ₚ remove_dups (filter (λ c, is_Some (rank_of c)) Sample.merged))
  ∧ ((0 ≤ SPECIFIC_CONFIG_COUNT Sample.settings)%Z
     ∧ (Z.of_nat (length (Config.get_all Sample.config Sample.validator Sample.settings
                            id Sample.net)) ≤ 2)%Z).
Proof.
  pose proof selection_within_limit as (Hb & Hr & Hg).
  assert (H1 : length (filter (λ c, is_Some (owner Sample.config c)) Sample.merged) < 150)
    by (vm_compute; lia).
  assert (H3 : (Z.of_nat (length (filter (λ c, is_Some (rank_of c)) Sample.merged)) < 9)%Z)
    by (vm_compute; reflexivity).
  split; [split; [exact H1|]|split; [split; [lia|]|split; split]].
  - exact (proj2 (Hb Sample.config Sample.merged) sample_wf H1).
  - apply (Hr Sample.merged 3%Z). lia.
  - exact H3.
  - apply (Hr Sample.merged 9%Z); [lia|exact H3].
  - simpl. lia.
  - apply (Hg Sample.config Sample.validator Sample.settings id Sample.net). simpl. lia.
Defined.

(** ** The set of seen configs *)

Section Dedup.
Import FetchConfigs.
Context (config : ProxyConfig) (validator : ConfigValidator).
Context (message_text : string → string).
Implicit Types (seen : gset string) (configs prev : list string).

(** A config that [process_single_config] returns is not in the set. *)
Lemma match_protocols_fresh seen protocols : ∀ config_ p,
  match_protocols config validator protocols seen config_ = Py.Ok (Some p) → p ∉ seen.
Proof.
  induction protocols as [|[protocol info] protocols IH]; intros config_ p; [done|].
  cbn [match_protocols].
  destruct (existsb _ (protocol :: get_aliases info)); [|by apply IH].
  unfold mbind, exc_mbind.
  destruct (is_protocol_enabled config protocol) as [[|]|]; cbn [Py.bind negb]; try done.
  destruct (if decide (protocol = "vmess://") then _ else _) as [config'|];
    cbn [Py.bind]; [|done].
  destruct (clean_config validator config') as [clean|]; cbn [Py.bind]; [|done].
  destruct (validate_protocol_config validator clean protocol) as [valid|];
    cbn [Py.bind]; [|done].
  destruct (valid && negb (bool_decide (clean ∈ seen))) eqn:E; [|by apply IH].
  intros [= <-]. apply andb_true_iff in E as [_ E].
  by apply negb_true_iff, bool_decide_eq_false in E.
Qed.

Lemma process_single_config_fresh seen raw p :
  process_single_config config validator seen raw = Some p → p ∉ seen.
Proof.
  unfold process_single_config.
  unfold mbind, exc_mbind.
  destruct (if Text.startswith _ _ then _ else _) as [config_|]; cbn [Py.bind]; [|done].
  destruct (match_protocols _ _ _ _ _) as [r|] eqn:E; simpl; [|done].
  intros ->. by eapply match_protocols_fresh.
Qed.

(** An iteration either leaves both the list and the set as they are, or
    appends a fresh config to the list and adds that config to the set. *)
Lemma accept_step_cases configs seen raw :
  accept_step config validator (configs, seen) raw = (configs, seen)
  ∨ ∃ p, process_single_config config validator seen raw = Some p
       ∧ (p ∉ seen)
       ∧ accept_step config validator (configs, seen) raw
         = (configs ++ [p], {[p]} ∪ seen).
Proof.
  unfold accept_step.
  destruct (process_single_config config validator seen raw) as [p|] eqn:E; [|by left].
  destruct (Text.truthy p); [|by left].
  right. exists p. split; [done|]. split; [by eapply process_single_config_fresh|done].
Qed.

Lemma accept_step_inv seen0 prev st raw :
  run_inv seen0 prev st → run_inv seen0 prev (accept_step config validator st raw).
Proof.
  destruct st as [configs seen]. intros Hinv.
  destruct (accept_step_cases configs seen raw) as [->|(p & _ & Hp & ->)]; [done|].
  destruct Hinv as (Hnd & Hseen & Hnew). simpl in Hnd, Hseen, Hnew.
  unfold run_inv. simpl. rewrite app_assoc. subst seen. split; [|split].
  - apply NoDup_app. split; [done|]. split; [|apply NoDup_singleton].
    intros x Hx ->%list_elem_of_singleton. apply Hp.
    apply elem_of_union. left. by apply elem_of_list_to_set.
  - rewrite list_to_set_app_L. simpl. set_solver.
  - intros x [Hx| ->%list_elem_of_singleton]%elem_of_app; [by apply Hnew|].
    intros ?. apply Hp. apply elem_of_union. by right.
Qed.

Lemma accept_loop_inv seen0 prev raw_found : ∀ st,
  run_inv seen0 prev st → run_inv seen0 prev (accept_loop config validator raw_found st).
Proof.
  induction raw_found as [|raw raw_found IH]; intros st Hst; [done|].
  simpl. by apply IH, accept_step_inv.
Qed.

Lemma fetch_configs_from_source_inv seen0 prev net channel seen configs seen' :
  run_inv seen0 prev ([], seen) →
  fetch_configs_from_source config validator message_text net channel seen
  = Py.Ok (configs, seen') →
  run_inv seen0 prev (configs, seen').
Proof.
  intros Hinv. unfold fetch_configs_from_source.
  destruct (enabled channel); simpl; [|by intros [= <- <-]].
  destruct (returned _) as [[[status text]|]|]; simpl; [| |done].
  - intros [= E]. rewrite <- E. by apply accept_loop_inv.
  - by intros [= <- <-].
Qed.

Lemma map_sources_inv seen0 net channels : ∀ prev seen results seen',
  run_inv seen0 prev ([], seen) →
  map_sources config validator message_text net channels seen = Py.Ok (results, seen') →
  run_inv seen0 prev (concat results, seen').
Proof.
  induction channels as [|channel channels IH]; intros prev seen results seen' Hinv; simpl.
  - by intros [= <- <-].
  - destruct (fetch_configs_from_source _ _ _ _ _ _) as [[configs seen1]|] eqn:E1;
      simpl; [|done].
    destruct (map_sources _ _ _ _ _ _) as [[results' seen2]|] eqn:E2; simpl; [|done].
    intros [= <- <-].
    pose proof (fetch_configs_from_source_inv _ _ _ _ _ _ _ Hinv E1) as H1.
    assert (H1' : run_inv seen0 (prev ++ configs) ([], seen1)).
    { unfold run_inv in *. simpl in *. by rewrite app_nil_r. }
    pose proof (IH _ _ _ _ H1' E2) as H2.
    unfold run_inv in *. simpl in *. by rewrite <- app_assoc in H2.
Qed.

Lemma run_inv_start : run_inv ∅ [] ([], ∅).
Proof.
  unfold run_inv. simpl. split; [constructor|]. split; [set_solver|].
  by intros x ?%elem_of_nil.
Qed.

Lemma map_sources_NoDup net results seen' :
  map_sources config validator message_text net (get_enabled_channels config) ∅
  = Py.Ok (results, seen') →
  NoDup (concat results) ∧ seen' = list_to_set (concat results).
Proof.
  intros E. destruct (map_sources_inv ∅ _ _ _ _ _ _ run_inv_start E) as (H1 & H2 & _).
  simpl in *. split; [done|]. rewrite H2. set_solver.
Qed.

Lemma fetch_all_configs_NoDup net out :
  fetch_all_configs config validator message_text net = Py.Ok out → NoDup out.
Proof.
  unfold fetch_all_configs.
  destruct (map_sources _ _ _ _ _ _) as [[results seen']|] eqn:E; simpl; [|done].
  destruct (concat results) eqn:Ec; [|done]. intros [= <-]. constructor.
Qed.

End Dedup.

Section DedupOptimized.
Import Config.
Context (config : ProxyConfig) (validator : ConfigValidator).
Context (fresh_text : string → string).
Implicit Types (seen : gset string) (configs prev : list string).

Lemma found_loop_inv seen0 prev found : ∀ configs seen,
  run_inv seen0 prev (configs, seen) →
  run_inv seen0 prev (found_loop config validator found configs seen).
Proof.
  induction found as [|raw found IH]; intros configs seen Hinv; [done|].
  cbn [found_loop].
  destruct (clean_config validator (Text.strip raw)) as [clean|]; [|done].
  destruct (is_protocol_enabled config (proto_of clean)) as [on|]; [|done].
  destruct (on && negb (bool_decide (clean ∈ seen))) eqn:E; [|by apply IH].
  apply andb_true_iff in E as [_ E].
  apply negb_true_iff, bool_decide_eq_false in E.
  apply IH. destruct Hinv as (Hnd & Hseen & Hnew). simpl in Hnd, Hseen, Hnew.
  unfold run_inv. simpl. rewrite app_assoc. subst seen. split; [|split].
  - apply NoDup_app. split; [done|]. split; [|apply NoDup_singleton].
    intros x Hx ->%list_elem_of_singleton. apply E.
    apply elem_of_union. left. by apply elem_of_list_to_set.
  - rewrite list_to_set_app_L. simpl. set_solver.
  - intros x [Hx| ->%list_elem_of_singleton]%elem_of_app; [by apply Hnew|].
    intros ?. apply E. apply elem_of_union. by right.
Qed.

Lemma fetch_from_channel_inv seen0 prev net channel seen :
  run_inv seen0 prev ([], seen) →
  run_inv seen0 prev (fetch_from_channel config validator fresh_text net channel seen).
Proof.
  intros Hinv. unfold fetch_from_channel.
  destruct (enabled channel); simpl; [|done].
  destruct (net (url channel) 0) as [status text|]; [|done].
  destruct (status_ok status); simpl; [|done].
  by apply found_loop_inv.
Qed.

Lemma map_channels_inv seen0 net channels : ∀ prev seen,
  run_inv seen0 prev ([], seen) →
  run_inv seen0 prev
    (concat (map_channels config validator fresh_text net channels seen).1,
     (map_channels config validator fresh_text net channels seen).2).
Proof.
  induction channels as [|channel channels IH]; intros prev seen Hinv; [done|].
  cbn [map_channels].
  pose proof (fetch_from_channel_inv seen0 prev net channel seen Hinv) as H1.
  destruct (fetch_from_channel _ _ _ _ _ _) as [configs seen1].
  assert (H1' : run_inv seen0 (prev ++ configs) ([], seen1)).
  { unfold run_inv in *. simpl in *. by rewrite app_nil_r. }
  pose proof (IH _ _ H1') as H2.
  destruct (map_channels _ _ _ _ _ _) as [results seen2].
  unfold run_inv in *. simpl in *. by rewrite <- app_assoc in H2.
Qed.

Lemma map_channels_NoDup net :
  NoDup (concat (map_channels config validator fresh_text net
                   (get_enabled_channels config) ∅).1).
Proof.
  by destruct (map_channels_inv ∅ net (get_enabled_channels config) [] ∅ run_inv_start)
    as (H1 & _).
Qed.

End DedupOptimized.

(** C3.  In a run that takes the channels one after the other, the configs
    accepted by all the channels together are pairwise distinct, in both
    fetchers.  The selectors keep it so: [balance_protocols] returns
    distinct configs when it is given distinct ones (the registry being a
    dictionary, with one entry per key), and the outputs of
    [fetch_all_configs] and of [get_all] hold no config twice. *)
Theorem sequential_run_has_no_duplicates :
  (∀ config validator message_text net results seen,
     FetchConfigs.map_sources config validator message_text net
       (get_enabled_channels config) ∅ = Py.Ok (results, seen) →
     NoDup (concat results)
     ∧ (wf_protocols config →
        NoDup (FetchConfigs.balance_protocols config (concat results))))
  ∧ (∀ config validator message_text net out,
       FetchConfigs.fetch_all_configs config validator message_text net = Py.Ok out →
       NoDup out)
  ∧ (∀ config validator fresh_text net,
       NoDup (concat (Config.map_channels config validator fresh_text net
                        (get_enabled_channels config) ∅).1))
  ∧ (∀ config validator settings fresh_text net,
       NoDup (Config.get_all config validator settings fresh_text net)).
Proof.
  split; [|split; [|split]].
  - intros config validator message_text net results seen E.
    apply map_sources_NoDup in E as [Hnd _]. split; [done|].
    intros Hwf. by apply balance_protocols_NoDup.
  - intros config validator message_text net out. apply fetch_all_configs_NoDup.
  - intros config validator fresh_text net. apply map_channels_NoDup.
  - intros config validator settings fresh_text net. unfold Config.get_all.
    destruct (Config.map_channels _ _ _ _ _ _) as [results seen].
    apply rank_and_filter_NoDup.
Qed.

Lemma bare_wf : wf_protocols Sample.bare_config.
Proof. apply (bool_decide_unpack _). vm_compute. exact I. Defined.

Lemma sequential_run_has_no_duplicates_witness :
  (FetchConfigs.map_sources Sample.bare_config Sample.validator id Sample.net
     Sample.channels ∅
   = Py.Ok ([["trojan"; "vless"]; ["ss"]; []], list_to_set ["trojan"; "vless"; "ss"])
   ∧ NoDup (concat [["trojan"; "vless"]; ["ss"]; []])
   ∧ NoDup (FetchConfigs.balance_protocols Sample.bare_config
              (concat [["trojan"; "vless"]; ["ss"]; []])))
  ∧ (FetchConfigs.fetch_all_configs Sample.config Sample.validator id Sample.net
     = Py.Ok []
     ∧ NoDup ([] : list string)).
Proof.
  pose proof sequential_run_has_no_duplicates as (H1 & H2 & _).
  assert (E1 : FetchConfigs.map_sources Sample.bare_config Sample.validator id Sample.net
                 (get_enabled_channels Sample.bare_config) ∅
               = Py.Ok ([["trojan"; "vless"]; ["ss"]; []],
                        list_to_set ["trojan"; "vless"; "ss"]))
    by (vm_compute; reflexivity).
  assert (E2 : FetchConfigs.fetch_all_configs Sample.config Sample.validator id
                 Sample.net = Py.Ok [])
    by (vm_compute; reflexivity).
  split; (split; [done|]).
  - destruct (H1 _ _ _ _ _ _ E1) as [Ha Hb]. split; [exact Ha|exact (Hb bare_wf)].
  - exact (H2 _ _ _ _ _ E2).
Defined.

(** C10.  When [process_single_config] returns [None], whatever the reason,
    the iteration of [fetch_configs_from_source] leaves the set of seen
    configs and the channel's list as they were.  The set changes only in
    an iteration that appends the returned config to the list, and what is
    added is that config; after the loop the set is the old set and the
    configs of the list. *)
Theorem seen_configs_unchanged_on_drop :
  (∀ config validator configs seen raw,
     FetchConfigs.process_single_config config validator seen raw = None →
     FetchConfigs.accept_step config validator (configs, seen) raw = (configs, seen))
  ∧ (∀ config validator configs (seen : gset string) raw configs' seen',
       FetchConfigs.accept_step config validator (configs, seen) raw = (configs', seen') →
       seen' ≠ seen →
       ∃ p, FetchConfigs.process_single_config config validator seen raw = Some p
         ∧ configs' = configs ++ [p] ∧ seen' = {[p]} ∪ seen)
  ∧ (∀ config validator raw_found (seen : gset string),
       (FetchConfigs.accept_loop config validator raw_found ([], seen)).2
       = list_to_set (FetchConfigs.accept_loop config validator raw_found ([], seen)).1
         ∪ seen).
Proof.
  split; [|split].
  - intros config validator configs seen raw E.
    unfold FetchConfigs.accept_step. by rewrite E.
  - intros config validator configs seen raw configs' seen' E Hne.
    destruct (accept_step_cases config validator configs seen raw)
      as [E'|(p & Hp & _ & E')]; rewrite E' in E.
    + by injection E as <- <-.
    + injection E as <- <-. by exists p.
  - intros config validator raw_found seen.
    assert (H0 : run_inv ∅ [] (([] : list string), (∅ : gset string))) by apply run_inv_start.
    destruct (FetchConfigs.accept_loop config validator raw_found ([], seen))
      as [configs seen'] eqn:E. simpl.
    revert configs seen' E.
    assert (Hgen : ∀ raws configs0 (seen0 : gset string) configs1 seen1,
              FetchConfigs.accept_loop config validator raws (configs0, seen0)
              = (configs1, seen1) →
              ∃ new, configs1 = configs0 ++ new ∧ seen1 = list_to_set new ∪ seen0).
    { unfold FetchConfigs.accept_loop.
      induction raws as [|raw raws IH]; intros configs0 seen0 configs1 seen1; cbn [foldl].
      - intros [= <- <-]. exists []. rewrite app_nil_r. split; [done|set_solver].
      - destruct (accept_step_cases config validator configs0 seen0 raw)
          as [->|(p & _ & _ & ->)].
        + apply IH.
        + intros (new & -> & ->)%IH. exists (p :: new).
          rewrite <- app_assoc. split; [done|]. simpl. set_solver. }
    intros configs seen' E. by destruct (Hgen _ _ _ _ _ E) as (new & -> & ->).
Qed.

Lemma seen_configs_unchanged_on_drop_witness :
  (* a duplicate *)
  (FetchConfigs.process_single_config Sample.config Sample.validator
     {["vless://a@h:1"]} "vless://a@h:1" = None
   ∧ FetchConfigs.accept_step Sample.config Sample.validator
       (["vless://a@h:1"], {["vless://a@h:1"]}) "vless://a@h:1"
     = (["vless://a@h:1"], {["vless://a@h:1"]}))
  (* an exception in the validator *)
  ∧ (FetchConfigs.process_single_config Sample.config Sample.raising_validator
       ∅ "vless://a@h:1" = None
     ∧ FetchConfigs.accept_step Sample.config Sample.raising_validator
         ([], ∅) "vless://a@h:1" = ([], ∅))
  (* an accepted config *)
  ∧ (FetchConfigs.accept_step Sample.config Sample.validator ([], ∅) "vless://a@h:1"
     = (["vless://a@h:1"], {["vless://a@h:1"]})
     ∧ ∃ p, FetchConfigs.process_single_config Sample.config Sample.validator ∅
              "vless://a@h:1" = Some p
         ∧ ["vless://a@h:1"] = [] ++ [p] ∧ ({["vless://a@h:1"]} : gset string) = {[p]} ∪ ∅).
Proof.
  pose proof seen_configs_unchanged_on_drop as (H1 & H2 & _).
  assert (E1 : FetchConfigs.process_single_config Sample.config Sample.validator
                 {["vless://a@h:1"]} "vless://a@h:1" = None) by (vm_compute; reflexivity).
  assert (E2 : FetchConfigs.process_single_config Sample.config Sample.raising_validator
                 ∅ "vless://a@h:1" = None) by (vm_compute; reflexivity).
  assert (E3 : FetchConfigs.accept_step Sample.config Sample.validator ([], ∅)
                 "vless://a@h:1" = (["vless://a@h:1"], {["vless://a@h:1"]}))
    by (vm_compute; reflexivity).
  split; [split; [exact E1|exact (H1 _ _ _ _ _ E1)]|].
  split; [split; [exact E2|exact (H1 _ _ _ _ _ E2)]|].
  split; [exact E3|].
  apply (H2 _ _ _ _ _ _ _ E3).
  intros Heq. assert (Hin : "vless://a@h:1" ∈ ({["vless://a@h:1"]} : gset string))
    by (by apply elem_of_singleton).
  rewrite Heq in Hin. by apply not_elem_of_empty in Hin.
Defined.

(** ** The alias [hy2://] *)

(** [String.append] is not unfolded by [simpl]; these two equations and the
    tactic spell a literal prefix out, character by character. *)
Lemma append_cons c s t : String c s +:+ t = String c (s +:+ t).
Proof. reflexivity. Qed.

Lemma append_nil t : EmptyString +:+ t = t.
Proof. reflexivity. Qed.


Section Alias.
Import Text.






End Alias.

Section AliasOptimized.
Import Text Config.





End AliasOptimized.

(** ** Tasks that share the set of seen configs *)

Section Pool.
Import Threads.
Implicit Types (p : pool) (t : task) (seen : gset string).

Lemma concat_insert_snoc {A} (ls : list (list A)) i a c :
  ls !! i = Some a → concat (<[i := a ++ [c]]> ls) ≡ₚ c :: concat ls.
Proof.
  intros Hi. rewrite insert_take_drop by (by eapply lookup_lt_Some).
  rewrite <- (take_drop_middle ls i a Hi) at 3.
  rewrite !concat_app. simpl. rewrite <- !app_assoc. simpl.
  rewrite (Permutation_middle (concat (take i ls))).
  apply Permutation_app_head. by rewrite <- Permutation_middle.
Qed.

Lemma NoDup_concat_lookup {A} (ls : list (list A)) : ∀ i j a b c,
  NoDup (concat ls) → ls !! i = Some a → ls !! j = Some b →
  c ∈ a → c ∈ b → i = j.
Proof.
  induction ls as [|l ls IH]; intros i j a b c Hnd Hi Hj Ha Hb; [done|].
  simpl in Hnd. apply NoDup_app in Hnd as (_ & Hdisj & Hnd).
  destruct i as [|i], j as [|j]; simpl in Hi, Hj.
  - done.
  - injection Hi as ->. exfalso. apply (Hdisj c Ha).
    apply elem_of_concat. exists b. split; [done|by eapply list_elem_of_lookup_2].
  - injection Hj as ->. exfalso. apply (Hdisj c Hb).
    apply elem_of_concat. exists a. split; [done|by eapply list_elem_of_lookup_2].
  - f_equal. by eapply IH.
Qed.

Lemma step_outside p i : tasks p !! i = None → step p i = p.
Proof. intros H. unfold step. by rewrite H. Qed.

Lemma step_inside p i t :
  tasks p !! i = Some t →
  step p i = {| seen_configs := (step_task (seen_configs p) t).1;
                tasks := <[i := (step_task (seen_configs p) t).2]> (tasks p) |}.
Proof. intros H. unfold step. rewrite H. by destruct (step_task _ _). Qed.

Lemma step_task_idle seen t :
  passed t = None →
  step_task seen t
  = match pending t with
    | [] => (seen, t)
    | c :: more =>
        if bool_decide (c ∈ seen)
        then (seen, {| pending := more; passed := None; accepted := accepted t |})
        else (seen, {| pending := more; passed := Some c; accepted := accepted t |})
    end.
Proof. intros H. unfold step_task. by rewrite H. Qed.

(** What an atomic step does to a pool in which no test is pending. *)
Lemma atomic_step_cases p i :
  (∀ t, t ∈ tasks p → passed t = None) →
  atomic_step p i = p
  ∨ (∃ t c more, tasks p !! i = Some t ∧ pending t = c :: more
       ∧ c ∈ seen_configs p
       ∧ atomic_step p i
         = {| seen_configs := seen_configs p;
              tasks := <[i := {| pending := more; passed := None;
                                 accepted := accepted t |}]> (tasks p) |})
  ∨ (∃ t c more, tasks p !! i = Some t ∧ pending t = c :: more
       ∧ (c ∉ seen_configs p)
       ∧ atomic_step p i
         = {| seen_configs := {[c]} ∪ seen_configs p;
              tasks := <[i := {| pending := more; passed := None;
                                 accepted := accepted t ++ [c] |}]> (tasks p) |}).
Proof.
  intros Hidle. unfold atomic_step.
  destruct (tasks p !! i) as [t|] eqn:Ht; last first.
  { left. rewrite step_outside by done. by rewrite Ht. }
  assert (Hlt : i < length (tasks p)) by (by eapply lookup_lt_Some).
  assert (Hpassed : passed t = None) by (by eapply Hidle, list_elem_of_lookup_2).
  rewrite (step_inside p i t Ht), (step_task_idle _ t Hpassed).
  destruct (pending t) as [|c more] eqn:Hpend.
  - left. cbn [fst snd tasks seen_configs]. rewrite (list_insert_id _ _ _ Ht), Ht.
    destruct t as [? ? ?]. simpl in Hpassed. subst. by destruct p.
  - destruct (bool_decide (c ∈ seen_configs p)) eqn:Hc.
    + apply bool_decide_eq_true in Hc. right. left. exists t, c, more.
      split; [done|]. split; [done|]. split; [done|].
      cbn [fst snd tasks seen_configs]. by rewrite list_lookup_insert_eq by done.
    + apply bool_decide_eq_false in Hc. right. right. exists t, c, more.
      split; [done|]. split; [done|]. split; [done|].
      cbn [fst snd tasks seen_configs]. rewrite list_lookup_insert_eq by done.
      cbn [passed]. erewrite step_inside
        by (cbn [tasks]; by apply list_lookup_insert_eq).
      cbn [step_task passed pending accepted fst snd tasks seen_configs].
      by rewrite list_insert_insert_eq.
Qed.

Lemma idle_insert (ts : list task) i t' :
  (∀ t, t ∈ ts → passed t = None) → passed t' = None →
  ∀ t, t ∈ <[i := t']> ts → passed t = None.
Proof.
  intros Hidle Ht' t (j & Hj)%list_elem_of_lookup.
  apply list_lookup_insert_Some in Hj as [(-> & -> & _)|[_ Hj]]; [done|].
  by eapply Hidle, list_elem_of_lookup_2.
Qed.

Lemma atomic_step_inv p i : pool_inv p → pool_inv (atomic_step p i).
Proof.
  intros (Hidle & Hnd & Hseen).
  destruct (atomic_step_cases p i Hidle)
    as [->|[(t & c & more & Ht & Hpend & Hc & ->)|(t & c & more & Ht & Hpend & Hc & ->)]].
  - done.
  - assert (E : accepted <$> <[i := {| pending := more; passed := None;
                                        accepted := accepted t |}]> (tasks p)
                = accepted <$> tasks p).
    { rewrite list_fmap_insert. apply list_insert_id.
      by rewrite list_lookup_fmap, Ht. }
    unfold pool_inv, all_accepted in *. cbn [tasks seen_configs]. rewrite E.
    split; [by apply idle_insert|done].
  - assert (E : concat (accepted <$> <[i := {| pending := more; passed := None;
                                                accepted := accepted t ++ [c] |}]> (tasks p))
                ≡ₚ c :: concat (accepted <$> tasks p)).
    { rewrite list_fmap_insert. apply concat_insert_snoc.
      by rewrite list_lookup_fmap, Ht. }
    unfold pool_inv, all_accepted in *. cbn [tasks seen_configs].
    split; [by apply idle_insert|]. split.
    + rewrite E. constructor; [|done]. intros Hin. by apply Hc, Hseen.
    + intros x Hx. rewrite E in Hx. apply elem_of_union.
      apply elem_of_cons in Hx as [->|Hx]; [left; by apply elem_of_singleton|].
      right. by apply Hseen.
Qed.

Lemma run_atomic_inv schedule : ∀ p, pool_inv p → pool_inv (run_atomic schedule p).
Proof.
  induction schedule as [|i schedule IH]; intros p Hp; [done|].
  simpl. by apply IH, atomic_step_inv.
Qed.

Lemma start_inv candidates : pool_inv (start candidates).
Proof.
  unfold pool_inv, all_accepted, start. cbn [tasks seen_configs].
  assert (E : concat (accepted <$> ((λ l, {| pending := l; passed := None;
                                            accepted := [] |}) <$> candidates)) = []).
  { induction candidates as [|l ls IH]; [done|]. by rewrite !fmap_cons. }
  rewrite E. split; [|split; [constructor|by intros x ?%elem_of_nil]].
  by intros t (l & -> & _)%list_elem_of_fmap.
Qed.

(** An atomic step is one or two ordinary steps of the same task, so every
    atomic schedule is one of the schedules of [run]. *)
Lemma atomic_step_as_steps p i :
  atomic_step p i = run [i] p ∨ atomic_step p i = run [i; i] p.
Proof.
  unfold atomic_step, run. simpl.
  destruct (tasks (step p i) !! i) as [[? [?|] ?]|]; auto.
Qed.

Lemma run_app s1 s2 p : run (s1 ++ s2) p = run s2 (run s1 p).
Proof. apply foldl_app. Qed.

Lemma run_atomic_as_run schedule : ∀ p, ∃ steps, run_atomic schedule p = run steps p.
Proof.
  induction schedule as [|i schedule IH]; intros p; [by exists []|].
  simpl. destruct (IH (atomic_step p i)) as (steps & ->).
  destruct (atomic_step_as_steps p i) as [->| ->].
  - exists ([i] ++ steps). by rewrite run_app.
  - exists ([i; i] ++ steps). by rewrite run_app.
Qed.

End Pool.

(** C8, as stated, fails.  Two channel tasks see the same config; each tests
    the set before the other has added to it, and both accept the config. *)
Lemma check_then_add_counterexample :
  Threads.all_accepted
    (Threads.run [0; 1; 0; 1] (Threads.start [["vless://a@h:1"]; ["vless://a@h:1"]]))
  = ["vless://a@h:1"; "vless://a@h:1"]
  ∧ ¬ accepted_by_at_most_one
        (Threads.run [0; 1; 0; 1] (Threads.start [["vless://a@h:1"]; ["vless://a@h:1"]]))
        "vless://a@h:1".
Proof.
  split; [vm_compute; reflexivity|].
  intros H.
  specialize (H 0 1 {| Threads.pending := []; Threads.passed := None;
                       Threads.accepted := ["vless://a@h:1"] |}
                {| Threads.pending := []; Threads.passed := None;
                   Threads.accepted := ["vless://a@h:1"] |}).
  assert (0 = 1) as [=]. apply H; try (vm_compute; reflexivity); by left.
Qed.

(** C8, amended.  The membership test and the add are separate steps and
    nothing makes them atomic.  When every task's test of a config and its
    add are scheduled with no step of another task in between, whatever the
    order of the tasks otherwise, the accepted configs are pairwise distinct
    and each is accepted by at most one channel. *)
Theorem atomic_check_and_add_accepts_once (candidates : list (list string))
    (schedule : list nat) (c : string) :
  (∃ steps, Threads.run_atomic schedule (Threads.start candidates)
            = Threads.run steps (Threads.start candidates))
  ∧ NoDup (Threads.all_accepted (Threads.run_atomic schedule (Threads.start candidates)))
  ∧ accepted_by_at_most_one (Threads.run_atomic schedule (Threads.start candidates)) c.
Proof.
  split; [apply run_atomic_as_run|].
  destruct (run_atomic_inv schedule _ (start_inv candidates)) as (_ & Hnd & _).
  split; [done|]. intros i j ti tj Hi Hj Hci Hcj.
  apply (NoDup_concat_lookup _ i j (Threads.accepted ti) (Threads.accepted tj) c Hnd);
    [| |done..].
  - by rewrite list_lookup_fmap, Hi.
  - by rewrite list_lookup_fmap, Hj.
Qed.

Lemma atomic_check_and_add_accepts_once_witness :
  Threads.all_accepted
    (Threads.run_atomic [0; 1] (Threads.start [["vless://a@h:1"]; ["vless://a@h:1"]]))
  = ["vless://a@h:1"]
  ∧ NoDup (Threads.all_accepted
             (Threads.run_atomic [0; 1]
                (Threads.start [["vless://a@h:1"]; ["vless://a@h:1"]]))).
Proof.
  split; [vm_compute; reflexivity|].
  apply (atomic_check_and_add_accepts_once
           [["vless://a@h:1"]; ["vless://a@h:1"]] [0; 1] "vless://a@h:1").
Defined.

(** * Further properties of the code *)

(** ** [fetch_with_retry] in general *)

Section RetryTrace.
Import FetchConfigs.
Context (config : ProxyConfig) (get : nat → attempt).

(** What the loop has done when it ends, whatever the outcomes of the
    attempts: the waits it adds are capped, and its result tells how many
    attempts were made and which of them failed. *)
Lemma retry_loop_trace remaining : ∀ attempt backoff slept,
  ∃ new,
    waits (retry_loop config get remaining attempt backoff slept) = slept ++ new
    ∧ Forall (λ w, (w ≤ 30)%Z) new
    ∧ match returned (retry_loop config get remaining attempt backoff slept) with
      | Py.Ok (Some response) =>
          attempt < issued (retry_loop config get remaining attempt backoff slept)
          ∧ issued (retry_loop config get remaining attempt backoff slept)
            ≤ attempt + remaining
          ∧ try_get (get (issued (retry_loop config get remaining attempt backoff slept) - 1))
            = Some response
          ∧ (∀ j, attempt ≤ j <
                    issued (retry_loop config get remaining attempt backoff slept) - 1 →
                  try_get (get j) = None)
          ∧ length new
            = issued (retry_loop config get remaining attempt backoff slept) - 1 - attempt
      | Py.Ok None =>
          issued (retry_loop config get remaining attempt backoff slept)
          = attempt + remaining
          ∧ (∀ j, attempt ≤ j < attempt + remaining → try_get (get j) = None)
          ∧ length new = remaining
      | Py.Raised =>
          attempt < issued (retry_loop config get remaining attempt backoff slept)
          ∧ issued (retry_loop config get remaining attempt backoff slept)
            ≤ attempt + remaining
          ∧ length new
            = issued (retry_loop config get remaining attempt backoff slept) - 1 - attempt
      end.
Proof.
  induction remaining as [|remaining IH]; intros attempt backoff slept.
  - exists []. simpl. rewrite app_nil_r. split; [done|]. split; [constructor|].
    split; [lia|]. split; [intros j ?; lia|done].
  - cbn [retry_loop]. destruct (try_get (get attempt)) as [response|] eqn:E.
    + exists []. simpl. rewrite app_nil_r, Nat.sub_0_r. split; [done|].
      split; [constructor|]. split; [lia|]. split; [lia|]. split; [done|].
      split; [intros j ?; lia|lia].
    + destruct (Z.min (RETRY_DELAY config * backoff) 30 <? 0)%Z eqn:Ew.
      * exists []. simpl. rewrite app_nil_r. split; [done|]. split; [constructor|]. lia.
      * destruct (IH (S attempt) (backoff * 2)%Z
                    (slept ++ [Z.min (RETRY_DELAY config * backoff) 30]))
          as (new & Hw & Hcap & Hres).
        exists (Z.min (RETRY_DELAY config * backoff) 30 :: new).
        split; [by rewrite Hw, <- app_assoc|].
        split; [constructor; [lia|done]|].
        destruct (returned _) as [[response|]|].
        -- destruct Hres as (H1 & H2 & H3 & H4 & H5).
           split; [lia|]. split; [lia|]. split; [done|]. split; [|simpl; lia].
           intros j Hj. destruct (decide (j = attempt)) as [->|]; [done|].
           apply H4. lia.
        -- destruct Hres as (H1 & H2 & H3).
           split; [lia|]. split; [|simpl; lia].
           intros j Hj. destruct (decide (j = attempt)) as [->|]; [done|].
           apply H2. lia.
        -- destruct Hres as (H1 & H2 & H3). split; [lia|]. split; [lia|simpl; lia].
Qed.

(** With a base delay that is not negative the loop never raises, and its
    waits are the delays of the policy, one per failed attempt, in order. *)
Lemma retry_loop_delays remaining : ∀ attempt slept,
  (0 ≤ RETRY_DELAY config)%Z →
  returned (retry_loop config get remaining attempt (2 ^ Z.of_nat attempt) slept)
  ≠ Py.Raised
  ∧ ∃ m, waits (retry_loop config get remaining attempt (2 ^ Z.of_nat attempt) slept)
         = slept ++ (next_delay (RETRY_DELAY config) 30 <$> seq attempt m).
Proof.
  induction remaining as [|remaining IH]; intros attempt slept Hd.
  - split; [done|]. exists 0. simpl. by rewrite app_nil_r.
  - cbn [retry_loop]. destruct (try_get (get attempt)) as [response|].
    + split; [done|]. exists 0. simpl. by rewrite app_nil_r.
    + rewrite wait_time_nonneg by done.
      replace (2 ^ Z.of_nat attempt * 2)%Z with (2 ^ Z.of_nat (S attempt))%Z
        by (rewrite Nat2Z.inj_succ, Z.pow_succ_r; lia).
      destruct (IH (S attempt)
                  (slept ++ [Z.min (RETRY_DELAY config * 2 ^ Z.of_nat attempt) 30]) Hd)
        as [Hr [m Hm]].
      split; [done|]. exists (S m). rewrite Hm, <- app_assoc. simpl.
      do 2 f_equal. unfold next_delay. apply Z.min_comm.
Qed.

Lemma next_delay_mono d cap i j :
  (0 ≤ d)%Z → i ≤ j → (next_delay d cap i ≤ next_delay d cap j)%Z.
Proof.
  intros Hd Hij. unfold next_delay. apply Z.min_le_compat_l.
  apply Z.mul_le_mono_nonneg_l; [done|].
  apply Z.pow_le_mono_r; lia.
Qed.

Lemma delays_sorted d cap m : ∀ a,
  (0 ≤ d)%Z → StronglySorted Z.le (next_delay d cap <$> seq a m).
Proof.
  induction m as [|m IH]; intros a Hd; simpl; [constructor|].
  constructor; [by apply IH|].
  apply Forall_fmap, Forall_forall. intros j [Hj _]%elem_of_seq. simpl.
  apply next_delay_mono; [done|lia].
Qed.

Lemma sum_Z_capped (l : list Z) :
  Forall (λ w, (w ≤ 30)%Z) l → (sum_Z l ≤ 30 * Z.of_nat (length l))%Z.
Proof.
  intros H. induction H as [|w l' Hw _ IH]; [simpl; lia|].
  unfold sum_Z in *. rewrite length_cons. simpl. lia.
Qed.

End RetryTrace.

(** X1.  A response returned by [fetch_with_retry] is the response of the
    first attempt that did not fail: it came from the last GET issued, every
    earlier GET failed, one wait was made per failure, and no more than
    [MAX_RETRIES] GETs were issued. *)
Theorem fetch_with_retry_returns_first_success
    (config : ProxyConfig) (get : nat → attempt) response :
  FetchConfigs.returned (FetchConfigs.fetch_with_retry config get)
  = Py.Ok (Some response) →
  let n := FetchConfigs.issued (FetchConfigs.fetch_with_retry config get) in
  1 ≤ n ∧ (Z.of_nat n ≤ MAX_RETRIES config)%Z
  ∧ FetchConfigs.try_get (get (n - 1)) = Some response
  ∧ (∀ j, j < n - 1 → FetchConfigs.try_get (get j) = None)
  ∧ length (FetchConfigs.waits (FetchConfigs.fetch_with_retry config get)) = n - 1.
Proof.
  intros Hret. cbv zeta. unfold FetchConfigs.fetch_with_retry in *.
  destruct (retry_loop_trace config get (Z.to_nat (MAX_RETRIES config)) 0 1 [])
    as (new & Hw & _ & Hres).
  rewrite Hret in Hres. destruct Hres as (H1 & H2 & H3 & H4 & H5).
  rewrite Hw. simpl. split; [lia|]. split; [lia|]. split; [done|].
  split; [|lia]. intros j Hj. apply H4. lia.
Qed.

Lemma fetch_with_retry_returns_first_success_witness :
  FetchConfigs.returned (FetchConfigs.fetch_with_retry Sample.config (Sample.flaky "ok"))
  = Py.Ok (Some (200%Z, "ok"))
  ∧ FetchConfigs.issued (FetchConfigs.fetch_with_retry Sample.config (Sample.flaky "ok")) = 3
  ∧ FetchConfigs.try_get (Sample.flaky "ok" (3 - 1)) = Some (200%Z, "ok").
Proof.
  assert (E : FetchConfigs.returned
                (FetchConfigs.fetch_with_retry Sample.config (Sample.flaky "ok"))
              = Py.Ok (Some (200%Z, "ok"))) by reflexivity.
  split; [exact E|]. split; [reflexivity|].
  exact (proj1 (proj2 (proj2
    (fetch_with_retry_returns_first_success Sample.config (Sample.flaky "ok") _ E)))).
Defined.

(** X2.  Whatever the source does, [fetch_with_retry] issues at most
    [MAX_RETRIES] GETs (none when [MAX_RETRIES] is not positive), sleeps at
    most once per GET, never longer than 30 at a time, and so at most 30
    times the number of GETs in all. *)
Theorem fetch_with_retry_bounds (config : ProxyConfig) (get : nat → attempt) :
  FetchConfigs.issued (FetchConfigs.fetch_with_retry config get)
  ≤ Z.to_nat (MAX_RETRIES config)
  ∧ length (FetchConfigs.waits (FetchConfigs.fetch_with_retry config get))
    ≤ FetchConfigs.issued (FetchConfigs.fetch_with_retry config get)
  ∧ Forall (λ w, (w ≤ 30)%Z) (FetchConfigs.waits (FetchConfigs.fetch_with_retry config get))
  ∧ (sum_Z (FetchConfigs.waits (FetchConfigs.fetch_with_retry config get))
     ≤ 30 * Z.of_nat (FetchConfigs.issued (FetchConfigs.fetch_with_retry config get)))%Z.
Proof.
  unfold FetchConfigs.fetch_with_retry.
  destruct (retry_loop_trace config get (Z.to_nat (MAX_RETRIES config)) 0 1 [])
    as (new & Hw & Hcap & Hres).
  rewrite Hw. simpl.
  assert (Hn : FetchConfigs.issued
                 (FetchConfigs.retry_loop config get (Z.to_nat (MAX_RETRIES config)) 0 1 [])
               ≤ Z.to_nat (MAX_RETRIES config)
               ∧ length new
                 ≤ FetchConfigs.issued
                     (FetchConfigs.retry_loop config get (Z.to_nat (MAX_RETRIES config))
                        0 1 [])).
  { destruct (FetchConfigs.returned _) as [[response|]|]; lia. }
  destruct Hn as [Hn1 Hn2]. split; [done|]. split; [done|]. split; [done|].
  pose proof (sum_Z_capped new Hcap). lia.
Qed.

(** X3.  [fetch_with_retry] reports failure only after it has used every
    permitted attempt: when it returns [None], exactly [MAX_RETRIES] GETs
    were issued, each of them failed, and each was followed by a wait. *)
Theorem fetch_with_retry_fails_after_all_attempts
    (config : ProxyConfig) (get : nat → attempt) :
  FetchConfigs.returned (FetchConfigs.fetch_with_retry config get) = Py.Ok None →
  FetchConfigs.issued (FetchConfigs.fetch_with_retry config get)
  = Z.to_nat (MAX_RETRIES config)
  ∧ (∀ j, j < Z.to_nat (MAX_RETRIES config) → FetchConfigs.try_get (get j) = None)
  ∧ length (FetchConfigs.waits (FetchConfigs.fetch_with_retry config get))
    = Z.to_nat (MAX_RETRIES config).
Proof.
  unfold FetchConfigs.fetch_with_retry. intros Hret.
  destruct (retry_loop_trace config get (Z.to_nat (MAX_RETRIES config)) 0 1 [])
    as (new & Hw & _ & Hres).
  rewrite Hret in Hres. destruct Hres as (H1 & H2 & H3).
  rewrite Hw. simpl. split; [lia|]. split; [|done]. intros j Hj. apply H2. lia.
Qed.

Lemma fetch_with_retry_fails_after_all_attempts_witness :
  FetchConfigs.returned (FetchConfigs.fetch_with_retry Sample.config Sample.down)
  = Py.Ok None
  ∧ FetchConfigs.issued (FetchConfigs.fetch_with_retry Sample.config Sample.down)
    = Z.to_nat (MAX_RETRIES Sample.config).
Proof.
  assert (E : FetchConfigs.returned (FetchConfigs.fetch_with_retry Sample.config Sample.down)
              = Py.Ok None) by reflexivity.
  split; [exact E|].
  exact (proj1 (fetch_with_retry_fails_after_all_attempts Sample.config Sample.down E)).
Defined.

(** X4.  With a base delay that is not negative, [fetch_with_retry] never
    raises, and its waits never shrink from one retry to the next: they are
    the delays [min(30, d * 2^i)] for [i = 0, 1, ...], in this order. *)
Theorem fetch_with_retry_waits_grow (config : ProxyConfig) (get : nat → attempt) :
  (0 ≤ RETRY_DELAY config)%Z →
  FetchConfigs.returned (FetchConfigs.fetch_with_retry config get) ≠ Py.Raised
  ∧ FetchConfigs.waits (FetchConfigs.fetch_with_retry config get)
    = next_delay (RETRY_DELAY config) 30
        <$> seq 0 (length (FetchConfigs.waits (FetchConfigs.fetch_with_retry config get)))
  ∧ StronglySorted Z.le (FetchConfigs.waits (FetchConfigs.fetch_with_retry config get))
  ∧ Forall (λ w, (0 ≤ w)%Z) (FetchConfigs.waits (FetchConfigs.fetch_with_retry config get)).
Proof.
  intros Hd. unfold FetchConfigs.fetch_with_retry.
  change 1%Z with (2 ^ Z.of_nat 0)%Z.
  destruct (retry_loop_delays config get (Z.to_nat (MAX_RETRIES config)) 0 [] Hd)
    as [Hr [m Hm]].
  split; [done|]. rewrite Hm. simpl. rewrite length_fmap, length_seq.
  split; [done|]. split; [by apply delays_sorted|].
  apply Forall_fmap, Forall_forall. intros i _. simpl. unfold next_delay.
  apply Z.min_glb; [lia|]. apply Z.mul_nonneg_nonneg; [done|]. apply Z.pow_nonneg. lia.
Qed.

Lemma fetch_with_retry_waits_grow_witness :
  (0 ≤ RETRY_DELAY Sample.config)%Z
  ∧ FetchConfigs.waits (FetchConfigs.fetch_with_retry Sample.config Sample.down)
    = [5; 10; 20]%Z
  ∧ StronglySorted Z.le
      (FetchConfigs.waits (FetchConfigs.fetch_with_retry Sample.config Sample.down)).
Proof.
  assert (Hd : (0 ≤ RETRY_DELAY Sample.config)%Z) by (simpl; lia).
  split; [exact Hd|]. split; [reflexivity|].
  exact (proj1 (proj2 (proj2 (fetch_with_retry_waits_grow Sample.config Sample.down Hd)))).
Defined.

(** ** What the scan finds, and where *)

Section Scan.
Import Text Regex.

Lemma append_assoc' (a b c : string) : (a +:+ b) +:+ c = a +:+ b +:+ c.
Proof. induction a as [|x a IH]; [done|]. rewrite !append_cons. by rewrite IH. Qed.

Lemma lit_ci_split lit : ∀ s m rest,
  lit_ci lit s = Some (m, rest) → s = m +:+ rest.
Proof.
  induction lit as [|a lit IH]; intros s m rest H; simpl in H.
  - by inversion H.
  - destruct s as [|b s]; [done|].
    destruct (decide (lower_char b = a)); [|done].
    destruct (lit_ci lit s) as [[m' rest']|] eqn:E; simpl in H; [|done].
    inversion H; subst. rewrite append_cons. f_equal. by apply IH.
Qed.

Lemma payload_run_split s m rest :
  payload_run s = (m, rest) → s = m +:+ rest.
Proof.
  revert m rest. induction s as [|c s IH]; intros m rest; simpl.
  - by intros [= <- <-].
  - destruct (payload_char c).
    + destruct (payload_run s) as [m' rest']. intros [= <- <-].
      rewrite append_cons. f_equal. by apply IH.
    + by intros [= <- <-].
Qed.

(** Lower-casing leaves a colon and a slash alone and makes nothing else a
    colon or a slash. *)
Lemma lower_char_punct b :
  (lower_char b = ":"%char → b = ":"%char) ∧ (lower_char b = "/"%char → b = "/"%char).
Proof.
  destruct b as [[] [] [] [] [] [] [] []]; vm_compute; split; intros H; congruence.
Qed.

Lemma lit_ci_separator s sep rest :
  lit_ci "://" s = Some (sep, rest) → sep = "://".
Proof.
  destruct s as [|b1 [|b2 [|b3 s]]]; simpl; try done.
  - by destruct (decide _).
  - destruct (decide _); [|done]. by destruct (decide _).
  - destruct (decide (lower_char b1 = ":"%char)) as [H1|]; [|done].
    destruct (decide (lower_char b2 = "/"%char)) as [H2|]; [|done].
    destruct (decide (lower_char b3 = "/"%char)) as [H3|]; [|done].
    simpl. intros [= <- <-].
    apply (proj1 (lower_char_punct b1)) in H1.
    apply (proj2 (lower_char_punct b2)) in H2.
    apply (proj2 (lower_char_punct b3)) in H3. by subst.
Qed.

(** A match is a prefix of the text it was tried on: the scheme as the text
    spells it, the separator, and a payload that is not empty. *)
Lemma match_alt_split s a m :
  match_alt s a = Some m →
  ∃ payload, whole m = group1 m +:+ "://" +:+ payload
    ∧ truthy payload = true
    ∧ s = whole m +:+ rest m.
Proof.
  unfold match_alt. intros H.
  destruct (lit_ci a s) as [[g s1]|] eqn:E1; [|done].
  cbn [mbind option_bind] in H.
  destruct (lit_ci "://" s1) as [[sep s2]|] eqn:E2; [|done].
  cbn [mbind option_bind] in H.
  destruct (payload_run s2) as [p s3] eqn:E3. destruct (truthy p) eqn:Ep; [|done].
  inversion H; subst; simpl.
  pose proof (lit_ci_separator _ _ _ E2) as ->.
  apply lit_ci_split in E1, E2. apply payload_run_split in E3. subst.
  exists p. split; [done|]. split; [done|]. by rewrite !append_assoc'.
Qed.

Lemma match_here_split schemes s m :
  match_here schemes s = Some m →
  ∃ payload, whole m = group1 m +:+ "://" +:+ payload
    ∧ truthy payload = true
    ∧ s = whole m +:+ rest m.
Proof.
  induction schemes as [|a schemes IH]; simpl; [done|].
  destruct (match_alt s a) as [m'|] eqn:E; [|done].
  intros [= ->]. by eapply match_alt_split.
Qed.

Lemma findall_skip_occurs schemes s : ∀ skip x,
  x ∈ findall_skip schemes skip s →
  ∃ pre post, s = pre +:+ x +:+ "://" +:+ post.
Proof.
  induction s as [|c s IH]; intros skip x; simpl; [by intros ?%elem_of_nil|].
  assert (Hlater : ∀ k, x ∈ findall_skip schemes k s →
                        ∃ pre post, String c s = pre +:+ x +:+ "://" +:+ post).
  { intros k (pre & post & ->)%IH. by exists (String c pre), post. }
  destruct skip as [|k]; [|apply Hlater].
  destruct (match_here schemes (String c s)) as [m|] eqn:E; [|apply Hlater].
  intros [->|Hx]%elem_of_cons; [|by eapply Hlater].
  destruct (match_here_split _ _ _ E) as (payload & Hw & _ & Hs).
  exists "", (payload +:+ rest m). rewrite append_nil, Hs, Hw.
  by rewrite !append_assoc'.
Qed.

End Scan.

(** X5.  Every candidate that [extract_configs_from_text] returns is a
    scheme name, in the letter case of the text, that stands in the scanned
    text right before [://]; and no candidate is returned twice. *)
Theorem extract_candidates_occur_in_text validator text x :
  x ∈ FetchConfigs.extract_configs_from_text validator text →
  (∃ pre post, FetchConfigs.scan_target validator text = pre +:+ x +:+ "://" +:+ post)
  ∧ Text.lower x ∈ FetchConfigs.protocol_pattern
  ∧ NoDup (FetchConfigs.extract_configs_from_text validator text).
Proof.
  unfold FetchConfigs.extract_configs_from_text, Py.list_of_set, Regex.findall.
  rewrite elem_of_remove_dups. intros Hx. split; [by eapply findall_skip_occurs|].
  split; [|apply NoDup_remove_dups].
  pose proof (findall_skip_groups FetchConfigs.protocol_pattern
                (FetchConfigs.scan_target validator text) 0) as H.
  rewrite Forall_forall in H. by apply H.
Qed.

Lemma extract_candidates_occur_in_text_witness :
  "Trojan" ∈ FetchConfigs.extract_configs_from_text Sample.validator
               "see Trojan://pw@host:443 and ss://x"
  ∧ ∃ pre post,
      FetchConfigs.scan_target Sample.validator "see Trojan://pw@host:443 and ss://x"
      = pre +:+ "Trojan" +:+ "://" +:+ post.
Proof.
  assert (H : "Trojan" ∈ FetchConfigs.extract_configs_from_text Sample.validator
                           "see Trojan://pw@host:443 and ss://x")
    by (vm_compute; left).
  split; [exact H|].
  exact (proj1 (extract_candidates_occur_in_text Sample.validator _ _ H)).
Defined.

(** ** The scan and white space *)

Section ScanSpace.
Import Text Regex.
Context (schemes : list string) (ws : ascii).
Hypothesis schemes_no_space : Forall (λ a, no_space a = true) schemes.
Hypothesis ws_space : isspace ws = true.

Lemma lower_char_space c : isspace c = true → lower_char c = c.
Proof. destruct c as [[] [] [] [] [] [] [] []]; vm_compute; congruence. Qed.

Lemma payload_char_space c : isspace c = true → payload_char c = false.
Proof. intros H. unfold payload_char. by rewrite H. Qed.

Lemma lit_ci_before_space lit : ∀ s1 s2,
  no_space lit = true →
  lit_ci lit (s1 +:+ String ws s2)
  = (λ mr, (mr.1, mr.2 +:+ String ws s2)) <$> lit_ci lit s1.
Proof.
  induction lit as [|a lit IH]; intros s1 s2 Hlit; [done|].
  simpl in Hlit. apply andb_true_iff in Hlit as [Ha Hlit].
  destruct s1 as [|b s1].
  - rewrite append_nil. simpl. rewrite decide_False; [done|].
    rewrite lower_char_space by done. intros ->. by rewrite ws_space in Ha.
  - rewrite append_cons. simpl. destruct (decide (lower_char b = a)); [|done].
    rewrite IH by done. by destruct (lit_ci lit s1) as [[m r]|].
Qed.

Lemma payload_run_before_space s1 s2 :
  payload_run (s1 +:+ String ws s2)
  = ((payload_run s1).1, (payload_run s1).2 +:+ String ws s2).
Proof.
  induction s1 as [|c s1 IH].
  - rewrite append_nil. simpl. by rewrite payload_char_space.
  - rewrite append_cons. simpl. destruct (payload_char c); [|done].
    rewrite IH. by destruct (payload_run s1).
Qed.

Local Abbreviation push s2 :=
  (λ m, {| group1 := group1 m; whole := whole m;
           rest := rest m +:+ String ws s2 |}).

Lemma match_alt_before_space s1 s2 a :
  no_space a = true →
  match_alt (s1 +:+ String ws s2) a = push s2 <$> match_alt s1 a.
Proof.
  intros Ha. unfold match_alt. rewrite lit_ci_before_space by done.
  destruct (lit_ci a s1) as [[g r1]|]; [|done]. cbn [fmap option_fmap option_map
    mbind option_bind fst snd].
  rewrite lit_ci_before_space by done.
  destruct (lit_ci "://" r1) as [[sep r2]|]; [|done]. cbn [fmap option_fmap option_map
    mbind option_bind fst snd].
  rewrite payload_run_before_space.
  destruct (payload_run r2) as [p r3]. cbn [fst snd]. by destruct (truthy p).
Qed.

Lemma match_any_before_space l s1 s2 :
  Forall (λ a, no_space a = true) l →
  match_here l (s1 +:+ String ws s2) = push s2 <$> match_here l s1.
Proof.
  intros Hl. induction Hl as [|a l Ha Hl IH]; [done|].
  simpl. rewrite match_alt_before_space by done.
  destruct (match_alt s1 a); [done|]. apply IH.
Qed.

Lemma match_here_before_space s1 s2 :
  match_here schemes (s1 +:+ String ws s2) = push s2 <$> match_here schemes s1.
Proof. by apply match_any_before_space. Qed.

Lemma match_alt_empty a : match_alt "" a = None.
Proof.
  unfold match_alt. destruct (lit_ci a "") as [[g r]|] eqn:E; [|done].
  apply lit_ci_split in E. destruct g, r; try done.
Qed.

Lemma match_here_empty l : match_here l "" = None.
Proof. induction l as [|a l IH]; [done|]. simpl. by rewrite match_alt_empty. Qed.

Lemma length_append (a b : string) :
  String.length (a +:+ b) = String.length a + String.length b.
Proof. induction a as [|c a IH]; [done|]. rewrite append_cons. simpl. by rewrite IH. Qed.

(** The scan of a text up to a white-space character does not look beyond
    it: no match reaches the white space. *)
Lemma findall_skip_before_space s1 s2 : ∀ k,
  k ≤ String.length s1 →
  findall_skip schemes k (s1 +:+ String ws s2)
  = findall_skip schemes k s1 ++ findall_skip schemes 0 s2.
Proof.
  induction s1 as [|c s1 IH]; intros k Hk.
  - simpl in Hk. assert (k = 0) as -> by lia. rewrite append_nil.
    cbn [findall_skip].
    pose proof (match_here_before_space "" s2) as H.
    rewrite append_nil, match_here_empty in H. by rewrite H.
  - rewrite append_cons. cbn [findall_skip]. destruct k as [|k].
    + pose proof (match_here_before_space (String c s1) s2) as H.
      rewrite append_cons in H. rewrite H.
      destruct (match_here schemes (String c s1)) as [m|] eqn:E; simpl.
      * f_equal. apply IH.
        destruct (match_here_split _ _ _ E) as (payload & Hw & Hp & Hs).
        apply (f_equal String.length) in Hs. rewrite length_append in Hs.
        simpl in Hs. lia.
      * apply IH. lia.
    + apply IH. simpl in Hk. lia.
Qed.

Lemma findall_before_space s1 s2 :
  findall schemes (s1 +:+ String ws s2) = findall schemes s1 ++ findall schemes s2.
Proof. unfold findall. apply findall_skip_before_space. lia. Qed.

End ScanSpace.

(** X6.  The scan does not cross white space: the candidates of a text with
    a white-space character in it are the candidates of the part before the
    character followed by the candidates of the part after it. *)
Theorem findall_splits_at_white_space (ws : ascii) (before_ws after_ws : string) :
  Text.isspace ws = true →
  Regex.findall FetchConfigs.protocol_pattern (before_ws +:+ String ws after_ws)
  = Regex.findall FetchConfigs.protocol_pattern before_ws
    ++ Regex.findall FetchConfigs.protocol_pattern after_ws
  ∧ Regex.findall Config.protocol_pattern (before_ws +:+ String ws after_ws)
    = Regex.findall Config.protocol_pattern before_ws
      ++ Regex.findall Config.protocol_pattern after_ws.
Proof.
  intros Hws. split; apply findall_before_space; try done;
    apply Forall_forall; intros a Ha;
    repeat (apply elem_of_cons in Ha as [->|Ha]); try reflexivity;
    by apply elem_of_nil in Ha.
Qed.

Lemma findall_splits_at_white_space_witness :
  Text.isspace " " = true
  ∧ Regex.findall FetchConfigs.protocol_pattern ("vless://a" +:+ String " " "ss://b")
    = Regex.findall FetchConfigs.protocol_pattern "vless://a"
      ++ Regex.findall FetchConfigs.protocol_pattern "ss://b".
Proof.
  split; [reflexivity|].
  exact (proj1 (findall_splits_at_white_space " " "vless://a" "ss://b" eq_refl)).
Defined.

(** ** Pages of messages *)

Section PageScan.
Import Text Regex Pages.

Lemma LF_space : isspace (ascii_of_nat 10) = true.
Proof. reflexivity. Qed.

Lemma findall_empty l : findall l "" = [].
Proof. reflexivity. Qed.

Lemma fetch_pattern_no_space :
  Forall (λ a, no_space a = true) FetchConfigs.protocol_pattern.
Proof. repeat constructor. Qed.

Lemma optimized_pattern_no_space :
  Forall (λ a, no_space a = true) Config.protocol_pattern.
Proof. repeat constructor. Qed.

Lemma findall_join l (texts : list string) :
  Forall (λ a, no_space a = true) l →
  findall l (join LF texts) = concat (findall l <$> texts).
Proof.
  intros Hl. induction texts as [|x [|y texts] IH]; [done| |].
  - simpl. by rewrite app_nil_r.
  - change (join LF (x :: y :: texts)) with (x +:+ LF +:+ join LF (y :: texts)).
    unfold LF at 1. rewrite append_cons, append_nil.
    rewrite (findall_before_space l _ Hl LF_space), IH. done.
Qed.

Lemma concat_findall_truthy l (texts : list string) :
  concat (findall l <$> filter (λ t, truthy t = true) texts)
  = concat (findall l <$> texts).
Proof.
  induction texts as [|x texts IH]; [done|].
  rewrite filter_cons. destruct (decide (truthy x = true)) as [Hx|Hx].
  - rewrite !fmap_cons. simpl. by rewrite IH.
  - rewrite fmap_cons. simpl. rewrite IH. by destruct x.
Qed.

End PageScan.

(** X7.  In the Telegram branch of [fetch_configs_from_source] the messages
    are scanned one by one.  When the joined page text is scanned as it is
    (it is not a base64 blob that decodes to a text), what
    [extract_configs_from_text] returns for it is the set of the candidates
    of the single messages: a candidate is returned exactly when the scan
    of some message finds it, and no candidate runs from one message into
    the next. *)
Theorem joined_messages_are_scanned_one_by_one (validator : ConfigValidator)
    (texts : list string) :
  FetchConfigs.scan_target validator (Pages.join_messages texts)
  = Pages.join_messages texts →
  FetchConfigs.extract_configs_from_text validator (Pages.join_messages texts)
  = Py.list_of_set (concat (Regex.findall FetchConfigs.protocol_pattern <$> texts))
  ∧ ∀ x, x ∈ FetchConfigs.extract_configs_from_text validator (Pages.join_messages texts)
         ↔ ∃ t, t ∈ texts ∧ x ∈ Regex.findall FetchConfigs.protocol_pattern t.
Proof.
  intros Hplain.
  assert (E : FetchConfigs.extract_configs_from_text validator (Pages.join_messages texts)
              = Py.list_of_set
                  (concat (Regex.findall FetchConfigs.protocol_pattern <$> texts))).
  { unfold FetchConfigs.extract_configs_from_text. rewrite Hplain.
    unfold Pages.join_messages.
    by rewrite (findall_join _ _ fetch_pattern_no_space), concat_findall_truthy. }
  split; [exact E|]. intros x. rewrite E. unfold Py.list_of_set.
  rewrite elem_of_remove_dups, elem_of_concat. split.
  - intros (l & Hx & (t & -> & Ht)%list_elem_of_fmap). by exists t.
  - intros (t & Ht & Hx). exists (Regex.findall FetchConfigs.protocol_pattern t).
    split; [done|]. apply list_elem_of_fmap. by exists t.
Qed.

Lemma joined_messages_are_scanned_one_by_one_witness :
  FetchConfigs.scan_target Sample.validator
    (Pages.join_messages ["vless://a"; EmptyString; "ss://b vless://c"])
  = Pages.join_messages ["vless://a"; EmptyString; "ss://b vless://c"]
  ∧ ("ss" ∈ FetchConfigs.extract_configs_from_text Sample.validator
              (Pages.join_messages ["vless://a"; EmptyString; "ss://b vless://c"])
     ↔ ∃ t, t ∈ ["vless://a"; EmptyString; "ss://b vless://c"]
            ∧ "ss" ∈ Regex.findall FetchConfigs.protocol_pattern t).
Proof.
  assert (E : FetchConfigs.scan_target Sample.validator
                (Pages.join_messages ["vless://a"; EmptyString; "ss://b vless://c"])
              = Pages.join_messages ["vless://a"; EmptyString; "ss://b vless://c"])
    by reflexivity.
  split; [exact E|].
  exact (proj2 (joined_messages_are_scanned_one_by_one Sample.validator _ E) "ss").
Defined.

(** X8.  In [fetch_from_channel] the candidates of a page are those of its
    fresh messages, message by message in page order; a stale message
    contributes nothing, and a message with no publish time is always
    scanned. *)
Theorem fresh_messages_are_scanned_one_by_one
    (now MAX_CONFIG_AGE_DAYS : Z) (messages : list Pages.message) :
  Regex.findall Config.protocol_pattern
    (Pages.fresh_content now MAX_CONFIG_AGE_DAYS messages)
  = concat ((λ m, Regex.findall Config.protocol_pattern (Pages.msg_text m))
              <$> filter (λ m, Pages.is_fresh now MAX_CONFIG_AGE_DAYS m = true) messages)
  ∧ ∀ m, m ∈ messages → Pages.msg_time m = None →
         m ∈ filter (λ m, Pages.is_fresh now MAX_CONFIG_AGE_DAYS m = true) messages.
Proof.
  split.
  - induction messages as [|m messages IH]; [done|].
    cbn [Pages.fresh_content]. rewrite filter_cons.
    destruct (Pages.is_fresh now MAX_CONFIG_AGE_DAYS m) eqn:E.
    + rewrite decide_True by done. rewrite fmap_cons. cbn [concat].
      unfold Pages.LF. rewrite append_cons, append_nil.
      rewrite (findall_before_space _ _ optimized_pattern_no_space LF_space).
      by rewrite IH.
    + by rewrite decide_False by done.
  - intros m Hm Ht. apply list_elem_of_filter. split; [|done].
    unfold Pages.is_fresh. by rewrite Ht.
Qed.

Lemma fresh_messages_are_scanned_one_by_one_witness :
  {| Pages.msg_text := "vless://a"; Pages.msg_time := None |}
  ∈ filter (λ m, Pages.is_fresh 1000 3 m = true)
      [ {| Pages.msg_text := "ss://old"; Pages.msg_time := Some (-999999999999999)%Z |};
        {| Pages.msg_text := "vless://a"; Pages.msg_time := None |} ].
Proof.
  apply (proj2 (fresh_messages_are_scanned_one_by_one 1000 3 _));
    [right; left|reflexivity].
Defined.

(** ** What [process_single_config] accepts and what it drops *)

Section Accepting.
Import FetchConfigs.
Context (config : ProxyConfig) (validator : ConfigValidator).
Implicit Types (seen : gset string).

Local Abbreviation prefixed_by candidate :=
  (λ entry : string * protocol_info,
     existsb (Text.startswith candidate) (entry.1 :: get_aliases entry.2)).

Lemma match_protocols_accepts seen protocols : ∀ config_ p,
  match_protocols config validator protocols seen config_ = Py.Ok (Some p) →
  ∃ protocol info candidate cleaned,
    rtc (vmess_step validator) config_ candidate
    ∧ (protocol, info) ∈ protocols
    ∧ prefixed_by candidate (protocol, info) = true
    ∧ is_protocol_enabled config protocol = Py.Ok true
    ∧ (if decide (protocol = "vmess://")
       then clean_vmess_config validator candidate else Py.Ok candidate) = Py.Ok cleaned
    ∧ clean_config validator cleaned = Py.Ok p
    ∧ validate_protocol_config validator p protocol = Py.Ok true.
Proof.
  induction protocols as [|[protocol info] protocols IH]; intros config_ p; [done|].
  cbn [match_protocols].
  assert (Hlater : ∀ c, rtc (vmess_step validator) config_ c →
            match_protocols config validator protocols seen c = Py.Ok (Some p) →
            ∃ protocol' info' candidate cleaned,
              rtc (vmess_step validator) config_ candidate
              ∧ (protocol', info') ∈ (protocol, info) :: protocols
              ∧ prefixed_by candidate (protocol', info') = true
              ∧ is_protocol_enabled config protocol' = Py.Ok true
              ∧ (if decide (protocol' = "vmess://")
                 then clean_vmess_config validator candidate
                 else Py.Ok candidate) = Py.Ok cleaned
              ∧ clean_config validator cleaned = Py.Ok p
              ∧ validate_protocol_config validator p protocol' = Py.Ok true).
  { intros c Hc (protocol' & info' & candidate & cleaned & Hreach & Hin & H)%IH.
    exists protocol', info', candidate, cleaned.
    split; [by etrans|]. split; [by right|done]. }
  destruct (existsb _ (protocol :: get_aliases info)) eqn:Ematch; [|by apply Hlater].
  unfold mbind, exc_mbind.
  destruct (is_protocol_enabled config protocol) as [[|]|] eqn:Eon;
    cbn [Py.bind negb]; try done.
  destruct (if decide (protocol = "vmess://") then _ else _) as [config'|] eqn:Evmess;
    cbn [Py.bind]; [|done].
  destruct (clean_config validator config') as [clean|] eqn:Eclean; cbn [Py.bind]; [|done].
  destruct (validate_protocol_config validator clean protocol) as [valid|] eqn:Evalid;
    cbn [Py.bind]; [|done].
  destruct (valid && negb (bool_decide (clean ∈ seen))) eqn:E.
  - intros [= <-]. apply andb_true_iff in E as [-> _].
    exists protocol, info, config_, config'. split; [done|]. split; [by left|done].
  - apply Hlater. destruct (decide (protocol = "vmess://")).
    + by apply rtc_once.
    + by injection Evmess as ->.
Qed.

Lemma match_protocols_no_match seen protocols config_ :
  Forall (λ entry, prefixed_by config_ entry = false) protocols →
  match_protocols config validator protocols seen config_ = Py.Ok None.
Proof.
  induction 1 as [|[protocol info] protocols Hno _ IH]; [done|].
  cbn [match_protocols]. cbv beta in Hno. cbn [fst snd] in Hno. by rewrite Hno.
Qed.

Lemma match_protocols_first_disabled seen skipped protocol info later config_ :
  Forall (λ entry, prefixed_by config_ entry = false) skipped →
  prefixed_by config_ (protocol, info) = true →
  is_protocol_enabled config protocol = Py.Ok false →
  match_protocols config validator (skipped ++ (protocol, info) :: later) seen config_
  = Py.Ok None.
Proof.
  intros Hskip Hmatch Hoff.
  induction Hskip as [|[protocol' info'] skipped Hno _ IH].
  - cbn [app match_protocols]. cbv beta in Hmatch. cbn [fst snd] in Hmatch.
    rewrite Hmatch. unfold mbind, exc_mbind. by rewrite Hoff.
  - cbn [app match_protocols]. cbv beta in Hno. cbn [fst snd] in Hno. by rewrite Hno.
Qed.


End Accepting.




(** X9.  A config that [process_single_config] returns is not yet in the
    set of seen configs and comes from the candidate in this way: the
    candidate is stripped and, when it begins with [hy2://], respelled by
    the validator; the loop variable is this text, rewritten by
    [clean_vmess_config] zero or more times; a key or alias of an enabled
    registry entry prefixes the loop variable; and the returned config is
    what [clean_config] made of it (after [clean_vmess_config] when the
    entry is [vmess://]), validated for that entry. *)
Theorem process_single_config_accepts_enabled_only
    (config : ProxyConfig) (validator : ConfigValidator) (seen : gset string)
    (raw p : string) :
  FetchConfigs.process_single_config config validator seen raw = Some p →
  (p ∉ seen)
  ∧ ∃ start protocol info candidate cleaned,
      (if Text.startswith (Text.strip raw) "hy2://"
       then normalize_hysteria2_protocol validator (Text.strip raw)
       else Py.Ok (Text.strip raw)) = Py.Ok start
      ∧ rtc (vmess_step validator) start candidate
      ∧ (protocol, info) ∈ SUPPORTED_PROTOCOLS config
      ∧ existsb (Text.startswith candidate) (protocol :: get_aliases info) = true
      ∧ is_protocol_enabled config protocol = Py.Ok true
      ∧ (if decide (protocol = "vmess://")
         then clean_vmess_config validator candidate
         else Py.Ok candidate) = Py.Ok cleaned
      ∧ clean_config validator cleaned = Py.Ok p
      ∧ validate_protocol_config validator p protocol = Py.Ok true.
Proof.
  intros H. split; [by eapply process_single_config_fresh|].
  unfold FetchConfigs.process_single_config in H.
  unfold mbind, exc_mbind in H.
  destruct (if Text.startswith _ _ then _ else _) as [config_|] eqn:Estart;
    cbn [Py.bind] in H; [|done].
  destruct (FetchConfigs.match_protocols _ _ _ _ _) as [r|] eqn:E; simpl in H; [|done].
  subst r. exists config_.
  destruct (match_protocols_accepts config validator seen _ _ _ E)
    as (protocol & info & candidate & cleaned & Hrest).
  exists protocol, info, candidate, cleaned. split; [done|]. cbn [fst snd] in Hrest.
  exact Hrest.
Qed.

Lemma process_single_config_accepts_enabled_only_witness :
  FetchConfigs.process_single_config Sample.config Sample.validator ∅
    "  hy2://user@host:443 " = Some "hysteria2://user@host:443"
  ∧ ∃ start protocol info candidate cleaned,
      (if Text.startswith (Text.strip "  hy2://user@host:443 ") "hy2://"
       then normalize_hysteria2_protocol Sample.validator
              (Text.strip "  hy2://user@host:443 ")
       else Py.Ok (Text.strip "  hy2://user@host:443 ")) = Py.Ok start
      ∧ rtc (vmess_step Sample.validator) start candidate
      ∧ (protocol, info) ∈ SUPPORTED_PROTOCOLS Sample.config
      ∧ existsb (Text.startswith candidate) (protocol :: get_aliases info) = true
      ∧ is_protocol_enabled Sample.config protocol = Py.Ok true
      ∧ (if decide (protocol = "vmess://")
         then clean_vmess_config Sample.validator candidate
         else Py.Ok candidate) = Py.Ok cleaned
      ∧ clean_config Sample.validator cleaned = Py.Ok "hysteria2://user@host:443"
      ∧ validate_protocol_config Sample.validator "hysteria2://user@host:443" protocol
        = Py.Ok true.
Proof.
  assert (E : FetchConfigs.process_single_config Sample.config Sample.validator ∅
                "  hy2://user@host:443 " = Some "hysteria2://user@host:443")
    by (vm_compute; reflexivity).
  split; [exact E|].
  exact (proj2 (process_single_config_accepts_enabled_only _ _ _ _ _ E)).
Defined.

(** X10.  [process_single_config] drops a candidate that no name of the
    registry prefixes.  It also drops a candidate whose first prefixing
    registry entry is disabled, whatever the later entries are: a later
    entry that is enabled and would accept the candidate is not tried. *)
Theorem process_single_config_drops (config : ProxyConfig) (validator : ConfigValidator)
    (seen : gset string) (raw : string) :
  Text.startswith (Text.strip raw) "hy2://" = false →
  (Forall (λ entry : string * protocol_info,
             existsb (Text.startswith (Text.strip raw)) (entry.1 :: get_aliases entry.2)
             = false)
          (SUPPORTED_PROTOCOLS config) →
   FetchConfigs.process_single_config config validator seen raw = None)
  ∧ (∀ skipped protocol info later,
       SUPPORTED_PROTOCOLS config = skipped ++ (protocol, info) :: later →
       Forall (λ entry : string * protocol_info,
                 existsb (Text.startswith (Text.strip raw)) (entry.1 :: get_aliases entry.2)
                 = false) skipped →
       existsb (Text.startswith (Text.strip raw)) (protocol :: get_aliases info) = true →
       is_protocol_enabled config protocol = Py.Ok false →
       FetchConfigs.process_single_config config validator seen raw = None).
Proof.
  intros Hhy2. split.
  - intros Hno. unfold FetchConfigs.process_single_config. rewrite Hhy2.
    unfold mbind, exc_mbind. cbn [Py.bind].
    by rewrite match_protocols_no_match.
  - intros skipped protocol info later Hreg Hskip Hmatch Hoff.
    unfold FetchConfigs.process_single_config. rewrite Hhy2, Hreg.
    unfold mbind, exc_mbind. cbn [Py.bind].
    by rewrite (match_protocols_first_disabled config validator seen skipped protocol info).
Qed.

Lemma process_single_config_drops_witness :
  FetchConfigs.process_single_config Sample.config Sample.validator ∅ "tuic://x@h:1" = None
  ∧ FetchConfigs.process_single_config Sample.config Sample.validator ∅ "vmess://abc" = None.
Proof.
  split.
  - apply (proj1 (process_single_config_drops Sample.config Sample.validator ∅
                    "tuic://x@h:1" eq_refl)).
    repeat constructor.
  - apply (proj2 (process_single_config_drops Sample.config Sample.validator ∅
                    "vmess://abc" eq_refl)
             (take 4 Sample.protocols) "vmess://"
             {| info_aliases := None; info_priority := None |} []);
      [reflexivity | repeat constructor | reflexivity | reflexivity].
Defined.

(** ** Channels that contribute nothing, and the set at the end of a run *)

Lemma run_inv_from (seen : gset string) : run_inv seen [] ([], seen).
Proof.
  unfold run_inv. simpl. split; [constructor|]. split; [set_solver|].
  by intros x ?%elem_of_nil.
Qed.

Section Sources.
Import FetchConfigs.
Context (config : ProxyConfig) (validator : ConfigValidator).
Context (message_text : string → string).
Implicit Types (seen : gset string).

Lemma map_sources_length net channels : ∀ seen results seen',
  map_sources config validator message_text net channels seen = Py.Ok (results, seen') →
  length results = length channels.
Proof.
  induction channels as [|channel channels IH]; intros seen results seen'; simpl.
  - by intros [= <- <-].
  - destruct (fetch_configs_from_source _ _ _ _ _ _) as [[configs seen1]|]; simpl; [|done].
    destruct (map_sources _ _ _ _ _ _) as [[results' seen2]|] eqn:E; simpl; [|done].
    intros [= <- <-]. simpl. f_equal. by eapply IH.
Qed.

Lemma accept_loop_length raw_found : ∀ configs seen,
  length (accept_loop config validator raw_found (configs, seen)).1
  ≤ length configs + length raw_found.
Proof.
  unfold accept_loop.
  induction raw_found as [|raw raw_found IH]; intros configs seen; cbn [foldl].
  - simpl. lia.
  - destruct (accept_step_cases config validator configs seen raw)
      as [->|(p & _ & _ & ->)].
    + specialize (IH configs seen). simpl. lia.
    + specialize (IH (configs ++ [p]) ({[p]} ∪ seen)).
      rewrite length_app in IH. simpl in *. lia.
Qed.

End Sources.

(** X11.  A channel that is disabled contributes no config and leaves the
    set of seen configs as it is, and no GET is made for it: the result does
    not depend on the network.  The same holds, after the retries, for a
    channel whose every attempt fails. *)
Theorem silent_channel_changes_nothing (config : ProxyConfig)
    (validator : ConfigValidator) (message_text : string → string)
    (net : network) (channel : ChannelConfig) (seen : gset string) :
  (enabled channel = false →
   ∀ net', FetchConfigs.fetch_configs_from_source config validator message_text net'
             channel seen = Py.Ok ([], seen))
  ∧ ((0 ≤ RETRY_DELAY config)%Z →
     (∀ j : nat, (Z.of_nat j < MAX_RETRIES config)%Z →
                 FetchConfigs.try_get (net (url channel) j) = None) →
     FetchConfigs.fetch_configs_from_source config validator message_text net channel seen
     = Py.Ok ([], seen)).
Proof.
  split.
  - intros Hoff net'. unfold FetchConfigs.fetch_configs_from_source. by rewrite Hoff.
  - intros Hd Hfail. unfold FetchConfigs.fetch_configs_from_source.
    destruct (enabled channel); [|done]. cbn [negb].
    by rewrite (fetch_with_retry_exhausted config (net (url channel)) Hd Hfail).
Qed.

Lemma silent_channel_changes_nothing_witness :
  FetchConfigs.fetch_configs_from_source Sample.config Sample.validator id Sample.net
    {| url := "https://t.me/s/off"; enabled := false; is_telegram := false |}
    {["vless://a"]} = Py.Ok ([], {["vless://a"]})
  ∧ FetchConfigs.fetch_configs_from_source Sample.config Sample.validator id
      (λ _, Sample.down)
      {| url := "https://t.me/s/one"; enabled := true; is_telegram := true |}
      {["vless://a"]} = Py.Ok ([], {["vless://a"]}).
Proof.
  split.
  - apply (proj1 (silent_channel_changes_nothing Sample.config Sample.validator id
                    Sample.net _ _)). reflexivity.
  - apply (proj2 (silent_channel_changes_nothing Sample.config Sample.validator id
                    (λ _, Sample.down) _ _)); [simpl; lia|reflexivity].
Defined.

(** X12.  At the end of a sequential pass over the channels there is one
    result list per channel, in channel order, and the set of seen configs
    is the set it was at the start together with exactly the configs of the
    result lists, none of which was in the set at the start. *)
Theorem seen_configs_is_what_was_accepted (config : ProxyConfig)
    (validator : ConfigValidator) (message_text : string → string) (net : network)
    (channels : list ChannelConfig) (seen seen' : gset string)
    (results : list (list string)) :
  FetchConfigs.map_sources config validator message_text net channels seen
  = Py.Ok (results, seen') →
  length results = length channels
  ∧ seen' = list_to_set (concat results) ∪ seen
  ∧ (∀ x, x ∈ concat results → x ∉ seen).
Proof.
  intros E. split; [by eapply map_sources_length|].
  destruct (map_sources_inv config validator message_text seen net channels [] seen
              results seen' (run_inv_from seen) E) as (_ & H2 & H3).
  simpl in H2, H3. done.
Qed.

Lemma seen_configs_is_what_was_accepted_witness :
  FetchConfigs.map_sources Sample.bare_config Sample.validator id Sample.net
    Sample.channels {["ss"]}
  = Py.Ok ([["trojan"; "vless"]; []; []], list_to_set ["trojan"; "vless"; "ss"])
  ∧ length [["trojan"; "vless"]; []; ([] : list string)] = length Sample.channels.
Proof.
  assert (E : FetchConfigs.map_sources Sample.bare_config Sample.validator id Sample.net
                Sample.channels {["ss"]}
              = Py.Ok ([["trojan"; "vless"]; []; []], list_to_set ["trojan"; "vless"; "ss"]))
    by (vm_compute; reflexivity).
  split; [exact E|].
  exact (proj1 (seen_configs_is_what_was_accepted _ _ _ _ _ _ _ _ E)).
Defined.

(** ** The counters of a channel *)

Section Counters.
Import Metrics.
Context (config : ProxyConfig) (validator : ConfigValidator).
Implicit Types (counts : gmap string Z) (seen : gset string).

Lemma count_config_lookup counts processed key :
  default 0%Z (count_config counts processed !! key)
  = (default 0 (counts !! key) + if decide (p_type processed = key) then 1 else 0)%Z.
Proof.
  unfold count_config. destruct (decide (p_type processed = key)) as [->|Hne].
  - rewrite lookup_insert_eq. done.
  - rewrite lookup_insert_ne by done. lia.
Qed.

(** The loop with the counters does to the list and to the set what the
    loop without them does, and it counts every config it appends under the
    key of its scheme. *)
Lemma source_loop_spec raw_found : ∀ configs seen counts,
  (source_loop config validator raw_found (configs, seen, counts)).1
  = FetchConfigs.accept_loop config validator raw_found (configs, seen)
  ∧ ∃ new,
      (FetchConfigs.accept_loop config validator raw_found (configs, seen)).1
      = configs ++ new
      ∧ ∀ key,
          default 0%Z ((source_loop config validator raw_found (configs, seen, counts)).2
                       !! key)
          = (default 0 (counts !! key)
             + Z.of_nat (length (filter (λ c, p_type c = key) new)))%Z.
Proof.
  unfold source_loop, FetchConfigs.accept_loop.
  induction raw_found as [|raw raw_found IH]; intros configs seen counts; cbn [foldl].
  - split; [done|]. exists []. rewrite app_nil_r. split; [done|]. intros key. simpl. lia.
  - unfold source_step at 2 4, FetchConfigs.accept_step at 2 4.
    destruct (FetchConfigs.process_single_config config validator seen raw) as [p|];
      [|apply IH].
    destruct (Text.truthy p); [|apply IH].
    destruct (IH (configs ++ [p]) ({[p]} ∪ seen) (count_config counts p))
      as (H1 & new & H2 & H3).
    split; [done|]. exists (p :: new). rewrite H2, <- app_assoc. split; [done|].
    intros key. rewrite H3, count_config_lookup, filter_cons.
    destruct (decide (p_type p = key)); simpl; lia.
Qed.

End Counters.

(** X13.  The counters that [fetch_configs_from_source] keeps agree with
    what it returns: the counter of a scheme key grows by the number of
    returned configs with that key, and the number of returned configs is at
    most [total_configs], the number of candidates extracted. *)
Theorem channel_counters_match_result (config : ProxyConfig)
    (validator : ConfigValidator) (raw_found : list string) (seen : gset string)
    (counts : gmap string Z) (key : string) :
  let '(configs, seen', counts') :=
    Metrics.source_loop config validator raw_found ([], seen, counts) in
  (configs, seen') = FetchConfigs.accept_loop config validator raw_found ([], seen)
  ∧ default 0%Z (counts' !! key)
    = (default 0 (counts !! key)
       + Z.of_nat (length (filter (λ c, Metrics.p_type c = key) configs)))%Z
  ∧ length configs ≤ Metrics.total_configs raw_found.
Proof.
  destruct (source_loop_spec config validator raw_found [] seen counts)
    as (H1 & new & H2 & H3).
  pose proof (accept_loop_length config validator raw_found [] seen) as Hlen.
  destruct (Metrics.source_loop config validator raw_found ([], seen, counts))
    as [[configs seen'] counts'].
  simpl in H1, H3. rewrite <- H1 in H2, Hlen. simpl in H2, Hlen. subst new.
  split; [done|]. split; [apply H3|]. unfold Metrics.total_configs. lia.
Qed.

(** ** More on prefixes of buckets *)

Section BucketsAgain.
Context {A K : Type} `{EqDecision K} (cls : A → option K).
Implicit Types (bs : list (K * list A)) (out : list A).

Lemma filter_prefix (P : A → Prop) `{∀ x, Decision (P x)} out l :
  out `prefix_of` l → filter P out `prefix_of` filter P l.
Proof. intros [k ->]. rewrite filter_app. by apply prefix_app_r. Qed.

Lemma filter_class_none bs k :
  filed cls bs → k ∉ bs.*1 → filter (λ x, cls x = Some k) (concat bs.*2) = [].
Proof. intros Hf Hk. apply filter_none. intros x Hx. by eapply filed_not_class. Qed.

(** Filtering the buckets laid end to end by the class of one key gives
    back the bucket of that key. *)
Lemma filter_class_bucket bs k l :
  filed cls bs → NoDup bs.*1 → (k, l) ∈ bs →
  filter (λ x, cls x = Some k) (concat bs.*2) = l.
Proof.
  intros Hf Hnd (bs1 & bs2 & ->)%list_elem_of_split.
  rewrite fmap_app, fmap_cons in Hnd. simpl in Hnd.
  apply NoDup_app in Hnd as (_ & Hdisj & [H2 _]%NoDup_cons).
  apply filed_app in Hf as [Hf1 Hf2].
  rewrite fmap_app, fmap_cons, concat_app. cbn [concat snd]. rewrite !filter_app.
  rewrite (filter_class_none bs1), (filter_class_none bs2), (filter_all _ l).
  - by rewrite app_nil_r.
  - intros x Hx. apply (Hf2 k l x); [by left|done].
  - intros k' l' x Hk'. apply Hf2. by right.
  - done.
  - done.
  - intros Hk. apply (Hdisj k Hk). by left.
Qed.

Lemma concat_nil_buckets (ks : list K) : concat ((λ _, ([] : list A)) <$> ks) = [].
Proof. induction ks as [|k ks IH]; [done|]. by rewrite fmap_cons. Qed.

(** Sorting a prefix of the buckets into buckets again, key by key, gives
    the prefix back. *)
Lemma regroup_prefix bs : ∀ out,
  filed cls bs → NoDup bs.*1 → out `prefix_of` concat bs.*2 →
  concat ((λ k, filter (λ x, cls x = Some k) out) <$> bs.*1) = out.
Proof.
  induction bs as [|[k l] bs IH]; intros out Hf Hnd Hpre.
  - simpl in Hpre. by apply prefix_nil_inv in Hpre as ->.
  - rewrite !fmap_cons in *. cbn [fst snd concat] in *.
    apply NoDup_cons in Hnd as [Hk Hnd].
    assert (Hf' : filed cls bs) by (intros k' l' x Hk'; apply Hf; by right).
    assert (Hl : ∀ x, x ∈ l → cls x = Some k) by (intros x; apply Hf; by left).
    destruct (prefix_weak_total out l _ Hpre) as [[rest ->]|[out' ->]];
      [by apply prefix_app_r| |].
    + assert (Hout : ∀ x, x ∈ out → cls x = Some k).
      { intros x Hx. apply Hl, elem_of_app. by left. }
      rewrite (filter_all _ out) by done.
      rewrite (list_fmap_ext _ (λ _, []) bs.*1); [by rewrite concat_nil_buckets, app_nil_r|].
      intros i k' Hk'. apply filter_none. intros x Hx Hc.
      rewrite (Hout x Hx) in Hc. injection Hc as ->.
      apply list_elem_of_lookup_2 in Hk'. by apply Hk.
    + apply prefix_app_inv in Hpre.
      assert (Hout' : ∀ x k', x ∈ out' → k' ∉ bs.*1 → cls x ≠ Some k').
      { intros x k' Hx Hk'. apply (filed_not_class cls bs k' x); [done..|].
        destruct Hpre as [s ->]. apply elem_of_app. by left. }
      rewrite filter_app, (filter_all _ l), (filter_none _ out'), app_nil_r;
        [|by intros x Hx; apply Hout'|done].
      f_equal. etrans; [|by apply (IH out')]. f_equal.
      apply list_fmap_ext. intros i k' Hk'. rewrite filter_app.
      rewrite (filter_none _ l); [done|].
      intros x Hx Hc. rewrite (Hl x Hx) in Hc. injection Hc as ->.
      apply list_elem_of_lookup_2 in Hk'. by apply Hk.
Qed.

End BucketsAgain.

Section BalanceMore.
Import FetchConfigs.
Context (config : ProxyConfig).
Implicit Types (configs : list string).

Local Abbreviation bucket_of configs :=
  (λ p : string, (p, filter (λ c, owner config c = Some p) configs)).
Local Abbreviation sorted_keys := (sorted_by_priority (SUPPORTED_PROTOCOLS config)).*1.

Lemma balance_protocols_elem configs x :
  x ∈ balance_protocols config configs → x ∈ configs ∧ is_Some (owner config x).
Proof.
  intros Hx. pose proof (balance_protocols_prefix config configs) as [k Hk].
  assert (Hin : x ∈ concat (bucket_of configs <$> sorted_keys).*2)
    by (rewrite Hk; apply elem_of_app; by left).
  rewrite keyed_snd in Hin. apply elem_of_concat in Hin as (l & Hl & Hin).
  apply list_elem_of_fmap in Hin as (p & -> & _).
  apply list_elem_of_filter in Hl as [Ho Hc]. split; [done|by exists p].
Qed.

Lemma balance_protocols_bucket_prefix configs p :
  wf_protocols config →
  filter (λ c, owner config c = Some p) (balance_protocols config configs)
  `prefix_of` filter (λ c, owner config c = Some p) configs.
Proof.
  intros Hwf.
  destruct (decide (p ∈ sorted_keys)) as [Hp|Hp].
  - rewrite <- (filter_class_bucket (owner config) (bucket_of configs <$> sorted_keys) p
                  (filter (λ c, owner config c = Some p) configs)).
    + apply filter_prefix, balance_protocols_prefix.
    + apply keyed_filed.
    + rewrite keyed_fst. by apply sorted_keys_NoDup.
    + apply list_elem_of_fmap. by exists p.
  - rewrite (filter_none _ (balance_protocols config configs)); [apply prefix_nil|].
    intros x _ Hx. by apply Hp, owner_in_sorted_keys with x.
Qed.

Lemma balance_protocols_idem configs :
  wf_protocols config →
  balance_protocols config (balance_protocols config configs)
  = balance_protocols config configs.
Proof.
  intros Hwf. rewrite (balance_protocols_buckets config (balance_protocols config configs)).
  pose proof (regroup_prefix (owner config) (bucket_of configs <$> sorted_keys)
                (balance_protocols config configs) (keyed_filed config configs _)) as H.
  rewrite keyed_fst in H. rewrite H.
  - apply take_ge, balance_protocols_length.
  - by apply sorted_keys_NoDup.
  - apply balance_protocols_prefix.
Qed.

(** The sort is stable: an entry that stands before another in the
    registry and has at least its priority stands before it after the
    sort. *)
Lemma insert_sorted_keeps x a b l1 l2 :
  b ∈ l2 →
  ∃ l1' l2', insert_sorted x (l1 ++ a :: l2) = l1' ++ a :: l2' ∧ b ∈ l2'.
Proof.
  intros Hb. induction l1 as [|y l1 IH]; simpl.
  - destruct (_ <=? _)%Z.
    + by exists [x], l2.
    + exists [], (insert_sorted x l2). split; [done|].
      rewrite insert_sorted_perm. by right.
  - destruct (_ <=? _)%Z.
    + by exists (x :: y :: l1), l2.
    + destruct IH as (l1' & l2' & -> & Hb'). by exists (y :: l1'), l2'.
Qed.

Lemma insert_sorted_first x b l :
  b ∈ l → (get_priority b.2 ≤ get_priority x.2)%Z →
  ∃ l1 l2, insert_sorted x l = l1 ++ x :: l2 ∧ b ∈ l2.
Proof.
  intros Hb Hle. induction l as [|y l IH]; [by apply elem_of_nil in Hb|].
  simpl. destruct (_ <=? _)%Z eqn:E.
  - by exists [], (y :: l).
  - apply Z.leb_gt in E. apply elem_of_cons in Hb as [->|Hb]; [lia|].
    destruct (IH Hb) as (l1 & l2 & -> & Hb'). by exists (y :: l1), l2.
Qed.

Lemma sorted_by_priority_stable items : ∀ l1 a l2 b,
  items = l1 ++ a :: l2 → b ∈ l2 → (get_priority b.2 ≤ get_priority a.2)%Z →
  ∃ s1 s2, sorted_by_priority items = s1 ++ a :: s2 ∧ b ∈ s2.
Proof.
  induction items as [|x items IH]; intros l1 a l2 b E Hb Hle.
  - by destruct l1.
  - simpl. destruct l1 as [|y l1]; simpl in E; injection E as -> ->.
    + apply insert_sorted_first; [|done]. by rewrite sorted_by_priority_perm.
    + destruct (IH l1 a l2 b eq_refl Hb Hle) as (s1 & s2 & -> & Hb').
      by apply insert_sorted_keeps.
Qed.

Lemma sorted_keys_split_stable A iA B iB :
  wf_protocols config →
  before (SUPPORTED_PROTOCOLS config) (A, iA) (B, iB) →
  (get_priority iB ≤ get_priority iA)%Z →
  ∃ ks1 ks2, sorted_keys = ks1 ++ A :: ks2
    ∧ A ≠ B ∧ (A ∉ ks1) ∧ (B ∉ ks1) ∧ (A ∉ ks2).
Proof.
  intros Hwf (i & j & Hi & Hj & Hlt) Hle.
  assert (HB : (B, iB) ∈ drop (S i) (SUPPORTED_PROTOCOLS config)).
  { apply (list_elem_of_lookup_2 _ (j - S i)). rewrite lookup_drop.
    by replace (S i + (j - S i)) with j by lia. }
  destruct (sorted_by_priority_stable (SUPPORTED_PROTOCOLS config) _ _ _ _
              (eq_sym (take_drop_middle _ i _ Hi)) HB Hle) as (s1 & s2 & E & HB2).
  exists (s1.*1), (s2.*1).
  assert (Hnd : NoDup (s1.*1 ++ A :: s2.*1)).
  { unfold wf_protocols in Hwf. rewrite <- (sorted_by_priority_perm _), E in Hwf.
    by rewrite fmap_app in Hwf. }
  split; [by rewrite E, fmap_app|].
  apply NoDup_app in Hnd as (_ & Hdisj & [HA2 _]%NoDup_cons).
  assert (HBk : B ∈ s2.*1) by (apply list_elem_of_fmap; by exists (B, iB)).
  split; [intros ->; done|]. split; [|split; [|done]].
  - intros H1. apply (Hdisj A H1). by left.
  - intros H1. apply (Hdisj B H1). by right.
Qed.

Lemma balance_protocols_order_stable configs A iA B iB i j a b :
  wf_protocols config →
  before (SUPPORTED_PROTOCOLS config) (A, iA) (B, iB) →
  (get_priority iB ≤ get_priority iA)%Z →
  balance_protocols config configs !! i = Some a →
  balance_protocols config configs !! j = Some b →
  owner config a = Some A → owner config b = Some B → i < j.
Proof.
  intros Hwf Hbefore Hle Hi Hj Ha Hb.
  destruct (sorted_keys_split_stable A iA B iB) as (ks1 & ks2 & E & Hne & HA1 & HB1 & HA2);
    [done..|].
  pose proof (balance_protocols_prefix config configs) as Hpre.
  pose proof (keyed_filed config configs (ks1 ++ A :: ks2)) as Hf.
  rewrite E in Hpre. rewrite fmap_app, fmap_cons in Hpre, Hf.
  eapply (prefix_order (owner config)); [exact Hf|..|exact Hpre|exact Hi|exact Hj|done|done];
    rewrite ?keyed_fst; done.
Qed.

End BalanceMore.

(** X14. [balance_protocols] invents nothing and keeps the order of arrival
    inside a protocol: every record of its output is a record of its input
    that starts with a key of the registry, and the output records of one
    protocol are an initial segment of the input records of that protocol,
    in the input order, duplicates included. *)
Theorem balance_protocols_keeps_arrival_order (config : ProxyConfig)
    (configs : list string) :
  wf_protocols config →
  (∀ x, x ∈ FetchConfigs.balance_protocols config configs →
        x ∈ configs ∧ is_Some (owner config x))
  ∧ (∀ p, filter (λ c, owner config c = Some p)
            (FetchConfigs.balance_protocols config configs)
          `prefix_of` filter (λ c, owner config c = Some p) configs).
Proof.
  intros Hwf. split.
  - intros x. apply balance_protocols_elem.
  - intros p. by apply balance_protocols_bucket_prefix.
Qed.

Lemma balance_protocols_keeps_arrival_order_witness :
  FetchConfigs.balance_protocols Sample.config ("tuic://z@h:9" :: Sample.merged)
  = ["vless://a@h:1"; "vless://d@h:4"; "hysteria2://e@h:5"; "trojan://b@h:2";
     "ss://c@h:3"]
  ∧ filter (λ c, owner Sample.config c = Some "vless://")
      (FetchConfigs.balance_protocols Sample.config ("tuic://z@h:9" :: Sample.merged))
    `prefix_of` filter (λ c, owner Sample.config c = Some "vless://")
                  ("tuic://z@h:9" :: Sample.merged).
Proof.
  split; [vm_compute; reflexivity|].
  exact (proj2 (balance_protocols_keeps_arrival_order Sample.config
                  ("tuic://z@h:9" :: Sample.merged) sample_wf) "vless://").
Defined.

(** X15. The sort of [balance_protocols] is stable: of two protocols, the
    one that stands first in the registry and has at least the priority of
    the other (equal priorities included) has all its records placed before
    every record of the other. *)
Theorem balance_protocols_ties_follow_registry (config : ProxyConfig)
    (configs : list string) (A : string) (iA : protocol_info) (B : string)
    (iB : protocol_info) (i j : nat) (a b : string) :
  wf_protocols config →
  before (SUPPORTED_PROTOCOLS config) (A, iA) (B, iB) →
  (get_priority iB ≤ get_priority iA)%Z →
  FetchConfigs.balance_protocols config configs !! i = Some a →
  FetchConfigs.balance_protocols config configs !! j = Some b →
  owner config a = Some A → owner config b = Some B →
  i < j.
Proof. apply balance_protocols_order_stable. Qed.

Lemma balance_protocols_ties_follow_registry_witness :
  get_priority {| info_aliases := None; info_priority := Some 2%Z |}
  = get_priority {| info_aliases := Some ["hy2://"]; info_priority := Some 2%Z |}
  ∧ FetchConfigs.balance_protocols Sample.config Sample.merged !! 2
    = Some "hysteria2://e@h:5"
  ∧ FetchConfigs.balance_protocols Sample.config Sample.merged !! 3
    = Some "trojan://b@h:2"
  ∧ 2 < 3.
Proof.
  split; [reflexivity|]. split; [vm_compute; reflexivity|].
  split; [vm_compute; reflexivity|].
  apply (balance_protocols_ties_follow_registry Sample.config Sample.merged
           "hysteria2://" {| info_aliases := Some ["hy2://"]; info_priority := Some 2%Z |}
           "trojan://" {| info_aliases := None; info_priority := Some 2%Z |}
           2 3 "hysteria2://e@h:5" "trojan://b@h:2" sample_wf).
  - exists 2, 3. split; [reflexivity|]. split; [reflexivity|lia].
  - vm_compute. discriminate.
  - vm_compute. reflexivity.
  - vm_compute. reflexivity.
  - vm_compute. reflexivity.
  - vm_compute. reflexivity.
Defined.

(** X16. [balance_protocols] is idempotent: balancing an already balanced
    list gives the same list back. *)
Theorem balance_protocols_idempotent (config : ProxyConfig) (configs : list string) :
  wf_protocols config →
  FetchConfigs.balance_protocols config (FetchConfigs.balance_protocols config configs)
  = FetchConfigs.balance_protocols config configs.
Proof. apply balance_protocols_idem. Qed.

Lemma balance_protocols_idempotent_witness :
  FetchConfigs.balance_protocols Sample.config
    (FetchConfigs.balance_protocols Sample.config Sample.merged)
  = FetchConfigs.balance_protocols Sample.config Sample.merged.
Proof. exact (balance_protocols_idempotent Sample.config Sample.merged sample_wf). Defined.

(** ** The ranking loop in closed form *)

Section RankClosed.
Import Config.
Implicit Types (configs sf : list string) (limit : Z).

Lemma first_occurrences_filter (Q : string → Prop) `{∀ x, Decision (Q x)} l :
  first_occurrences (filter Q l) = filter Q (first_occurrences l).
Proof.
  induction l as [|x l IH]; [done|]. simpl.
  destruct (decide (Q x)) as [Hq|Hq].
  - rewrite !filter_cons_True by done. simpl. f_equal.
    rewrite IH, !list_filter_filter. apply list_filter_iff. intros y. naive_solver.
  - rewrite !filter_cons_False by done.
    rewrite IH, list_filter_filter. apply list_filter_iff.
    intros y. split; [|naive_solver]. intros Hy. split; [done|]. by intros ->.
Qed.

Lemma elem_of_first_occurrences l x : x ∈ first_occurrences l ↔ x ∈ l.
Proof.
  induction l as [|y l IH]; [done|]. simpl.
  rewrite !elem_of_cons, list_elem_of_filter, IH.
  destruct (decide (x = y)); naive_solver.
Qed.

Lemma NoDup_first_occurrences l : NoDup (first_occurrences l).
Proof.
  induction l as [|y l IH]; simpl; [constructor|].
  apply NoDup_cons. split.
  - by intros [? _]%list_elem_of_filter.
  - by apply NoDup_filter.
Qed.

Lemma first_occurrences_NoDup l : NoDup l → first_occurrences l = l.
Proof.
  induction l as [|y l IH]; [done|]. intros [Hy Hnd]%NoDup_cons. simpl.
  rewrite IH by done. f_equal. apply filter_all. by intros x Hx ->.
Qed.

(** One pass of the inner loop appends the records ranked under [p] that
    the list does not hold yet, each once, in the order of arrival. *)
Lemma append_matching_closed p configs : ∀ sf,
  append_matching p configs sf
  = sf ++ first_occurrences (filter (λ c, ranked_as p c = true ∧ c ∉ sf) configs).
Proof.
  induction configs as [|c configs IH]; intros sf; simpl.
  - by rewrite app_nil_r.
  - destruct (ranked_as p c && negb (bool_decide (c ∈ sf))) eqn:E.
    + apply andb_true_iff in E as [Hr Hn].
      apply negb_true_iff, bool_decide_eq_false in Hn.
      rewrite filter_cons_True by done. simpl.
      rewrite IH, <- app_assoc. simpl. do 2 f_equal.
      rewrite <- first_occurrences_filter, list_filter_filter. f_equal.
      apply list_filter_iff. intros y. rewrite elem_of_app, list_elem_of_singleton.
      naive_solver.
    + rewrite filter_cons_False; [apply IH|].
      intros [Hr Hn]. rewrite Hr in E. simpl in E.
      apply negb_false_iff, bool_decide_eq_true in E. done.
Qed.

Lemma append_matching_bucket p configs sf :
  (∀ x, x ∈ sf → ranked_as p x = false) →
  append_matching p configs sf = sf ++ rank_bucket configs p.
Proof.
  intros Hsf. rewrite append_matching_closed. unfold rank_bucket. do 2 f_equal.
  apply list_filter_iff. intros y. split; [naive_solver|]. intros Hy. split; [done|].
  intros Hin. apply Hsf in Hin. congruence.
Qed.

(** The outer loop returns an initial segment of all the buckets laid end
    to end, and it stops early only with [limit] records or more. *)
Lemma rank_loop_closed configs limit ps : ∀ sf,
  NoDup ps → (∀ p, p ∈ ps → p ∈ priority) →
  (∀ p x, p ∈ ps → x ∈ sf → ranked_as p x = false) →
  rank_loop ps configs limit sf `prefix_of` sf ++ concat (rank_bucket configs <$> ps)
  ∧ ((limit ≤ Z.of_nat (length (rank_loop ps configs limit sf)))%Z
     ∨ rank_loop ps configs limit sf = sf ++ concat (rank_bucket configs <$> ps)).
Proof.
  induction ps as [|p ps IH]; intros sf Hnd Hps Hsf.
  - simpl. rewrite app_nil_r. split; [done|by right].
  - apply NoDup_cons in Hnd as [Hp Hnd]. rewrite fmap_cons. cbn [rank_loop concat].
    rewrite (append_matching_bucket p configs sf)
      by (intros x Hx; apply (Hsf p x); [by left|done]).
    rewrite (app_assoc sf).
    destruct (limit <=? _)%Z eqn:E.
    + apply Z.leb_le in E. split; [by apply prefix_app_r|by left].
    + apply IH; [done|by intros q Hq; apply Hps; right|].
      intros q x Hq [Hx|Hx]%elem_of_app; [apply (Hsf q x); [by right|done]|].
      apply elem_of_first_occurrences, list_elem_of_filter in Hx as [Hx _].
      destruct (ranked_as q x) eqn:Eq; [|done]. exfalso.
      assert (q = p); [|by subst].
      apply (ranked_as_exclusive q p x); [apply Hps; by right|apply Hps; by left|done..].
Qed.

Lemma rank_loop_priority configs limit :
  rank_loop priority configs limit []
  `prefix_of` concat (rank_bucket configs <$> priority)
  ∧ ((limit ≤ Z.of_nat (length (rank_loop priority configs limit [])))%Z
     ∨ rank_loop priority configs limit [] = concat (rank_bucket configs <$> priority)).
Proof.
  apply (rank_loop_closed configs limit priority []);
    [apply priority_NoDup|done|by intros p x _ ?%elem_of_nil].
Qed.

Lemma rank_and_filter_closed configs limit :
  (0 ≤ limit)%Z →
  rank_and_filter configs limit
  = take (Z.to_nat limit) (concat (rank_bucket configs <$> priority)).
Proof.
  intros Hl. unfold rank_and_filter, Py.slice_to.
  rewrite (proj2 (Z.leb_le 0 limit)) by done.
  destruct (rank_loop_priority configs limit) as [[k Hk] [Hlen| ->]]; [|done].
  rewrite Hk. symmetry. apply take_app_le. lia.
Qed.

(** With a negative limit the loop stops after its first pass. *)
Lemma rank_and_filter_negative configs limit :
  (limit < 0)%Z →
  rank_and_filter configs limit
  = take (length (rank_bucket configs "vless://") - Z.to_nat (- limit))
      (rank_bucket configs "vless://").
Proof.
  intros Hl. unfold rank_and_filter, Py.slice_to.
  rewrite (proj2 (Z.leb_gt 0 limit)) by done.
  unfold priority. cbn [rank_loop].
  rewrite (append_matching_bucket "vless://" configs []) by (by intros x ?%elem_of_nil).
  rewrite app_nil_l.
  rewrite (proj2 (Z.leb_le limit _)) by lia. done.
Qed.

End RankClosed.

Section RankAgain.
Import Config.
Implicit Types (configs out : list string) (limit : Z).

Local Abbreviation rank_keyed configs := (λ p : string, (p, rank_bucket configs p)).

Lemma rank_keyed_fst configs (keys : list string) : (rank_keyed configs <$> keys).*1 = keys.
Proof. rewrite <- list_fmap_compose. apply list_fmap_id. Qed.

Lemma rank_keyed_snd configs (keys : list string) :
  (rank_keyed configs <$> keys).*2 = rank_bucket configs <$> keys.
Proof. by rewrite <- list_fmap_compose. Qed.

Lemma rank_keyed_filed configs : filed rank_of (rank_keyed configs <$> priority).
Proof.
  intros k l x (p & [= -> ->] & Hp)%list_elem_of_fmap Hx.
  apply elem_of_first_occurrences, list_elem_of_filter in Hx as [Hx _].
  by apply rank_of_ranked_as.
Qed.

Lemma rank_bucket_NoDup out p :
  p ∈ priority → NoDup out →
  rank_bucket out p = filter (λ x, rank_of x = Some p) out.
Proof.
  intros Hp Hnd. unfold rank_bucket.
  rewrite first_occurrences_NoDup by (by apply NoDup_filter).
  apply list_filter_iff. intros x. split.
  - by apply rank_of_ranked_as.
  - by intros [_ ?]%first_key_Some.
Qed.

Lemma rank_and_filter_idem configs limit :
  (0 ≤ limit)%Z →
  rank_and_filter (rank_and_filter configs limit) limit = rank_and_filter configs limit.
Proof.
  intros Hl. rewrite (rank_and_filter_closed (rank_and_filter configs limit)) by done.
  pose proof (rank_and_filter_NoDup configs limit) as Hnd.
  pose proof (rank_and_filter_length configs limit Hl) as Hlen.
  assert (Hpre : rank_and_filter configs limit
                 `prefix_of` concat (rank_keyed configs <$> priority).*2).
  { rewrite rank_keyed_snd, rank_and_filter_closed by done. apply prefix_take. }
  pose proof (regroup_prefix rank_of (rank_keyed configs <$> priority)
                (rank_and_filter configs limit) (rank_keyed_filed configs)) as H.
  rewrite rank_keyed_fst in H.
  rewrite (list_fmap_ext (rank_bucket (rank_and_filter configs limit))
             (λ k, filter (λ x, rank_of x = Some k) (rank_and_filter configs limit))
             priority).
  - rewrite H; [apply take_ge; lia|apply priority_NoDup|done].
  - intros i p Hp. apply rank_bucket_NoDup; [by eapply list_elem_of_lookup_2|done].
Qed.

End RankAgain.

(** X17. The early [break] of [rank_and_filter] changes nothing: for a
    limit that is not negative the result is the first [limit] records of
    the five buckets laid end to end in the order of the list [priority],
    where a bucket holds the merged records ranked under its entry, each
    once, in the order of first arrival. *)
Theorem rank_and_filter_closed_form (configs : list string) (limit : Z) :
  (0 ≤ limit)%Z →
  Config.rank_and_filter configs limit
  = take (Z.to_nat limit) (concat (rank_bucket configs <$> Config.priority)).
Proof. apply rank_and_filter_closed. Qed.

Lemma rank_and_filter_closed_form_witness :
  Config.rank_and_filter ("vless://a@h:1" :: Sample.merged) 3
  = take (Z.to_nat 3)
      (concat (rank_bucket ("vless://a@h:1" :: Sample.merged) <$> Config.priority))
  ∧ Config.rank_and_filter ("vless://a@h:1" :: Sample.merged) 3
    = ["vless://a@h:1"; "vless://d@h:4"; "trojan://b@h:2"].
Proof.
  split; [|vm_compute; reflexivity].
  apply (rank_and_filter_closed_form ("vless://a@h:1" :: Sample.merged) 3). lia.
Defined.

(** X18. With a negative limit [rank_and_filter] stops after its first
    pass and the slice counts from the end: the result is the bucket of
    [vless://] without its last [-limit] records, and no record of another
    protocol. *)
Theorem rank_and_filter_negative_limit_keeps_vless_only (configs : list string)
    (limit : Z) :
  (limit < 0)%Z →
  Config.rank_and_filter configs limit
  = take (length (rank_bucket configs "vless://") - Z.to_nat (- limit))
      (rank_bucket configs "vless://").
Proof. apply rank_and_filter_negative. Qed.

Lemma rank_and_filter_negative_limit_keeps_vless_only_witness :
  Config.rank_and_filter Sample.merged (-1)
  = take (length (rank_bucket Sample.merged "vless://") - Z.to_nat (- (-1)))
      (rank_bucket Sample.merged "vless://")
  ∧ Config.rank_and_filter Sample.merged (-1) = ["vless://a@h:1"].
Proof.
  split; [|vm_compute; reflexivity].
  apply (rank_and_filter_negative_limit_keeps_vless_only Sample.merged (-1)). lia.
Defined.

(** X19. [rank_and_filter] is idempotent for a limit that is not negative:
    ranking an already ranked list under the same limit gives it back. *)
Theorem rank_and_filter_idempotent (configs : list string) (limit : Z) :
  (0 ≤ limit)%Z →
  Config.rank_and_filter (Config.rank_and_filter configs limit) limit
  = Config.rank_and_filter configs limit.
Proof. apply rank_and_filter_idem. Qed.

Lemma rank_and_filter_idempotent_witness :
  Config.rank_and_filter (Config.rank_and_filter Sample.merged 3) 3
  = Config.rank_and_filter Sample.merged 3.
Proof. apply (rank_and_filter_idempotent Sample.merged 3). lia. Defined.

(** ** What the optimized fetcher accepts *)

Section Tokens.
Import Text Config.

Lemma startswith_lower q : ∀ s,
  startswith s q = true → startswith (lower s) (lower q) = true.
Proof.
  induction q as [|a q IH]; intros s; [done|].
  destruct s as [|b s]; simpl; [done|].
  destruct (decide (a = b)) as [->|]; [|done].
  intros H. rewrite decide_True by done. by apply IH.
Qed.

Lemma ranked_as_lower p c :
  p ∈ priority → ranked_as p c = true → ranked_as p (lower c) = true.
Proof.
  intros Hp. unfold ranked_as. intros [H|[Hd H]%andb_true_iff]%orb_true_iff.
  - apply startswith_lower in H. apply orb_true_iff. left.
    replace (lower p) with p in H; [done|].
    unfold priority in Hp.
    repeat (apply elem_of_cons in Hp as [->|Hp]); [done..|by apply elem_of_nil in Hp].
  - apply startswith_lower in H. apply orb_true_iff. right.
    apply andb_true_iff. split; [done|exact H].
Qed.

(** A bare scheme name is ranked under no entry of [priority]. *)
Lemma token_unranked raw : lower raw ∈ protocol_pattern → rank_of raw = None.
Proof.
  intros Hraw. destruct (rank_of raw) as [p|] eqn:E; [|done]. exfalso.
  apply first_key_Some in E as [Hp Hr].
  apply ranked_as_lower in Hr; [|done].
  revert Hraw Hp Hr. generalize (lower raw). intros t Ht Hp Hr.
  unfold protocol_pattern in Ht. unfold priority in Hp.
  repeat (apply elem_of_cons in Ht as [->|Ht]); [..|by apply elem_of_nil in Ht];
    repeat (apply elem_of_cons in Hp as [->|Hp]); try (by apply elem_of_nil in Hp);
    vm_compute in Hr; discriminate.
Qed.

Lemma no_space_lower s : no_space (lower s) = true → no_space s = true.
Proof.
  induction s as [|c s IH]; [done|]. simpl.
  intros [Hc Hs]%andb_true_iff. apply andb_true_iff. split; [|by apply IH].
  destruct (isspace c) eqn:E; [|done].
  by rewrite (lower_char_space c E), E in Hc.
Qed.

Lemma rstrip_no_space s : no_space s = true → rstrip s = s.
Proof.
  induction s as [|c s IH]; [done|]. simpl.
  intros [Hc Hs]%andb_true_iff. rewrite (IH Hs).
  apply negb_true_iff in Hc. rewrite Hc. by destruct s.
Qed.

Lemma strip_no_space s : no_space s = true → strip s = s.
Proof.
  intros H. unfold strip. destruct s as [|c s]; [done|].
  pose proof H as H'. simpl in H'. apply andb_true_iff in H' as [Hc _].
  apply negb_true_iff in Hc. cbn [lstrip]. rewrite Hc. by apply rstrip_no_space.
Qed.

Lemma strip_token raw : lower raw ∈ protocol_pattern → strip raw = raw.
Proof.
  intros Hraw. apply strip_no_space, no_space_lower.
  pose proof optimized_pattern_no_space as H. rewrite Forall_forall in H. by apply H.
Qed.

End Tokens.

Section Accepted.
Import Text Config.
Context (config : ProxyConfig) (validator : ConfigValidator) (settings : UserSettings).
Context (fresh_text : string → string).

Lemma found_loop_accepts found : ∀ configs seen,
  ∃ new, (found_loop config validator found configs seen).1 = configs ++ new
    ∧ ∀ c, c ∈ new →
        is_protocol_enabled config (proto_of c) = Py.Ok true
        ∧ ∃ raw, raw ∈ found ∧ clean_config validator (strip raw) = Py.Ok c.
Proof.
  induction found as [|raw found IH]; intros configs seen.
  - exists []. rewrite app_nil_r. split; [done|]. by intros c ?%elem_of_nil.
  - cbn [found_loop].
    assert (Hstop : ∃ new : list string, configs = configs ++ new
              ∧ ∀ c, c ∈ new →
                  is_protocol_enabled config (proto_of c) = Py.Ok true
                  ∧ ∃ raw0, raw0 ∈ raw :: found
                      ∧ clean_config validator (strip raw0) = Py.Ok c).
    { exists []. rewrite app_nil_r. split; [done|]. by intros c ?%elem_of_nil. }
    destruct (clean_config validator (strip raw)) as [clean|] eqn:Ec; [|exact Hstop].
    destruct (is_protocol_enabled config (proto_of clean)) as [on|] eqn:Eo; [|exact Hstop].
    destruct (on && negb (bool_decide (clean ∈ seen))) eqn:E.
    + apply andb_true_iff in E as [-> _].
      destruct (IH (configs ++ [clean]) ({[clean]} ∪ seen)) as (new & -> & Hnew).
      exists (clean :: new). rewrite <- app_assoc. split; [done|].
      intros c [->|Hc]%elem_of_cons.
      * split; [done|]. exists raw. split; [by left|done].
      * destruct (Hnew c Hc) as (? & raw0 & ? & ?). split; [done|].
        exists raw0. split; [by right|done].
    + destruct (IH configs seen) as (new & -> & Hnew).
      exists new. split; [done|]. intros c Hc.
      destruct (Hnew c Hc) as (? & raw0 & ? & ?). split; [done|].
      exists raw0. split; [by right|done].
Qed.

Lemma fetch_from_channel_accepts net channel seen c :
  c ∈ (fetch_from_channel config validator fresh_text net channel seen).1 →
  enabled channel = true
  ∧ (∃ text, net (url channel) 0 = Response 200 text)
  ∧ is_protocol_enabled config (proto_of c) = Py.Ok true
  ∧ ∃ raw, lower raw ∈ protocol_pattern ∧ clean_config validator raw = Py.Ok c.
Proof.
  unfold fetch_from_channel.
  destruct (enabled channel); simpl; [|by intros ?%elem_of_nil].
  destruct (net (url channel) 0) as [status text|]; [|by intros ?%elem_of_nil].
  unfold status_ok. destruct (bool_decide (status = 200%Z)) eqn:Es; simpl;
    [|by intros ?%elem_of_nil].
  apply bool_decide_eq_true in Es as ->.
  destruct (found_loop_accepts (Regex.findall protocol_pattern (fresh_text text)) [] seen)
    as (new & -> & Hnew).
  simpl. intros Hc. destruct (Hnew c Hc) as (Hon & raw & Hraw & Hclean).
  split; [done|]. split; [by exists text|]. split; [done|].
  assert (Htok : lower raw ∈ protocol_pattern).
  { pose proof (findall_skip_groups protocol_pattern (fresh_text text) 0) as H.
    rewrite Forall_forall in H. by apply H. }
  exists raw. split; [done|]. by rewrite <- (strip_token raw Htok).
Qed.

Lemma fetch_from_channel_found net channel seen c :
  c ∈ (fetch_from_channel config validator fresh_text net channel seen).1 →
  enabled channel = true
  ∧ is_protocol_enabled config (proto_of c) = Py.Ok true
  ∧ ∃ text raw,
      net (url channel) 0 = Response 200 text
      ∧ raw ∈ Regex.findall protocol_pattern (fresh_text text)
      ∧ lower raw ∈ protocol_pattern
      ∧ strip raw = raw
      ∧ clean_config validator (strip raw) = Py.Ok c.
Proof.
  unfold fetch_from_channel.
  destruct (enabled channel); simpl; [|by intros ?%elem_of_nil].
  destruct (net (url channel) 0) as [status text|]; [|by intros ?%elem_of_nil].
  unfold status_ok. destruct (bool_decide (status = 200%Z)) eqn:Es; simpl;
    [|by intros ?%elem_of_nil].
  apply bool_decide_eq_true in Es as ->.
  destruct (found_loop_accepts (Regex.findall protocol_pattern (fresh_text text)) [] seen)
    as (new & -> & Hnew).
  simpl. intros Hc. destruct (Hnew c Hc) as (Hon & raw & Hraw & Hclean).
  split; [done|]. split; [done|].
  assert (Htok : lower raw ∈ protocol_pattern).
  { pose proof (findall_skip_groups protocol_pattern (fresh_text text) 0) as H.
    rewrite Forall_forall in H. by apply H. }
  exists text, raw. split; [done|]. split; [done|]. split; [done|].
  split; [by apply strip_token|done].
Qed.

Lemma map_channels_accepts net channels : ∀ seen c,
  c ∈ concat (map_channels config validator fresh_text net channels seen).1 →
  is_protocol_enabled config (proto_of c) = Py.Ok true
  ∧ ∃ raw, lower raw ∈ protocol_pattern ∧ clean_config validator raw = Py.Ok c.
Proof.
  induction channels as [|channel channels IH]; intros seen c;
    [by intros ?%elem_of_nil|].
  cbn [map_channels].
  pose proof (fetch_from_channel_accepts net channel seen c) as H1.
  destruct (fetch_from_channel _ _ _ _ _ _) as [configs seen1].
  pose proof (IH seen1 c) as H2.
  destruct (map_channels _ _ _ _ _ _) as [results seen2].
  simpl in *. intros [Hc|Hc]%elem_of_app; [|by apply H2].
  by destruct (H1 Hc) as (_ & _ & ? & ?).
Qed.

Lemma rank_and_filter_elem configs limit x :
  x ∈ rank_and_filter configs limit → x ∈ configs ∧ is_Some (rank_of x).
Proof.
  intros Hx. destruct (rank_and_filter_buckets configs limit)
    as (bs & _ & _ & [k Hk] & _ & _ & Hmem).
  apply Hmem. rewrite Hk. apply elem_of_app. by left.
Qed.

Lemma get_all_elem net c :
  c ∈ get_all config validator settings fresh_text net →
  is_Some (rank_of c)
  ∧ is_protocol_enabled config (proto_of c) = Py.Ok true
  ∧ ∃ raw, lower raw ∈ protocol_pattern ∧ clean_config validator raw = Py.Ok c
      ∧ c ≠ raw.
Proof.
  unfold get_all.
  pose proof (map_channels_accepts net (get_enabled_channels config) ∅ c) as H.
  destruct (map_channels _ _ _ _ _ _) as [results seen].
  simpl in H. intros [Hc Hr]%rank_and_filter_elem.
  destruct (H Hc) as (Hon & raw & Htok & Hclean).
  split; [done|]. split; [done|]. exists raw. split; [done|]. split; [done|].
  intros ->. rewrite (token_unranked raw Htok) in Hr. by destruct Hr.
Qed.

Lemma get_all_nothing net :
  (∀ raw, lower raw ∈ protocol_pattern → clean_config validator raw = Py.Ok raw) →
  get_all config validator settings fresh_text net = [].
Proof.
  intros Hid. destruct (get_all _ _ _ _ _) as [|c l] eqn:E; [done|]. exfalso.
  destruct (get_all_elem net c) as (_ & _ & raw & Htok & Hclean & Hne).
  - rewrite E. by left.
  - rewrite (Hid raw Htok) in Hclean. by injection Hclean as ->.
Qed.

End Accepted.

(** X20. What [fetch_from_channel] of the optimized fetcher returns, also
    when an exception ends its loop early: configs that are pairwise
    distinct and were not in the shared set, with the set grown by exactly
    them.  A channel returns something only when it is enabled and its one
    request was answered with status 200; and each returned config has a
    protocol key that [is_protocol_enabled] accepts and is what
    [clean_config] made of a candidate that the scan found in the fresh
    text of that very page, the candidate being a bare scheme name with no
    white space to strip. *)
Theorem optimized_channel_result (config : ProxyConfig) (validator : ConfigValidator)
    (fresh_text : string → string) (net : network) (channel : ChannelConfig)
    (seen seen' : gset string) (configs : list string) :
  Config.fetch_from_channel config validator fresh_text net channel seen
  = (configs, seen') →
  NoDup configs
  ∧ seen' = list_to_set configs ∪ seen
  ∧ ∀ c, c ∈ configs →
      (c ∉ seen)
      ∧ enabled channel = true
      ∧ is_protocol_enabled config (Config.proto_of c) = Py.Ok true
      ∧ ∃ text raw,
          net (url channel) 0 = Response 200 text
          ∧ raw ∈ Regex.findall Config.protocol_pattern (fresh_text text)
          ∧ Text.lower raw ∈ Config.protocol_pattern
          ∧ Text.strip raw = raw
          ∧ clean_config validator (Text.strip raw) = Py.Ok c.
Proof.
  intros E.
  pose proof (fetch_from_channel_inv config validator fresh_text seen [] net channel seen
                (run_inv_from seen)) as (Hnd & Hseen & Hnew).
  rewrite E in Hnd, Hseen, Hnew. simpl in Hnd, Hseen, Hnew.
  split; [done|]. split; [done|]. intros c Hc. split; [by apply Hnew|].
  apply (fetch_from_channel_found config validator fresh_text net channel seen c).
  by rewrite E.
Qed.

Lemma optimized_channel_result_witness :
  Config.fetch_from_channel Sample.config Sample.validator id Sample.net
    {| url := "https://t.me/s/two"; enabled := true; is_telegram := false |} {["trojan"]}
  = (["vless"; "ss"], list_to_set ["vless"; "ss"; "trojan"])
  ∧ ∃ text raw,
      Sample.net "https://t.me/s/two" 0 = Response 200 text
      ∧ raw ∈ Regex.findall Config.protocol_pattern (id text)
      ∧ Text.lower raw ∈ Config.protocol_pattern
      ∧ Text.strip raw = raw
      ∧ clean_config Sample.validator (Text.strip raw) = Py.Ok "ss".
Proof.
  assert (E : Config.fetch_from_channel Sample.config Sample.validator id Sample.net
                {| url := "https://t.me/s/two"; enabled := true; is_telegram := false |}
                {["trojan"]}
              = (["vless"; "ss"], list_to_set ["vless"; "ss"; "trojan"]))
    by (vm_compute; reflexivity).
  split; [exact E|].
  destruct (proj2 (proj2 (optimized_channel_result _ _ _ _ _ _ _ _ E)) "ss")
    as (_ & _ & _ & H); [by right; left|exact H].
Defined.

(** X21. Every record that [get_all] returns was made by [clean_config]
    from a bare scheme name and differs from it: the candidates are the
    texts of the capturing group, which [rank_and_filter] ranks under no
    entry of its list.  So with a validator whose [clean_config] returns
    scheme names as they are, [get_all] returns the empty list, whatever the
    channels hold. *)
Theorem get_all_needs_rewriting_validator (config : ProxyConfig)
    (validator : ConfigValidator) (settings : UserSettings)
    (fresh_text : string → string) (net : network) :
  (∀ c, c ∈ Config.get_all config validator settings fresh_text net →
        ∃ raw, Text.lower raw ∈ Config.protocol_pattern
          ∧ clean_config validator raw = Py.Ok c ∧ c ≠ raw)
  ∧ ((∀ raw, Text.lower raw ∈ Config.protocol_pattern →
             clean_config validator raw = Py.Ok raw) →
     Config.get_all config validator settings fresh_text net = []).
Proof.
  split.
  - intros c Hc.
    by destruct (get_all_elem config validator settings fresh_text net c Hc) as (_ & _ & ?).
  - apply get_all_nothing.
Qed.

Lemma get_all_needs_rewriting_validator_witness :
  Config.get_all Sample.config Sample.validator Sample.settings id Sample.net = [].
Proof.
  apply (proj2 (get_all_needs_rewriting_validator Sample.config Sample.validator
                  Sample.settings id Sample.net)).
  intros raw _. reflexivity.
Defined.

(** ** The connection test *)

Section Liveness.
Import Text Py Alive.

Lemma port_match_head s group len :
  port_match s = Some (group, len) → ∃ r, group = String Ascii.zero r.
Proof.
  unfold port_match.
  destruct (after_prefix _ s) as [r|]; cbn [mbind option_bind]; [|done].
  destruct (truthy (brackets r)); [|done].
  intros [= <- _]. unfold port_group_head. rewrite append_cons. by eexists.
Qed.

Lemma port_findall_skip_head s : ∀ skip,
  Forall (λ g, ∃ r, g = String Ascii.zero r) (port_findall_skip skip s).
Proof.
  induction s as [|c s IH]; intros skip; cbn [port_findall_skip]; [constructor|].
  destruct skip as [|k]; [|apply IH].
  destruct (port_match (String c s)) as [[group len]|] eqn:E; [|apply IH].
  constructor; [by eapply port_match_head|apply IH].
Qed.

Lemma rstrip_head_zero r : ∃ r', rstrip (String Ascii.zero r) = String Ascii.zero r'.
Proof. cbn [rstrip]. destruct (rstrip r); by eexists. Qed.

(** [int] raises on a text that begins with the character of code 0. *)
Lemma py_int_zero r : py_int (String Ascii.zero r) = Raised.
Proof.
  unfold py_int, strip. cbn [lstrip]. change (isspace Ascii.zero) with false. cbn iota.
  destruct (rstrip_head_zero r) as [r' ->]. reflexivity.
Qed.

Lemma is_alive_false connect config_url : is_alive connect config_url = false.
Proof.
  unfold is_alive. destruct (1 <? _)%nat; [|done].
  pose proof (port_findall_skip_head
                (default EmptyString (split_char "@" config_url !! 1)) 0) as H.
  fold (port_findall (default EmptyString (split_char "@" config_url !! 1))) in H.
  destruct (port_findall _) as [|first_port more]; [done|].
  apply Forall_cons in H as [[r ->] _].
  destruct (truthy _); [|done].
  by rewrite py_int_zero.
Qed.

End Liveness.

(** X22. [is_alive] answers [False] for every config and never gets to open
    a connection, whatever the server: the port pattern is written with a
    backslash and a zero where an opening bracket was meant, so the text it
    finds begins with the character of code 0 and [int] raises on it. *)
Theorem is_alive_never_true (connect : string → Z → bool) (config_url : string) :
  Alive.is_alive connect config_url = false.
Proof. apply is_alive_false. Qed.

(** ** The pool under any schedule *)

Section AnySchedule.
Import Threads.
Implicit Types (p : pool) (t : task) (seen : gset string).

Lemma task_inv_mono seen seen' orig t :
  seen ⊆ seen' → task_inv seen orig t → task_inv seen' orig t.
Proof.
  intros Hsub (consumed & E & Hsl & Hnd & Hacc & Hcons).
  exists consumed. split; [done|]. split; [done|]. split; [done|].
  split; [by intros c ?%Hacc%Hsub|].
  intros c [?|?]%Hcons; [left; by apply Hsub|by right].
Qed.

Lemma step_task_inv seen orig t :
  task_inv seen orig t →
  task_inv (step_task seen t).1 orig (step_task seen t).2
  ∧ seen ⊆ (step_task seen t).1
  ∧ (∀ c, c ∈ (step_task seen t).1 → c ∈ seen ∨ c ∈ accepted (step_task seen t).2)
  ∧ (∀ c, c ∈ accepted t → c ∈ accepted (step_task seen t).2).
Proof.
  destruct t as [pend pas acc]. intros (consumed & E & Hsl & Hnd & Hacc & Hcons).
  unfold step_task. cbn [pending passed accepted] in *.
  destruct pas as [c|]; [|destruct pend as [|c more]; [|destruct (bool_decide_reflect (c ∈ seen))]];
    cbn [fst snd pending passed accepted option_list] in *.
  - split; [|split; [set_solver|split]].
    + exists consumed. cbn [pending passed accepted option_list].
      rewrite app_nil_r. split; [done|]. split; [done|]. split; [done|]. split.
      * intros c' [?%Hacc| ->%list_elem_of_singleton]%elem_of_app; set_solver.
      * intros c' [?|[= ->]]%Hcons; left; set_solver.
    + intros c' [->%elem_of_singleton|?]%elem_of_union; [right|by left].
      apply elem_of_app. right. by left.
    + intros c' ?. apply elem_of_app. by left.
  - split; [|split; [done|split; [by left|done]]].
    exists consumed. by cbn [pending passed accepted option_list].
  - split; [|split; [done|split; [by left|done]]].
    exists (consumed ++ [c]). cbn [pending passed accepted option_list].
    split; [by rewrite <- app_assoc|]. split; [by apply sublist_inserts_r|].
    split; [done|]. split; [done|].
    intros c' [[?|?]%Hcons| ->%list_elem_of_singleton]%elem_of_app; [by left|done|by left].
  - split; [|split; [done|split; [by left|done]]].
    exists (consumed ++ [c]). cbn [pending passed accepted option_list].
    rewrite app_nil_r in Hsl, Hnd.
    split; [by rewrite <- app_assoc|]. split; [by apply sublist_app|].
    split; [|split; [done|]].
    + apply NoDup_app. split; [done|]. split; [|apply NoDup_singleton].
      intros c' Hc' ->%list_elem_of_singleton. by apply Hacc in Hc'.
    + intros c' [[?|?]%Hcons| ->%list_elem_of_singleton]%elem_of_app;
        [by left|done|by right].
Qed.

Lemma step_schedule_inv candidates p i :
  schedule_inv candidates p → schedule_inv candidates (step p i).
Proof.
  intros (Hlen & Htasks & Hseen).
  destruct (tasks p !! i) as [t|] eqn:Ei; [|by rewrite step_outside].
  rewrite (step_inside p i t Ei).
  assert (Hi : i < length candidates) by (rewrite <- Hlen; by eapply lookup_lt_Some).
  destruct (lookup_lt_is_Some_2 candidates i Hi) as [orig Eo].
  destruct (step_task_inv (seen_configs p) orig t (Htasks i orig t Eo Ei))
    as (Ht' & Hsub & Hnew & Hkeep).
  unfold schedule_inv. cbn [tasks seen_configs].
  split; [by rewrite length_insert|]. split.
  - intros j orig' t' Ho' Hj.
    apply list_lookup_insert_Some in Hj as [(-> & <- & _)|[Hne Hj]].
    + rewrite Eo in Ho'. by injection Ho' as <-.
    + eapply task_inv_mono; [exact Hsub|]. by apply (Htasks j).
  - intros c [Hc|Hc]%Hnew.
    + destruct (Hseen c Hc) as (j & tj & Hj & Hcj).
      destruct (decide (i = j)) as [->|Hne].
      * exists j, (step_task (seen_configs p) t).2. split.
        -- apply list_lookup_insert_eq. by eapply lookup_lt_Some.
        -- apply Hkeep. rewrite Ei in Hj. by injection Hj as ->.
      * exists j, tj. split; [by rewrite list_lookup_insert_ne|done].
    + exists i, (step_task (seen_configs p) t).2. split; [|done].
      apply list_lookup_insert_eq. by eapply lookup_lt_Some.
Qed.

Lemma run_schedule_inv candidates schedule : ∀ p,
  schedule_inv candidates p → schedule_inv candidates (run schedule p).
Proof.
  induction schedule as [|i schedule IH]; intros p Hinv; [done|].
  simpl. by apply IH, step_schedule_inv.
Qed.

Lemma start_schedule_inv candidates : schedule_inv candidates (start candidates).
Proof.
  unfold schedule_inv, start. cbn [tasks seen_configs].
  split; [by rewrite length_fmap|]. split; [|set_solver].
  intros i orig t Ho Ht. rewrite list_lookup_fmap, Ho in Ht. injection Ht as <-.
  exists []. cbn [pending passed accepted option_list].
  split; [done|]. split; [done|]. split; [constructor|]. split; by intros c ?%elem_of_nil.
Qed.

Lemma elem_of_all_accepted p c :
  c ∈ all_accepted p ↔ ∃ i t, tasks p !! i = Some t ∧ c ∈ accepted t.
Proof.
  unfold all_accepted. rewrite elem_of_concat. split.
  - intros (l & Hc & (t & -> & (i & Hi)%list_elem_of_lookup)%list_elem_of_fmap).
    by exists i, t.
  - intros (i & t & Hi & Hc). exists (accepted t). split; [done|].
    apply list_elem_of_fmap. exists t. split; [done|by eapply list_elem_of_lookup_2].
Qed.

Lemma any_schedule candidates schedule :
  let p := run schedule (start candidates) in
  (∀ i t, tasks p !! i = Some t →
          NoDup (accepted t)
          ∧ ∃ orig, candidates !! i = Some orig ∧ accepted t `sublist_of` orig)
  ∧ (∀ c, c ∈ seen_configs p ↔ c ∈ all_accepted p)
  ∧ ((∀ t, t ∈ tasks p → pending t = [] ∧ passed t = None) →
     ∀ c, c ∈ concat candidates → c ∈ all_accepted p).
Proof.
  intros p.
  destruct (run_schedule_inv candidates schedule _ (start_schedule_inv candidates))
    as (Hlen & Htasks & Hseen). fold p in Hlen, Htasks, Hseen.
  assert (Hacc : ∀ c, c ∈ all_accepted p → c ∈ seen_configs p).
  { intros c (i & t & Hi & Hc)%elem_of_all_accepted.
    assert (Hlt : i < length candidates) by (rewrite <- Hlen; by eapply lookup_lt_Some).
    destruct (lookup_lt_is_Some_2 candidates i Hlt) as [orig Eo].
    destruct (Htasks i orig t Eo Hi) as (_ & _ & _ & _ & H & _). by apply H. }
  split; [|split].
  - intros i t Hi.
    assert (Hlt : i < length candidates) by (rewrite <- Hlen; by eapply lookup_lt_Some).
    destruct (lookup_lt_is_Some_2 candidates i Hlt) as [orig Eo].
    destruct (Htasks i orig t Eo Hi) as (consumed & E & Hsl & Hnd & _).
    split; [by apply NoDup_app in Hnd as [? _]|].
    exists orig. split; [done|]. rewrite E.
    apply sublist_inserts_r. etrans; [|exact Hsl]. by apply sublist_inserts_r.
  - intros c. split; [|apply Hacc]. intros Hc. apply elem_of_all_accepted. by apply Hseen.
  - intros Hdone c (orig & Hc & (i & Eo)%list_elem_of_lookup)%elem_of_concat.
    assert (Hlt : i < length (tasks p)) by (rewrite Hlen; by eapply lookup_lt_Some).
    destruct (lookup_lt_is_Some_2 (tasks p) i Hlt) as [t Hi].
    destruct (Hdone t) as [Hpend Hpas]; [by eapply list_elem_of_lookup_2|].
    destruct (Htasks i orig t Eo Hi) as (consumed & E & _ & _ & _ & Hcons).
    rewrite Hpend, app_nil_r in E. subst consumed.
    destruct (Hcons c Hc) as [Hin|Hp]; [|congruence].
    apply elem_of_all_accepted. by apply Hseen.
Qed.

End AnySchedule.

(** X23. Whatever the order in which the channel tasks take their steps: no
    task accepts a config twice, and it accepts its configs in the order of
    its candidates; the shared set holds exactly the configs that some task
    has accepted; and once every task is done, every candidate of every
    channel has been accepted by at least one task.  An unlucky schedule
    can make two tasks accept the same config, but it loses none. *)
Theorem any_schedule_loses_no_config (candidates : list (list string))
    (schedule : list nat) :
  let p := Threads.run schedule (Threads.start candidates) in
  (∀ i t, Threads.tasks p !! i = Some t →
          NoDup (Threads.accepted t)
          ∧ ∃ orig, candidates !! i = Some orig ∧ Threads.accepted t `sublist_of` orig)
  ∧ (∀ c, c ∈ Threads.seen_configs p ↔ c ∈ Threads.all_accepted p)
  ∧ ((∀ t, t ∈ Threads.tasks p → Threads.pending t = [] ∧ Threads.passed t = None) →
     ∀ c, c ∈ concat candidates → c ∈ Threads.all_accepted p).
Proof. apply any_schedule. Qed.

Lemma any_schedule_loses_no_config_witness :
  Threads.all_accepted
    (Threads.run [0; 1; 0; 1; 1]
       (Threads.start [["vless://a@h:1"]; ["vless://a@h:1"; "ss://c@h:3"]]))
  = ["vless://a@h:1"; "vless://a@h:1"]
  ∧ Threads.all_accepted
      (Threads.run [0; 1; 0; 1; 1; 1]
         (Threads.start [["vless://a@h:1"]; ["vless://a@h:1"; "ss://c@h:3"]]))
    = ["vless://a@h:1"; "vless://a@h:1"; "ss://c@h:3"]
  ∧ "ss://c@h:3"
    ∈ Threads.all_accepted
        (Threads.run [0; 1; 0; 1; 1; 1]
           (Threads.start [["vless://a@h:1"]; ["vless://a@h:1"; "ss://c@h:3"]])).
Proof.
  split; [vm_compute; reflexivity|]. split; [vm_compute; reflexivity|].
  apply (proj2 (proj2 (any_schedule_loses_no_config
                         [["vless://a@h:1"]; ["vless://a@h:1"; "ss://c@h:3"]]
                         [0; 1; 0; 1; 1; 1]))).
  - vm_compute. intros t Ht.
    repeat (apply elem_of_cons in Ht as [->|Ht]); [done..|by apply elem_of_nil in Ht].
  - vm_compute. do 2 right. left.
Defined.
